(** * CHRONOS-EYE: indexing and retrieval core, embedded in Rocq.

    The Python sources embedded here are
      - [src/scanner.py]        (MediaScanner),
      - [utils/frame_sampler.py] (FrameSampler),
      - [src/database.py]       (VectorDatabase),
      - [src/embedder.py]       (EmbeddingPipeline),
      - [src/search.py]         (SemanticSearch),
      - [index.py]              (ChronosIndexer).

    Conventions.  A Python [int] is a [Z] (a [nat] for a length or a size),
    a Python [str] a [string], the bytes of its UTF-8 encoding, a [set] of
    strings a [gset string], a metadata [dict] the list of its items.  Frame
    rates, timestamps, distances and scores are Python floats.  They are
    idealised as rationals ([Q]) where the code compares, subtracts or
    stores them, and as reals ([R]) where it takes a square root (the L2
    norm).  Where the code cuts a quotient of floats to an [int], the frame
    interval of the sampler, the quotient is the double the machine computes
    ([Binary64]): there a rounding in the last bit decides the result.  A
    Python function that may raise returns a [result]; the exceptions the
    code raises are the constructors of [exn].  External collaborators (the
    CLIP model, ChromaDB, OpenCV, SHA-256, the Unicode tables of
    [str.lower()], the filesystem) are Section variables. *)

From Stdlib Require Import ZArith QArith Qround Qabs Qpower Reals Lra Lia Bool.
From Stdlib Require Import Ascii String Strings.Byte DecimalString.
From Stdlib Require Floats.SpecFloat.
From stdpp Require Import base option list gmap strings sets sorting.

Set Warnings "-register-all".

(* ===================================================================== *)
(** * Python prelude: exceptions, results, ranges and slices *)
(* ===================================================================== *)

Module Py.

(** The exceptions the embedded code raises (or lets through). *)
Inductive exn : Type :=
| InvalidPath (message : string)
    (** [ValueError(message)], message from [validate_path] *)
| LengthMismatch
    (** [ValueError("ids, embeddings, and metadatas must have same length")] *)
| DimensionMismatch (expected got : nat)
    (** [ValueError(f"Embedding dimension mismatch: expected {..}, got {..}")] *)
| VideoNotFound (path : string)
    (** [FileNotFoundError(f"Video not found: {video_path}")] *)
| CouldNotOpenVideo (path : string)
    (** [ValueError(f"Could not open video: {video_path}")] *)
| ZeroDivisionError
    (** raised by [/] and [%] on a zero divisor *)
| RangeStepZero
    (** [ValueError("range() arg 3 must not be zero")] *)
| VstackEmpty
    (** [ValueError("need at least one array to concatenate")] *)
| VstackShape
    (** [ValueError] of [np.vstack] on rows of different widths *)
| FileNotInDatabase (file_id : string)
    (** [ValueError(f"File not found in database: {file_id}")] *)
| FileNotFound (path : string)
    (** [FileNotFoundError] of [Path.stat()] on a path that leads nowhere *)
| OverflowError
    (** [OverflowError("cannot convert float infinity to integer")] *)
| IntOfNaN
    (** [ValueError("cannot convert float NaN to integer")] *)
| External (what : string).
    (** an exception raised inside an external collaborator *)

Inductive result (A : Type) : Type :=
| Ok (a : A)
| Raise (e : exn).
Arguments Ok {A} a.
Arguments Raise {A} e.

Definition bind {A B} (r : result A) (k : A -> result B) : result B :=
  match r with
  | Ok a => k a
  | Raise e => Raise e
  end.

Definition is_ok {A} (r : result A) : bool :=
  match r with Ok _ => true | Raise _ => false end.

Definition map_result {A B} (f : A -> B) (r : result A) : result B :=
  match r with
  | Ok a => Ok (f a)
  | Raise e => Raise e
  end.

(** [range(0, stop, step)] for [stop >= 0]: the multiples of [step] below
    [stop].  A zero step raises, a negative one gives the empty range. *)
Definition range0 (stop : nat) (step : Z) : result (list nat) :=
  if (step =? 0)%Z then Raise RangeStepZero
  else if (step <? 0)%Z then Ok []
  else
    let s := Z.to_nat step in
    Ok (map (fun k => k * s) (seq 0 ((stop + s - 1) / s))).

(** [l[i : i + n]] for [0 <= i], [0 < n]. *)
Definition slice {A} (i n : nat) (l : list A) : list A := take n (drop i l).

(** [l[:k]]: the first [k] elements, or all but the last [-k] when [k < 0]. *)
Definition slice_to {A} (k : Z) (l : list A) : list A :=
  if (0 <=? k)%Z then take (Z.to_nat k) l
  else take (length l - Z.to_nat (- k)) l.

End Py.

Export Py.

(** [x ← r; k] runs [r] and, unless it raised, continues with [k]. *)
#[global] Instance result_ret : MRet result := @Ok.
#[global] Instance result_bind : MBind result := fun A B k r => Py.bind r k.
#[global] Instance result_fmap : FMap result := @Py.map_result.

Lemma bind_ok {A B} (a : A) (k : A -> result B) : (Ok a ≫= k) = k a.
Proof. reflexivity. Qed.

Lemma bind_raise {A B} (e : exn) (k : A -> result B) : (Raise e ≫= k) = Raise e.
Proof. reflexivity. Qed.

Lemma fmap_ok {A B} (f : A -> B) (a : A) : f <$> Ok a = Ok (f a).
Proof. reflexivity. Qed.

(** One step of a computation whose next call is known to return. *)
Ltac step_ok := rewrite ?bind_ok; cbv beta.

(* ===================================================================== *)
(** * src/scanner.py *)
(* ===================================================================== *)

Module Scanner.

(** ** The filesystem the scanner sees *)

(** What the operating system lets the scanner do with a file that
    [os.walk] lists. *)
Inductive access : Type :=
| Readable
    (** [stat()] and [open(.., 'rb')] succeed *)
| Unreadable
    (** [stat()] succeeds, [open(.., 'rb')] raises an [IOError] *)
| Missing.
    (** [stat()] raises [FileNotFoundError]: a dangling symbolic link, which
        [os.walk] lists among the files, or a file removed since the listing *)

(** A file as [os.walk] lists it: its name in its directory, its bytes, what
    can be done with it, and [st_mtime].  [st_size] is the number of
    bytes. *)
Record file : Type := File {
  fname : string;
  fbytes : list byte;
  faccess : access;
  fmtime : Q
}.

Definition st_size (f : file) : nat := length (fbytes f).

(** [open(file_path, 'rb')] succeeds. *)
Definition freadable (f : file) : bool :=
  match faccess f with Readable => true | _ => false end.

(** [file_path.stat()] succeeds. *)
Definition fexists (f : file) : bool :=
  match faccess f with Missing => false | _ => true end.

(** A directory: its files and its named subdirectories, in the order
    [os.walk] lists them. *)
Inductive tree : Type :=
| Node (files : list file) (dirs : list (string * tree)).

(** What [validate_path] asks the operating system about the root. *)
Record root_dir : Type := RootDir {
  rd_exists : bool;
  rd_is_dir : bool;
  rd_r_ok : bool;
  rd_w_ok : bool;
  rd_tree : tree
}.

(** ** pathlib and str helpers *)

Definition join_path (root name : string) : string := root +:+ "/" +:+ name.

(** [name.rfind('.')], scanning left to right and remembering the last dot. *)
Fixpoint rfind_dot (s : string) (i : nat) (last : option nat) : option nat :=
  match s with
  | EmptyString => last
  | String c s' =>
      rfind_dot s' (S i) (if Ascii.eqb c "."%char then Some i else last)
  end.

(** [PurePath.suffix]: [name[i:]] when [0 < i < len(name) - 1] for the last
    dot [i], else the empty string. *)
Definition suffix (name : string) : string :=
  match rfind_dot name 0 None with
  | Some i =>
      if (0 <? i)%nat && (i <? String.length name - 1)%nat
      then substring i (String.length name - i) name
      else ""
  | None => ""
  end.

(** [d.startswith('.')] *)
Definition hidden (d : string) : bool :=
  match d with
  | String c _ => Ascii.eqb c "."%char
  | EmptyString => false
  end.

(** [str(n)] for a non-negative [int]. *)
Definition str_of_nat (n : nat) : string := NilEmpty.string_of_uint (Nat.to_uint n).

(** [s.encode()] *)
Definition encode (s : string) : list byte := list_byte_of_string s.

(** ** Data model *)

Record MediaFile : Type := mkMediaFile {
  path : string;
  file_hash : string;
  file_type : string;
  size_bytes : nat;
  modified_time : Q
}.

(** The JSON object of [.chronos_ignore], without its [last_updated] time
    stamp. *)
Record ignore_data : Type := IgnoreData {
  indexed_hashes : list string;
  total_files : nat
}.

(** The scanner object: [indexed_files] is the in-memory fingerprint set,
    [ignore_file] the JSON object that [json.load] reads from
    [.chronos_ignore].  [None] stands for a file that is not there, and for
    one that does not hold a complete JSON object: [_load_ignore_file]
    answers both with the empty set (it prints a warning for the second). *)
Record MediaScanner : Type := mkScanner {
  root_path : string;
  video_extensions : list string;
  image_extensions : list string;
  indexed_files : gset string;
  ignore_file : option ignore_data
}.

Definition default_video_extensions : list string :=
  [".mp4"; ".mov"; ".mkv"; ".avi"; ".webm"; ".flv"; ".wmv"; ".m4v"].
Definition default_image_extensions : list string :=
  [".jpg"; ".jpeg"; ".png"; ".webp"; ".bmp"; ".tiff"; ".tif"; ".gif"].

Definition all_extensions (sc : MediaScanner) : list string :=
  video_extensions sc ++ image_extensions sc.

Definition MiB : N := 1024 * 1024.

(** What becomes of the write in [_save_ignore_file]. *)
Inductive write_outcome : Type :=
| Written
    (** [open(.., 'w')] and [json.dump] succeed *)
| OpenRefused
    (** [open(.., 'w')] raises an [IOError]; the file is not touched *)
| Interrupted.
    (** [open(.., 'w')] has emptied the file, then writing raises an
        [IOError]: what is left is cut short and is no JSON object *)

Section WithHash.

(** [hashlib.sha256(data).hexdigest()], and [str.lower()], which goes by the
    Unicode database of the interpreter. *)
Variable sha256 : list byte -> string.
Variable lower : string -> string.

(** [_load_ignore_file] *)
Definition _load_ignore_file (on_disk : option ignore_data) : gset string :=
  match on_disk with
  | None => ∅
  | Some d => list_to_set (indexed_hashes d)
  end.

(** [MediaScanner.__init__] with the default extension lists. *)
Definition new_scanner (root : string) (on_disk : option ignore_data) : MediaScanner :=
  {| root_path := root;
     video_extensions := map lower default_video_extensions;
     image_extensions := map lower default_image_extensions;
     indexed_files := _load_ignore_file on_disk;
     ignore_file := on_disk |}.

(** [validate_path] *)
Definition validate_path (sc : MediaScanner) (rd : root_dir) : bool * string :=
  if negb (rd_exists rd) then (false, "Path does not exist: " +:+ root_path sc)
  else if negb (rd_is_dir rd) then (false, "Path is not a directory: " +:+ root_path sc)
  else if negb (rd_r_ok rd) then (false, "No read permission for: " +:+ root_path sc)
  else if negb (rd_w_ok rd) then (false, "No write permission for: " +:+ root_path sc)
  else (true, "Path validated successfully").

(** [_compute_file_hash], past its first line: the whole content under
    10 MiB, else the first and last MiB and the size; path and size when the
    file cannot be opened.  The first line, [file_path.stat().st_size],
    raises for a file that is [Missing]; the loop of [scan_directory], which
    is where the exception ends up, has that case ([scan_files] below). *)
Definition _compute_file_hash (file_path : string) (f : file) : string :=
  let file_size := st_size f in
  let fallback := encode file_path ++ encode (str_of_nat file_size) in
  if (N.of_nat file_size <? 10 * MiB)%N then
    if freadable f then sha256 (fbytes f) else sha256 fallback
  else
    if freadable f then
      sha256 (take (N.to_nat MiB) (fbytes f)
              ++ take (N.to_nat MiB) (drop (file_size - N.to_nat MiB) (fbytes f))
              ++ encode (str_of_nat file_size))
    else sha256 fallback.

(** [os.walk(root)], top-down, with [dirs[:]] pruned of hidden names: the
    files in the order the loop of [scan_directory] meets them, each with
    its [Path(root) / filename]. *)
Fixpoint walk (root : string) (t : tree) : list (string * file) :=
  match t with
  | Node files dirs =>
      map (fun f => (join_path root (fname f), f)) files ++
      (fix walk_dirs (ds : list (string * tree)) : list (string * file) :=
         match ds with
         | [] => []
         | (d, sub) :: ds' =>
             (if hidden d then [] else walk (join_path root d) sub) ++ walk_dirs ds'
         end) dirs
  end.

(** [file_path.suffix.lower() in self.all_extensions]; the suffix of a path
    is that of its last component, the file's name. *)
Definition has_media_extension (sc : MediaScanner) (f : file) : bool :=
  bool_decide (lower (suffix (fname f)) ∈ all_extensions sc).

Definition media_file_of (sc : MediaScanner) (file_path : string) (f : file) : MediaFile :=
  {| path := file_path;
     file_hash := _compute_file_hash file_path f;
     file_type :=
       if bool_decide (lower (suffix (fname f)) ∈ video_extensions sc)
       then "video" else "image";
     size_bytes := st_size f;
     modified_time := fmtime f |}.

(** The body of the two nested [for] loops of [scan_directory], over the
    walked files.  Nothing in the loop catches the [FileNotFoundError] of
    [file_path.stat()]: it ends the scan, and the files found so far are
    lost with it. *)
Fixpoint scan_files (sc : MediaScanner) (incremental : bool)
    (entries : list (string * file)) : result (list MediaFile) :=
  match entries with
  | [] => Ok []
  | (file_path, f) :: rest =>
      if negb (has_media_extension sc f) then
        scan_files sc incremental rest
      else if negb (fexists f) then
        Raise (FileNotFound file_path)
      else
        let h := _compute_file_hash file_path f in
        if incremental && bool_decide (h ∈ indexed_files sc) then
          scan_files sc incremental rest
        else
          cons (media_file_of sc file_path f) <$> scan_files sc incremental rest
  end.

(** [scan_directory] *)
Definition scan_directory (sc : MediaScanner) (rd : root_dir) (incremental : bool)
    : result (list MediaFile) :=
  let '(is_valid, message) := validate_path sc rd in
  if negb is_valid then Raise (InvalidPath message)
  else scan_files sc incremental (walk (root_path sc) (rd_tree rd)).

(** [_save_ignore_file]: a full rewrite of the JSON object.  An [IOError]
    is printed and goes no further; it leaves the file as it was when
    [open] raised it, and cut short when it came after [open]. *)
Definition _save_ignore_file (outcome : write_outcome) (old : option ignore_data)
    (hashes : gset string) : option ignore_data :=
  match outcome with
  | Written => Some {| indexed_hashes := elements hashes; total_files := size hashes |}
  | OpenRefused => old
  | Interrupted => None
  end.

(** [update_ignore_file] *)
Definition update_ignore_file (outcome : write_outcome) (sc : MediaScanner)
    (media_files : list MediaFile) : MediaScanner :=
  let new_hashes : gset string := list_to_set (map file_hash media_files) in
  let indexed := indexed_files sc ∪ new_hashes in
  {| root_path := root_path sc;
     video_extensions := video_extensions sc;
     image_extensions := image_extensions sc;
     indexed_files := indexed;
     ignore_file := _save_ignore_file outcome (ignore_file sc) indexed |}.

(** ** The scan as a list, when every [stat()] works *)

(** The media files the loop keeps, were no [stat()] to fail. *)
Fixpoint discovered (sc : MediaScanner) (incremental : bool)
    (entries : list (string * file)) : list MediaFile :=
  match entries with
  | [] => []
  | (file_path, f) :: rest =>
      if negb (has_media_extension sc f) then
        discovered sc incremental rest
      else
        if incremental && bool_decide (_compute_file_hash file_path f ∈ indexed_files sc) then
          discovered sc incremental rest
        else
          media_file_of sc file_path f :: discovered sc incremental rest
  end.

(** The first walked file with a media extension whose [stat()] fails. *)
Fixpoint first_missing (sc : MediaScanner) (entries : list (string * file))
    : option string :=
  match entries with
  | [] => None
  | (file_path, f) :: rest =>
      if has_media_extension sc f && negb (fexists f) then Some file_path
      else first_missing sc rest
  end.

(** The loop raises for the first such file, whatever the mode, and returns
    the list otherwise. *)
Lemma scan_files_spec sc incremental entries :
  scan_files sc incremental entries
  = match first_missing sc entries with
    | Some p => Raise (FileNotFound p)
    | None => Ok (discovered sc incremental entries)
    end.
Proof.
  induction entries as [|[p f] rest IH]; simpl; [done|].
  destruct (has_media_extension sc f); simpl; [|done].
  destruct (fexists f); simpl; [|done].
  rewrite IH. destruct (incremental && bool_decide _); [done|].
  by destruct (first_missing sc rest).
Qed.

Lemma scan_files_ok sc incremental entries media_files :
  scan_files sc incremental entries = Ok media_files ->
  first_missing sc entries = None /\ media_files = discovered sc incremental entries.
Proof.
  rewrite scan_files_spec. destruct (first_missing sc entries); [done|].
  by intros [= <-].
Qed.

(** ** Properties of the incremental scan *)

(** The scanner as it stands after a commit keeps its extension lists. *)
Lemma update_ignore_file_extensions outcome sc mfs f :
  has_media_extension (update_ignore_file outcome sc mfs) f
  = has_media_extension sc f.
Proof. reflexivity. Qed.

Lemma media_file_of_update outcome sc mfs p f :
  media_file_of (update_ignore_file outcome sc mfs) p f = media_file_of sc p f.
Proof. reflexivity. Qed.

Lemma indexed_files_update outcome sc mfs :
  indexed_files (update_ignore_file outcome sc mfs)
  = indexed_files sc ∪ list_to_set (map file_hash mfs).
Proof. reflexivity. Qed.

Lemma first_missing_update outcome sc mfs entries :
  first_missing (update_ignore_file outcome sc mfs) entries = first_missing sc entries.
Proof. induction entries as [|[p f] rest IH]; simpl; [done|]. by rewrite IH. Qed.

(** The fingerprint of a file that can be read is computed from its bytes
    alone: neither its path nor its name enters, so that moving, renaming
    or copying the file does not change it. *)
Lemma fingerprint_ignores_path (p p' : string) (f f' : file) :
  freadable f = true -> freadable f' = true -> fbytes f = fbytes f' ->
  _compute_file_hash p f = _compute_file_hash p' f'.
Proof.
  intros Hr Hr' Hb. unfold _compute_file_hash, st_size. by rewrite Hr, Hr', Hb.
Qed.

(** The incremental loop keeps exactly the entries of the full loop whose
    fingerprint is not in the set. *)
Lemma discovered_incremental sc entries :
  discovered sc true entries
  = filter (fun mf => file_hash mf ∉ indexed_files sc) (discovered sc false entries).
Proof.
  induction entries as [|[p f] rest IH]; simpl; [done|].
  destruct (has_media_extension sc f); simpl; [|done].
  rewrite filter_cons. simpl.
  case_bool_decide as Hin.
  - rewrite decide_False by (intros Hn; by apply Hn). done.
  - rewrite decide_True by done. by rewrite IH.
Qed.

Lemma scan_files_incremental sc entries :
  scan_files sc true entries
  = filter (fun mf => file_hash mf ∉ indexed_files sc) <$> scan_files sc false entries.
Proof.
  rewrite !scan_files_spec. destruct (first_missing sc entries); [done|].
  by rewrite discovered_incremental.
Qed.

(** Every media entry of a walk has its fingerprint in the set once the
    result of a scan over that walk is committed. *)
Lemma discovered_hashes_covered sc inc entries p f :
  (p, f) ∈ entries ->
  has_media_extension sc f = true ->
  _compute_file_hash p f
    ∈ indexed_files sc ∪ list_to_set (map file_hash (discovered sc inc entries)).
Proof.
  intros Hin Hext.
  induction entries as [|[p' f'] rest IH]; [by apply elem_of_nil in Hin|].
  apply elem_of_cons in Hin as [Heq|Hin].
  - inversion Heq; subst p' f'. simpl. rewrite Hext. simpl.
    destruct inc; simpl.
    + case_bool_decide; simpl; [by apply elem_of_union_l|].
      apply elem_of_union_r, elem_of_union_l, elem_of_singleton. done.
    + apply elem_of_union_r, elem_of_union_l, elem_of_singleton. done.
  - specialize (IH Hin). simpl.
    destruct (has_media_extension sc f'); simpl; [|done].
    destruct (inc && bool_decide _); simpl; [done|].
    apply elem_of_union in IH as [IH|IH]; [by apply elem_of_union_l|].
    by apply elem_of_union_r, elem_of_union_r.
Qed.

(** An incremental pass over entries that are all fingerprinted finds
    nothing. *)
Lemma discovered_all_indexed sc entries :
  (forall p f, (p, f) ∈ entries -> has_media_extension sc f = true ->
               _compute_file_hash p f ∈ indexed_files sc) ->
  discovered sc true entries = [].
Proof.
  induction entries as [|[p f] rest IH]; intros Hall; simpl; [done|].
  assert (Hrest : discovered sc true rest = []).
  { apply IH. intros p' f' Hin. apply Hall. by right. }
  destruct (has_media_extension sc f) eqn:Hext; simpl; [|done].
  rewrite bool_decide_true; [done|].
  apply Hall; [left|done].
Qed.

(** The same pass with one entry whose fingerprint is fresh finds that one. *)
Lemma discovered_one_new sc pre post p f :
  (forall p' f', (p', f') ∈ pre ++ post -> has_media_extension sc f' = true ->
                 _compute_file_hash p' f' ∈ indexed_files sc) ->
  has_media_extension sc f = true ->
  _compute_file_hash p f ∉ indexed_files sc ->
  discovered sc true (pre ++ (p, f) :: post) = [media_file_of sc p f].
Proof.
  intros Hall Hext Hnew.
  induction pre as [|[p' f'] pre IH]; simpl in *.
  - rewrite Hext. simpl. rewrite bool_decide_false by done.
    f_equal. apply discovered_all_indexed. done.
  - assert (Hhd : has_media_extension sc f' = true ->
                  _compute_file_hash p' f' ∈ indexed_files sc).
    { apply Hall. by left. }
    rewrite IH by (intros p'' f'' Hin; apply Hall; by right).
    destruct (has_media_extension sc f'); simpl; [|done].
    by rewrite bool_decide_true by auto.
Qed.

Lemma first_missing_app sc entries1 entries2 :
  first_missing sc (entries1 ++ entries2)
  = match first_missing sc entries1 with
    | Some p => Some p
    | None => first_missing sc entries2
    end.
Proof.
  induction entries1 as [|[p f] rest IH]; simpl; [done|].
  by destruct (has_media_extension sc f && negb (fexists f)).
Qed.

(** What is kept of an incremental scan carries no fingerprint of the set. *)
Lemma discovered_fresh sc entries :
  Forall (fun mf => file_hash mf ∉ indexed_files sc) (discovered sc true entries).
Proof.
  rewrite discovered_incremental. apply Forall_forall. intros mf Hin.
  by apply list_elem_of_filter in Hin as [? _].
Qed.

(** C8.  In incremental mode the scan returns exactly the discovered media
    files whose content fingerprint is not in the loaded fingerprint set: a
    discovered file is left out if and only if its fingerprint is in the set
    (a).  The fingerprint of a file that can be read is computed from its
    bytes and from nothing else, neither its path nor its name (b); a file
    that cannot be opened has the fingerprint of its path and size (c).  So
    once a scan is committed, a readable file with the same bytes as a
    readable media file of that scan is left out by every incremental scan,
    wherever it has been moved or copied to and whatever it is called (d);
    an incremental scan of the same directory right after the commit
    returns the empty list (e); and when the directory then gains one media
    file, whose fingerprint is not yet in the set, the incremental rescan
    returns exactly that file (f). *)
Theorem incremental_scan_is_fingerprint_dedup (sc : MediaScanner) (rd : root_dir) :
  scan_directory sc rd true
    = filter (fun mf => file_hash mf ∉ indexed_files sc) <$> scan_directory sc rd false
  /\ (forall p p' f f',
        freadable f = true -> freadable f' = true -> fbytes f = fbytes f' ->
        _compute_file_hash p f = _compute_file_hash p' f')
  /\ (forall p f,
        freadable f = false ->
        _compute_file_hash p f = sha256 (encode p ++ encode (str_of_nat (st_size f))))
  /\ (forall inc outcome media_files rd' results p f p' f',
        scan_directory sc rd inc = Ok media_files ->
        (p, f) ∈ walk (root_path sc) (rd_tree rd) ->
        has_media_extension sc f = true ->
        freadable f = true -> freadable f' = true -> fbytes f' = fbytes f ->
        scan_directory (update_ignore_file outcome sc media_files) rd' true = Ok results ->
        _compute_file_hash p' f' ∉ map file_hash results)
  /\ (forall inc outcome media_files,
        scan_directory sc rd inc = Ok media_files ->
        scan_directory (update_ignore_file outcome sc media_files) rd true = Ok [])
  /\ (forall inc outcome media_files tree' pre post p f,
        scan_directory sc rd inc = Ok media_files ->
        walk (root_path sc) (rd_tree rd) = pre ++ post ->
        walk (root_path sc) tree' = pre ++ (p, f) :: post ->
        has_media_extension sc f = true ->
        fexists f = true ->
        _compute_file_hash p f
          ∉ indexed_files (update_ignore_file outcome sc media_files) ->
        scan_directory (update_ignore_file outcome sc media_files)
          (RootDir (rd_exists rd) (rd_is_dir rd) (rd_r_ok rd) (rd_w_ok rd) tree') true
        = Ok [media_file_of sc p f]).
Proof.
  unfold scan_directory.
  destruct (validate_path sc rd) as [is_valid message] eqn:Hval.
  assert (Hval' : forall outcome mfs t,
    validate_path (update_ignore_file outcome sc mfs)
      (RootDir (rd_exists rd) (rd_is_dir rd) (rd_r_ok rd) (rd_w_ok rd) t)
    = (is_valid, message)).
  { intros. rewrite <- Hval. reflexivity. }
  assert (Hrd : rd = RootDir (rd_exists rd) (rd_is_dir rd) (rd_r_ok rd) (rd_w_ok rd)
                       (rd_tree rd)) by (by destruct rd).
  split; [|split; [|split; [|split; [|split]]]].
  - destruct is_valid; simpl; [|done]. apply scan_files_incremental.
  - intros p p' f f'. apply fingerprint_ignores_path.
  - intros p f Hr. unfold _compute_file_hash. rewrite Hr. by destruct (_ <? _)%N.
  - intros inc outcome mfs rd' results p f p' f' Hscan Hin Hext Hr Hr' Hbytes Hscan'.
    destruct is_valid; simpl in *; [|done].
    apply scan_files_ok in Hscan as [_ ->].
    destruct (validate_path _ rd') as [[] ?]; simpl in *; [|done].
    apply scan_files_ok in Hscan' as [_ ->].
    rewrite (fingerprint_ignores_path p' p f' f) by done.
    intros Hres. apply list_elem_of_fmap in Hres as (mf & Hmf & Hres).
    pose proof (discovered_fresh (update_ignore_file outcome sc
                  (discovered sc inc (walk (root_path sc) (rd_tree rd))))
                  (walk (root_path sc) (rd_tree rd'))) as Hfresh.
    rewrite Forall_forall in Hfresh. apply (Hfresh mf Hres).
    rewrite <- Hmf, indexed_files_update. by apply discovered_hashes_covered.
  - intros inc outcome mfs Hscan.
    rewrite Hrd, Hval'. destruct is_valid; simpl in *; [|done].
    apply scan_files_ok in Hscan as [Hstat ->].
    rewrite scan_files_spec, first_missing_update, Hstat. f_equal.
    apply discovered_all_indexed. intros p f Hin Hext.
    rewrite indexed_files_update. by apply discovered_hashes_covered.
  - intros inc outcome mfs tree' pre post p f Hscan Hwalk Hwalk' Hext Hex Hnew.
    rewrite Hval'. destruct is_valid; simpl in *; [|done].
    apply scan_files_ok in Hscan as [Hstat Hmfs].
    change (root_path (update_ignore_file outcome sc mfs)) with (root_path sc).
    rewrite Hwalk', scan_files_spec, first_missing_update.
    rewrite Hwalk, first_missing_app in Hstat.
    rewrite first_missing_app. simpl. rewrite Hext, Hex. simpl.
    destruct (first_missing sc pre); [done|]. rewrite Hstat. f_equal.
    rewrite <- (media_file_of_update outcome sc mfs).
    apply discovered_one_new; [|done|done].
    intros p' f' Hin Hext'. rewrite indexed_files_update, Hmfs.
    apply discovered_hashes_covered; [|done]. by rewrite Hwalk.
Qed.

(** ** Further properties of the scanner *)

(** X1.  A commit that writes the ignore file, then a fresh scanner on the
    same root: the fresh scanner loads exactly the fingerprint set the first
    one holds, and the file's [total_files] is the size of that set.  A
    commit whose [open] is refused leaves the file as it was, so the fresh
    scanner loads the set of before the commit.  A commit whose write fails
    after [open] leaves a file cut short: the fresh scanner loads the empty
    set, whatever the file held before.  In every case the scanner that
    committed goes on with the extended set in memory. *)
Theorem ignore_file_round_trip (sc : MediaScanner) (media_files : list MediaFile) :
  indexed_files
    (new_scanner (root_path sc) (ignore_file (update_ignore_file Written sc media_files)))
  = indexed_files (update_ignore_file Written sc media_files)
  /\ total_files <$> ignore_file (update_ignore_file Written sc media_files)
     = Some (size (indexed_files (update_ignore_file Written sc media_files)))
  /\ indexed_files
       (new_scanner (root_path sc)
                    (ignore_file (update_ignore_file OpenRefused sc media_files)))
     = _load_ignore_file (ignore_file sc)
  /\ indexed_files
       (new_scanner (root_path sc)
                    (ignore_file (update_ignore_file Interrupted sc media_files)))
     = ∅
  /\ forall outcome,
       indexed_files (update_ignore_file outcome sc media_files)
       = indexed_files sc ∪ list_to_set (map file_hash media_files).
Proof.
  split; [|split; [|split; [|split]]]; simpl; [|done|done|done|done].
  apply list_to_set_elements_L.
Qed.

(** What a scan keeps, in either mode, are media files of the walk: each
    is built from a walked file whose lower-cased suffix is in the extension
    lists, and the paths come in the order of the walk. *)
Lemma discovered_from_walk sc incremental entries :
  Forall (fun mf =>
            exists p f, (p, f) ∈ entries /\ mf = media_file_of sc p f
                        /\ has_media_extension sc f = true)
         (discovered sc incremental entries)
  /\ map path (discovered sc incremental entries) `sublist_of` map fst entries.
Proof.
  induction entries as [|[p f] rest [IHall IHsub]]; simpl.
  - split; constructor.
  - assert (Hrest : Forall (fun mf =>
              exists p' f', (p', f') ∈ (p, f) :: rest /\ mf = media_file_of sc p' f'
                            /\ has_media_extension sc f' = true)
              (discovered sc incremental rest)).
    { eapply Forall_impl; [exact IHall|]. intros mf (p' & f' & Hin & Hmf & Hext).
      exists p', f'. split; [by right|done]. }
    destruct (has_media_extension sc f) eqn:Hext; simpl.
    + destruct (incremental && bool_decide _); simpl.
      * split; [done|]. by apply sublist_cons.
      * split; [|by apply sublist_skip].
        constructor; [|done]. exists p, f. split; [by left|done].
    + split; [done|]. by apply sublist_cons.
Qed.

(** X2.  What a scan returns, in either mode, are media files of the walk:
    each is built from a walked file whose lower-cased suffix is in the
    extension lists, is typed ["video"] exactly when that suffix is a video
    extension and ["image"] otherwise, and the paths come in the order of
    the walk.  [lower] is [str.lower()] itself, not a model of it. *)
Theorem scan_returns_media_files_of_walk (sc : MediaScanner) (rd : root_dir)
    (incremental : bool) (media_files : list MediaFile) :
  scan_directory sc rd incremental = Ok media_files ->
  Forall (fun mf =>
            exists p f,
              (p, f) ∈ walk (root_path sc) (rd_tree rd)
              /\ mf = media_file_of sc p f
              /\ lower (suffix (fname f)) ∈ all_extensions sc
              /\ (file_type mf = "video"
                  <-> lower (suffix (fname f)) ∈ video_extensions sc)
              /\ (file_type mf = "video" \/ file_type mf = "image"))
         media_files
  /\ map path media_files `sublist_of` map fst (walk (root_path sc) (rd_tree rd)).
Proof.
  unfold scan_directory. destruct (validate_path sc rd) as [[] ?]; simpl; [|done].
  intros Hscan. apply scan_files_ok in Hscan as [_ ->].
  destruct (discovered_from_walk sc incremental (walk (root_path sc) (rd_tree rd)))
    as [Hall Hsub].
  split; [|done]. eapply Forall_impl; [exact Hall|].
  intros mf (p & f & Hin & -> & Hext). exists p, f.
  split; [done|]. split; [done|].
  split; [by apply bool_decide_eq_true in Hext|].
  simpl. case_bool_decide; split; try done; [by left|by right].
Qed.

(** [os.walk] never enters a directory whose name starts with a dot: the
    walk, and with it every scan, is the same as if the directory were not
    there. *)
Lemma walk_skips_hidden root files pre d sub post :
  hidden d = true ->
  walk root (Node files (pre ++ (d, sub) :: post)) = walk root (Node files (pre ++ post)).
Proof.
  intros Hd. simpl. f_equal.
  induction pre as [|[d' sub'] pre IH]; simpl.
  - by rewrite Hd.
  - by rewrite IH.
Qed.

(** The same at any depth: [without_hidden] removes every directory whose
    name starts with a dot, wherever it is in the tree, and no walk or scan
    can tell the difference. *)
Fixpoint without_hidden (t : tree) : tree :=
  match t with
  | Node files dirs =>
      Node files
        ((fix prune_dirs (ds : list (string * tree)) : list (string * tree) :=
            match ds with
            | [] => []
            | (d, sub) :: ds' =>
                if hidden d then prune_dirs ds'
                else (d, without_hidden sub) :: prune_dirs ds'
            end) dirs)
  end.

Lemma walk_without_hidden : forall (t : tree) (root : string),
  walk root (without_hidden t) = walk root t.
Proof.
  fix IH 1. intros [files dirs] root. simpl. f_equal.
  induction dirs as [|[d sub] ds IHds]; simpl; [done|].
  destruct (hidden d) eqn:Hd; simpl.
  - exact IHds.
  - rewrite Hd, IH. by rewrite IHds.
Qed.

(** X3.  Directories whose name starts with a dot are never entered, at any
    depth: scanning a directory gives what scanning it without its hidden
    subtrees gives. *)
Theorem scan_ignores_hidden_subtrees (sc : MediaScanner) (rd : root_dir)
    (incremental : bool) :
  scan_directory sc
    (RootDir (rd_exists rd) (rd_is_dir rd) (rd_r_ok rd) (rd_w_ok rd)
             (without_hidden (rd_tree rd))) incremental
  = scan_directory sc rd incremental.
Proof.
  unfold scan_directory.
  replace (validate_path sc (RootDir _ _ _ _ _)) with (validate_path sc rd)
    by reflexivity.
  destruct (validate_path sc rd) as [[] ?]; cbn [negb rd_tree]; [|done].
  by rewrite walk_without_hidden.
Qed.

(** X4.  Fingerprints of large files look at the ends only: two readable files of
    the same size, 10 MiB or more, that agree on their first and on their
    last MiB have the same fingerprint, whatever lies between and whatever
    their paths, so the second is taken for the first. *)
Theorem large_file_fingerprint_ignores_middle (p p' : string) (f g : file) :
  freadable f = true ->
  freadable g = true ->
  (10 * MiB <= N.of_nat (st_size f))%N ->
  st_size f = st_size g ->
  take (N.to_nat MiB) (fbytes f) = take (N.to_nat MiB) (fbytes g) ->
  drop (st_size f - N.to_nat MiB) (fbytes f) = drop (st_size g - N.to_nat MiB) (fbytes g) ->
  _compute_file_hash p f = _compute_file_hash p' g.
Proof.
  intros Hf Hg Hbig Hsize Hfirst Hlast. unfold _compute_file_hash.
  rewrite Hf, Hg, <- Hsize.
  rewrite (proj2 (N.ltb_ge _ _) Hbig).
  rewrite <- Hsize in Hlast. by rewrite Hfirst, Hlast.
Qed.

(** A scan looks at every file on its own, and stops at the first [stat()]
    that fails. *)
Lemma scan_files_app sc incremental entries1 entries2 :
  scan_files sc incremental (entries1 ++ entries2)
  = (found1 ← scan_files sc incremental entries1;
     found2 ← scan_files sc incremental entries2;
     Ok (found1 ++ found2)).
Proof.
  induction entries1 as [|[p f] rest IH]; simpl.
  - by destruct (scan_files sc incremental entries2).
  - destruct (negb (has_media_extension sc f)); [done|].
    destruct (negb (fexists f)); [done|].
    destruct (incremental && bool_decide _); [done|]. rewrite IH.
    destruct (scan_files sc incremental rest); simpl; [|done].
    by destruct (scan_files sc incremental entries2).
Qed.

(** X5.  The fingerprint set is consulted, never extended, during a scan: two
    readable media files with the same bytes that are met in one scan, their
    fingerprint not yet in the set, are both returned, under one and the
    same fingerprint, between what the scan finds before, between and after
    them. *)
Theorem scan_returns_both_copies (sc : MediaScanner) (incremental : bool)
    (before between after : list (string * file)) (p1 p2 : string) (f1 f2 : file) :
  fbytes f1 = fbytes f2 ->
  freadable f1 = true -> freadable f2 = true ->
  has_media_extension sc f1 = true -> has_media_extension sc f2 = true ->
  _compute_file_hash p1 f1 ∉ indexed_files sc ->
  scan_files sc incremental (before ++ (p1, f1) :: between ++ (p2, f2) :: after)
  = (found_before ← scan_files sc incremental before;
     found_between ← scan_files sc incremental between;
     found_after ← scan_files sc incremental after;
     Ok (found_before
         ++ media_file_of sc p1 f1
         :: found_between
         ++ media_file_of sc p2 f2
         :: found_after))
  /\ file_hash (media_file_of sc p1 f1) = file_hash (media_file_of sc p2 f2).
Proof.
  intros Hbytes Hr1 Hr2 Hext1 Hext2 Hnew.
  assert (Hsame : _compute_file_hash p1 f1 = _compute_file_hash p2 f2)
    by (by apply fingerprint_ignores_path).
  assert (Hex : forall f, freadable f = true -> fexists f = true).
  { intros f. unfold freadable, fexists. by destruct (faccess f). }
  split; [|done].
  assert (Hone : forall p f rest,
    has_media_extension sc f = true -> freadable f = true ->
    _compute_file_hash p f ∉ indexed_files sc ->
    scan_files sc incremental ((p, f) :: rest)
    = cons (media_file_of sc p f) <$> scan_files sc incremental rest).
  { intros p f rest Hext Hr Hfresh. simpl. rewrite Hext, (Hex f Hr). simpl.
    rewrite bool_decide_false by done. by rewrite andb_false_r. }
  rewrite scan_files_app, Hone by done.
  rewrite scan_files_app, Hone by (try done; by rewrite <- Hsame).
  destruct (scan_files sc incremental before); simpl; [|done].
  destruct (scan_files sc incremental between); simpl; [|done].
  by destruct (scan_files sc incremental after).
Qed.

(** X6.  A scan returns a list exactly when the root exists, is a directory,
    can be read and written, and every walked file with a media extension
    can be [stat]'ed.  A root that fails the validation, one that can only
    be read included, is refused with the validation's message; under a
    valid root the first media file whose [stat()] fails, a dangling
    symbolic link for one, ends the scan with its [FileNotFoundError]. *)
Theorem scan_needs_valid_root (sc : MediaScanner) (rd : root_dir) (incremental : bool) :
  let valid := rd_exists rd && rd_is_dir rd && rd_r_ok rd && rd_w_ok rd in
  let entries := walk (root_path sc) (rd_tree rd) in
  is_ok (scan_directory sc rd incremental)
  = valid && forallb (fun pf => implb (has_media_extension sc pf.2) (fexists pf.2)) entries
  /\ (valid = false ->
      scan_directory sc rd incremental = Raise (InvalidPath (validate_path sc rd).2))
  /\ (valid = true ->
      forall pre p f post,
        entries = pre ++ (p, f) :: post ->
        forallb (fun pf => implb (has_media_extension sc pf.2) (fexists pf.2)) pre = true ->
        has_media_extension sc f = true ->
        fexists f = false ->
        scan_directory sc rd incremental = Raise (FileNotFound p)).
Proof.
  intros valid entries.
  assert (Hscan : scan_directory sc rd incremental
                  = if valid then scan_files sc incremental entries
                    else Raise (InvalidPath (validate_path sc rd).2)).
  { unfold scan_directory, validate_path, valid.
    destruct (rd_exists rd), (rd_is_dir rd), (rd_r_ok rd), (rd_w_ok rd); done. }
  assert (Hmissing : forall l,
    forallb (fun pf => implb (has_media_extension sc pf.2) (fexists pf.2)) l
    = bool_decide (first_missing sc l = None)).
  { induction l as [|[p f] rest IH]; simpl; [done|].
    destruct (has_media_extension sc f), (fexists f); simpl; done. }
  rewrite Hscan. split; [|split].
  - destruct valid; simpl; [|done].
    rewrite scan_files_spec, Hmissing.
    by destruct (first_missing sc entries).
  - by intros ->.
  - intros -> pre p f post Hwalk Hpre Hext Hex.
    rewrite scan_files_spec, Hwalk, first_missing_app.
    rewrite Hmissing in Hpre. apply bool_decide_eq_true in Hpre. rewrite Hpre.
    simpl. by rewrite Hext, Hex.
Qed.

End WithHash.

End Scanner.

(* ===================================================================== *)
(** * Python floats as doubles *)
(* ===================================================================== *)

Module Binary64.

Local Open Scope Q_scope.

(** A Python float is an IEEE 754 double: a finite one is given by the
    rational it holds exactly ([Finite 0] stands for both zeros), and there
    are two infinities and NaN. *)
Inductive float : Type :=
| Finite (q : Q)
| Infinity (negative : bool)
| NaN.

Definition pow2 (e : Z) : Q := Qpower 2 e.

(** ** Rounding to the nearest double *)

(** The integer nearest to a rational, the even one of two that are equally
    near. *)
Definition round_half_even (x : Q) : Z :=
  let f := Qfloor x in
  let r := (x - inject_Z f)%Q in
  match (r ?= 1 # 2)%Q with
  | Lt => f
  | Gt => (f + 1)%Z
  | Eq => if Z.even f then f else (f + 1)%Z
  end.

(** The smallest positive double is [2^emin]; the doubles lie below
    [2^emax] in absolute value. *)
Definition emin : Z := -1074.
Definition emax : Z := 1024.

(** The exponent of the last bit a double keeps of a positive rational [x]:
    52 below the exponent [b] of its leading bit, [2^b <= x < 2^(b+1)], and
    no lower than [emin].  The logarithms of numerator and denominator give
    [b] or [b + 1]; the comparison settles which. *)
Definition quantum (x : Q) : Z :=
  let e := (Z.log2 (Qnum x) - Z.log2 (Zpos (Qden x)) - 52)%Z in
  Z.max (if Qle_bool (pow2 (e + 52)) x then e else e - 1)%Z emin.

(** The double nearest to a rational, the one with the even last bit of two
    that are equally near, and an infinity from [2^emax] on: what Python
    makes of a literal, and IEEE 754 of the exact result of an operation. *)
Definition of_Q (x : Q) : float :=
  if Qeq_bool x 0 then Finite 0
  else
    let e := quantum (Qabs x) in
    let y := (inject_Z (round_half_even (x / pow2 e)) * pow2 e)%Q in
    if Qle_bool (pow2 emax) (Qabs y) then Infinity (Qnum x <? 0)%Z
    else Finite (Qred y).

(** ** Division, truncation and comparison *)

Definition is_zero (x : float) : bool :=
  match x with Finite q => Qeq_bool q 0 | _ => false end.

(** IEEE 754 division by a divisor that is not zero: the exact quotient,
    rounded. *)
Definition div (x y : float) : float :=
  match x, y with
  | Finite a, Finite b => of_Q (a / b)
  | Finite _, Infinity _ => Finite 0
  | Infinity s, Finite b => Infinity (xorb s (Qnum b <? 0)%Z)
  | _, _ => NaN
  end.

(** [x / y]: Python raises on a zero divisor. *)
Definition truediv (x y : float) : result float :=
  if is_zero y then Raise ZeroDivisionError else Ok (div x y).

(** [int(x)]: truncation toward zero; an infinity and NaN raise. *)
Definition int_of (x : float) : result Z :=
  match x with
  | Finite q => Ok (Z.quot (Qnum q) (Zpos (Qden q)))
  | Infinity _ => Raise OverflowError
  | NaN => Raise IntOfNaN
  end.

(** [x < y] and [x <= y]; false when either is NaN. *)
Definition ltb (x y : float) : bool :=
  match x, y with
  | Finite a, Finite b => negb (Qle_bool b a)
  | Finite _, Infinity negative => negb negative
  | Infinity negative, Finite _ => negative
  | Infinity n1, Infinity n2 => n1 && negb n2
  | _, _ => false
  end.

Definition leb (x y : float) : bool :=
  match x, y with
  | Finite a, Finite b => Qle_bool a b
  | Finite _, Infinity negative => negb negative
  | Infinity negative, Finite _ => negative
  | Infinity n1, Infinity n2 => n1 || negb n2
  | _, _ => false
  end.

(** ** Properties: powers of two *)

Lemma pow2_pos e : 0 < pow2 e.
Proof. apply Qpower_0_lt. reflexivity. Qed.

Lemma pow2_add a b : pow2 (a + b) == pow2 a * pow2 b.
Proof. apply Qpower_plus. discriminate. Qed.

Lemma pow2_le a b : (a <= b)%Z -> pow2 a <= pow2 b.
Proof. intros H. apply Qpower_le_compat_l; [done|]. discriminate. Qed.

Lemma pow2_lt_inv a b : pow2 a < pow2 b -> (a < b)%Z.
Proof. intros H. apply (Qpower_lt_compat_l_inv 2); [done|reflexivity]. Qed.

Lemma pow2_Z e : (0 <= e)%Z -> pow2 e == inject_Z (2 ^ e).
Proof. intros H. unfold pow2. by rewrite Zpower_Qpower. Qed.

(** ** Rounding to an integer *)

Lemma round_half_even_le (x : Q) (n : Z) :
  x <= inject_Z n -> (round_half_even x <= n)%Z.
Proof.
  intros Hx. unfold round_half_even.
  assert (Hf : (Qfloor x <= n)%Z).
  { rewrite <- (Qfloor_Z n). by apply Qfloor_resp_le. }
  assert (Hstep : 0 < x - inject_Z (Qfloor x) -> (Qfloor x + 1 <= n)%Z).
  { intros Hr. destruct (Z.eq_dec (Qfloor x) n) as [Heq|Hne]; [|lia].
    exfalso. rewrite Heq in Hr. apply (Qlt_not_le _ _ Hr).
    rewrite <- (Qplus_opp_r (inject_Z n)). by apply Qplus_le_l. }
  destruct (x - inject_Z (Qfloor x) ?= 1 # 2) eqn:Hc; [|done|].
  - apply Qeq_alt in Hc. destruct (Z.even (Qfloor x)); [done|].
    apply Hstep. by rewrite Hc.
  - apply Qgt_alt in Hc. apply Hstep. by apply Qlt_trans with (1 # 2).
Qed.

Lemma round_half_even_ge (x : Q) (n : Z) :
  inject_Z n <= x -> (n <= round_half_even x)%Z.
Proof.
  intros Hx. unfold round_half_even.
  assert (Hf : (n <= Qfloor x)%Z).
  { rewrite <- (Qfloor_Z n). by apply Qfloor_resp_le. }
  destruct (_ ?= _); [destruct (Z.even _)| |]; lia.
Qed.


(** ** The last bit kept *)

Lemma Qmake_as_quotient (x : Q) : x * inject_Z (Zpos (Qden x)) == inject_Z (Qnum x).
Proof. destruct x as [n d]. unfold Qeq. simpl. lia. Qed.

(** A positive rational is below the power of two that its numerator and
    denominator give. *)
Lemma log2_upper (x : Q) :
  0 < x -> x < pow2 (Z.log2 (Qnum x) - Z.log2 (Zpos (Qden x)) + 1).
Proof.
  intros Hx.
  assert (Hn : (0 < Qnum x)%Z) by (unfold Qlt in Hx; simpl in Hx; lia).
  set (ln := Z.log2 (Qnum x)). set (ld := Z.log2 (Zpos (Qden x))).
  assert (Hln : (0 <= ln)%Z) by apply Z.log2_nonneg.
  assert (Hld : (0 <= ld)%Z) by apply Z.log2_nonneg.
  pose proof (Z.log2_spec (Qnum x) Hn) as [_ Hnum]. fold ln in Hnum.
  pose proof (Z.log2_spec (Zpos (Qden x)) ltac:(lia)) as [Hden _]. fold ld in Hden.
  replace (ln - ld + 1)%Z with ((ln + 1) + - ld)%Z by lia.
  rewrite pow2_add.
  apply Qmult_lt_r with (pow2 ld); [apply pow2_pos|].
  rewrite <- Qmult_assoc, <- pow2_add.
  replace (- ld + ld)%Z with 0%Z by lia.
  change (pow2 0) with 1. rewrite Qmult_1_r.
  rewrite !pow2_Z by lia.
  apply Qle_lt_trans with (x * inject_Z (Zpos (Qden x))).
  - apply Qmult_le_l; [done|]. by rewrite <- Zle_Qle.
  - rewrite Qmake_as_quotient. rewrite <- Zlt_Qlt.
    by replace (ln + 1)%Z with (Z.succ ln) by lia.
Qed.

(** A positive rational below 1 is rounded at the bit [2^-53] or below. *)
Lemma quantum_below_one (x : Q) : 0 < x -> x < 1 -> (quantum x <= -53)%Z.
Proof.
  intros Hpos Hlt. unfold quantum.
  assert (Hn : (0 < Qnum x)%Z) by (unfold Qlt in Hpos; simpl in Hpos; lia).
  assert (Hnd : (Qnum x <= Zpos (Qden x))%Z) by (unfold Qlt in Hlt; simpl in Hlt; lia).
  pose proof (Z.log2_le_mono _ _ Hnd) as Hlog.
  set (e := (Z.log2 (Qnum x) - Z.log2 (Zpos (Qden x)) - 52)%Z) in *.
  assert (He : (e <= -52)%Z) by (unfold e; lia).
  unfold emin.
  destruct (Qle_bool (pow2 (e + 52)) x) eqn:Htest; [|lia].
  apply Qle_bool_iff in Htest.
  assert (Hlt0 : (e + 52 < 0)%Z).
  { apply pow2_lt_inv. change (pow2 0) with 1. by apply Qle_lt_trans with x. }
  lia.
Qed.

(** What is left of a positive rational above the last bit kept has at most
    53 bits. *)
Lemma quantum_mantissa (x : Q) : 0 < x -> x < pow2 (quantum x + 53).
Proof.
  intros Hpos. unfold quantum.
  set (e := (Z.log2 (Qnum x) - Z.log2 (Zpos (Qden x)) - 52)%Z).
  destruct (Qle_bool (pow2 (e + 52)) x) eqn:Htest.
  - apply Qlt_le_trans with (pow2 (e + 53)).
    + replace (e + 53)%Z
        with (Z.log2 (Qnum x) - Z.log2 (Zpos (Qden x)) + 1)%Z by (unfold e; lia).
      by apply log2_upper.
    + apply pow2_le. lia.
  - apply Qlt_le_trans with (pow2 (e + 52)).
    + apply Qnot_le_lt. intros Hle. apply Qle_bool_iff in Hle. congruence.
    + apply pow2_le. lia.
Qed.

(** ** The numbers a double holds *)

(** An integer of at most 53 bits, 2^53 itself included, at a power of two. *)
Definition is_double (y : Q) : Prop :=
  exists (m e : Z), (Z.abs m <= 2 ^ 53)%Z /\ y == inject_Z m * pow2 e.

Lemma Qabs_pos_of_nonzero (x : Q) : ~ x == 0 -> 0 < Qabs x.
Proof.
  intros Hx. destruct (Qlt_le_dec 0 (Qabs x)) as [|Hle]; [done|]. exfalso. apply Hx.
  apply Qabs_Qle_condition in Hle as [Hlo Hhi]. by apply Qle_antisym.
Qed.

Lemma round_mantissa (x : Q) :
  ~ x == 0 ->
  (Z.abs (round_half_even (x / pow2 (quantum (Qabs x)))) <= 2 ^ 53)%Z.
Proof.
  intros Hx. pose proof (Qabs_pos_of_nonzero x Hx) as Habs.
  pose proof (quantum_mantissa (Qabs x) Habs) as Hm.
  set (q := quantum (Qabs x)) in *.
  rewrite Z.add_comm, pow2_add in Hm.
  apply Qabs_Qlt_condition in Hm as [Hlo Hhi].
  pose proof (pow2_pos q) as Hq.
  assert (H53 : pow2 53 == inject_Z (2 ^ 53)) by (by apply pow2_Z).
  apply Z.abs_le. split.
  - apply round_half_even_ge. rewrite inject_Z_opp, <- H53.
    apply Qlt_le_weak, Qlt_shift_div_l; [done|].
    assert (E : - pow2 53 * pow2 q == - (pow2 53 * pow2 q)) by ring.
    by rewrite E.
  - apply round_half_even_le. rewrite <- H53.
    by apply Qlt_le_weak, Qlt_shift_div_r.
Qed.


Lemma of_Q_double (x y : Q) : of_Q x = Finite y -> is_double y.
Proof.
  unfold of_Q. destruct (Qeq_bool x 0) eqn:Hzero.
  - intros [= <-]. exists 0%Z, 0%Z. split; [done|]. reflexivity.
  - destruct (Qle_bool _ _); [done|]. intros [= <-].
    exists (round_half_even (x / pow2 (quantum (Qabs x)))), (quantum (Qabs x)).
    split; [|apply Qred_correct].
    apply round_mantissa. intros Hx. apply Qeq_bool_iff in Hx. congruence.
Qed.

(** ** Below one *)

(** Two doubles in [0, b) and at [b]: their quotient is at least half a unit
    in the last place below 1. *)
Lemma gap_Z (A B : Z) :
  (0 <= A < B)%Z -> (B <= 2 ^ 53)%Z -> (2 ^ 53 * A <= (2 ^ 53 - 1) * B)%Z.
Proof. change (2 ^ 53)%Z with 9007199254740992%Z. lia. Qed.

Lemma gap_Z_even (A C : Z) :
  (0 <= A <= 2 ^ 53)%Z -> (2 ^ 53 < 2 * C)%Z ->
  (2 ^ 53 * A <= (2 ^ 53 - 1) * (2 * C))%Z.
Proof. change (2 ^ 53)%Z with 9007199254740992%Z. lia. Qed.

Lemma scaled_lt (A B q : Z) :
  inject_Z A * pow2 q < inject_Z B * pow2 q -> (A < B)%Z.
Proof.
  intros H. apply Qmult_lt_r in H; [|apply pow2_pos]. by rewrite Zlt_Qlt.
Qed.

Lemma scaled_le (A B q : Z) :
  (A <= B)%Z -> inject_Z A * pow2 q <= inject_Z B * pow2 q.
Proof.
  intros H. apply Qmult_le_r; [apply pow2_pos|]. by rewrite <- Zle_Qle.
Qed.

Lemma scaled_nonneg (A q : Z) : 0 <= inject_Z A * pow2 q -> (0 <= A)%Z.
Proof.
  intros H. rewrite Zle_Qle. apply (Qmult_le_r _ _ (pow2 q)); [apply pow2_pos|].
  by rewrite Qmult_0_l.
Qed.

(** [m * 2^(q + k)] is the integer [m * 2^k] at [2^q]. *)
Lemma rescale (m q k : Z) :
  (0 <= k)%Z -> inject_Z m * pow2 (q + k) == inject_Z (m * 2 ^ k) * pow2 q.
Proof.
  intros Hk. rewrite pow2_add, inject_Z_mult, <- pow2_Z by done. ring.
Qed.

Lemma double_gap (a b : Q) :
  is_double a -> is_double b -> 0 <= a -> a < b ->
  inject_Z (2 ^ 53) * a <= inject_Z (2 ^ 53 - 1) * b.
Proof.
  intros (ma & qa & Hma & Ha) (mb & qb & Hmb & Hb) Hnn Hlt.
  rewrite Ha, Hb in *.
  destruct (Z_le_gt_dec qb qa) as [Hq|Hq].
  - (* both at [2^qb] *)
    replace qa with (qb + (qa - qb))%Z in * by lia.
    rewrite rescale in * by lia.
    set (A := (ma * 2 ^ (qa - qb))%Z) in *.
    apply scaled_nonneg in Hnn. apply scaled_lt in Hlt.
    rewrite !Qmult_assoc, <- !inject_Z_mult. apply scaled_le.
    apply gap_Z; lia.
  - (* both at [2^qa] *)
    replace qb with (qa + (qb - qa))%Z in * by lia.
    rewrite (rescale mb) in * by lia.
    set (B := (mb * 2 ^ (qb - qa))%Z) in *.
    apply scaled_nonneg in Hnn. apply scaled_lt in Hlt.
    rewrite !Qmult_assoc, <- !inject_Z_mult. apply scaled_le.
    destruct (Z_le_gt_dec B (2 ^ 53)) as [HB|HB]; [apply gap_Z; lia|].
    assert (HB2 : B = (2 * (mb * 2 ^ (qb - qa - 1)))%Z).
    { unfold B. replace (qb - qa)%Z with (1 + (qb - qa - 1))%Z at 1 by lia.
      rewrite Z.pow_add_r by lia. change (2 ^ 1)%Z with 2%Z. ring. }
    rewrite HB2 in *. apply gap_Z_even; lia.
Qed.


Lemma Qabs_of_nonneg (x : Q) : 0 <= x -> Qabs x = x.
Proof.
  destruct x as [n d]. unfold Qle, Qabs. simpl. intros H. f_equal. lia.
Qed.

(** A rational between 0 and [1 - 2^-53] is rounded to a double below 1. *)
Lemma of_Q_below_one (x : Q) :
  0 <= x -> inject_Z (2 ^ 53) * x <= inject_Z (2 ^ 53 - 1) ->
  exists y, of_Q x = Finite y /\ 0 <= y /\ y < 1.
Proof.
  intros Hnn Hx. unfold of_Q.
  destruct (Qeq_bool x 0) eqn:Hzero; [by exists 0|].
  assert (Hpos : 0 < x).
  { apply Qle_lteq in Hnn as [|Heq]; [done|]. symmetry in Heq.
    apply Qeq_bool_iff in Heq. congruence. }
  rewrite (Qabs_of_nonneg x Hnn).
  assert (Hx' : x <= inject_Z (2 ^ 53 - 1) * pow2 (-53)).
  { apply (Qmult_le_l _ _ (inject_Z (2 ^ 53))); [reflexivity|].
    eapply Qle_trans; [exact Hx|]. apply Qle_lteq. right. reflexivity. }
  assert (Hlt1 : inject_Z (2 ^ 53 - 1) * pow2 (-53) < 1) by reflexivity.
  pose proof (quantum_below_one x Hpos (Qle_lt_trans _ _ _ Hx' Hlt1)) as Hq.
  set (q := quantum x) in *. pose proof (pow2_pos q) as Hq0.
  set (m := round_half_even (x / pow2 q)).
  set (N := ((2 ^ 53 - 1) * 2 ^ (-53 - q))%Z).
  assert (HN : inject_Z N * pow2 q == inject_Z (2 ^ 53 - 1) * pow2 (-53)).
  { unfold N. rewrite <- rescale by lia. by replace (q + (-53 - q))%Z with (-53)%Z by lia. }
  assert (Hm0 : (0 <= m)%Z).
  { apply round_half_even_ge. apply Qle_shift_div_l; [done|].
    by rewrite Qmult_0_l. }
  assert (HmN : (m <= N)%Z).
  { apply round_half_even_le. apply Qle_shift_div_r; [done|]. by rewrite HN. }
  assert (Hy0 : 0 <= inject_Z m * pow2 q).
  { apply Qmult_le_0_compat; [by rewrite <- (Zle_Qle 0)|by apply Qlt_le_weak]. }
  assert (Hy1 : inject_Z m * pow2 q < 1).
  { eapply Qle_lt_trans; [apply scaled_le, HmN|]. by rewrite HN. }
  rewrite (Qabs_of_nonneg _ Hy0).
  destruct (Qle_bool (pow2 emax) (inject_Z m * pow2 q)) eqn:Hover.
  { exfalso. apply Qle_bool_iff in Hover. apply (Qlt_not_le _ _ Hy1).
    eapply Qle_trans; [|exact Hover]. discriminate. }
  eexists. split; [reflexivity|]. by rewrite Qred_correct.
Qed.

Lemma int_of_below_one (y : Q) : 0 <= y -> y < 1 -> int_of (Finite y) = Ok 0%Z.
Proof.
  intros H0 H1. simpl. f_equal. apply Z.quot_small.
  unfold Qle, Qlt in *. simpl in *. lia.
Qed.

(** [int(v / f)] for two doubles with [0 <= v < f] is 0. *)
Lemma truncated_quotient_zero (v f : Q) :
  leb (Finite 0) (of_Q v) = true ->
  ltb (of_Q v) (of_Q f) = true ->
  truediv (of_Q v) (of_Q f) = Ok (div (of_Q v) (of_Q f))
  /\ int_of (div (of_Q v) (of_Q f)) = Ok 0%Z.
Proof.
  intros Hle Hlt. unfold truediv.
  destruct (of_Q v) as [a|na|] eqn:Hv, (of_Q f) as [b|nb|] eqn:Hf; simpl in *;
    try done.
  - apply Qle_bool_iff in Hle.
    assert (Hab : a < b).
    { apply Qnot_le_lt. intros Hba. apply Qle_bool_iff in Hba.
      by rewrite Hba in Hlt. }
    assert (Hb : 0 < b) by (by apply Qle_lt_trans with a).
    assert (Hnz : Qeq_bool b 0 = false).
    { destruct (Qeq_bool b 0) eqn:E; [|done]. apply Qeq_bool_iff in E.
      rewrite E in Hb. by apply Qlt_irrefl in Hb. }
    rewrite Hnz. split; [done|].
    destruct (of_Q_below_one (a / b)) as (y & Hy & Hy0 & Hy1).
    + apply Qle_shift_div_l; [done|]. by rewrite Qmult_0_l.
    + pose proof (double_gap a b (of_Q_double _ _ Hv) (of_Q_double _ _ Hf) Hle Hab)
        as Hgap.
      unfold Qdiv. rewrite Qmult_assoc. apply Qle_shift_div_r; [done|exact Hgap].
    + rewrite Hy. by apply int_of_below_one.
  - destruct na; simpl in *; done.
  - destruct na; simpl in *; done.
Qed.

(** A rate of zero gives the quotient zero, whatever it is divided by. *)
Lemma quotient_of_zero (v f : Q) (x : float) (k : Z) :
  v == 0 ->
  truediv (of_Q v) (of_Q f) = Ok x -> int_of x = Ok k -> k = 0%Z.
Proof.
  intros Hv.
  assert (Hz : of_Q v = Finite 0).
  { unfold of_Q. by rewrite (proj2 (Qeq_bool_iff v 0) Hv). }
  rewrite Hz. unfold truediv.
  destruct (is_zero (of_Q f)); [done|]. intros [= <-].
  destruct (of_Q f) as [b|nb|]; simpl; [| |done].
  - by intros [= <-].
  - by intros [= <-].
Qed.

End Binary64.

(* ===================================================================== *)
(** * utils/frame_sampler.py *)
(* ===================================================================== *)

Module FrameSampler.

(** ** Python arithmetic on floats and ints *)

(** [a / b] on floats where the quotient is only stored, as a timestamp is:
    a zero divisor raises, and the quotient is idealised as the exact
    one. *)
Definition float_div (a b : Q) : result Q :=
  if Qeq_bool b 0 then Raise ZeroDivisionError else Ok (a / b)%Q.

(** [a % b] on ints: a zero divisor raises; the sign follows the divisor. *)
Definition int_mod (a b : Z) : result Z :=
  if (b =? 0)%Z then Raise ZeroDivisionError else Ok (a mod b)%Z.

(** [round(x)], Python 3: to the nearest integer, ties to the even one.
    The sampler never calls it; it is what the specification text names. *)
Definition py_round (x : Q) : Z := Binary64.round_half_even x.

Section WithFrames.

(** A decoded pixel buffer, and [cv2.cvtColor(_, cv2.COLOR_BGR2RGB)]. *)
Variable frame : Type.
Variable cvtColor : frame -> frame.

Record SampledFrame : Type := mkSampledFrame {
  frame_data : frame;
  timestamp : Q;
  frame_number : Z
}.

(** What [cv2.VideoCapture(video_path)] gives: [isOpened()],
    [CAP_PROP_FPS], [CAP_PROP_FRAME_COUNT], and the frames successive
    [read()] calls return before the first one that fails. *)
Record VideoCapture : Type := mkCapture {
  isOpened : bool;
  CAP_PROP_FPS : Q;
  CAP_PROP_FRAME_COUNT : Q;
  reads : list frame
}.

(** The sampler object ([self.method], [self.fps], ...). *)
Record FrameSampler : Type := mkSampler {
  method : string;
  fps : Q;
  scene_threshold : Q;
  min_scene_length : Z
}.

(** [max_frames and len(frames) >= max_frames] *)
Definition reached (max_frames : option Z) (frames : list SampledFrame) : bool :=
  match max_frames with
  | None => false
  | Some m => negb (m =? 0)%Z && (m <=? Z.of_nat (length frames))%Z
  end.

(** The [while True] loop of [_sample_fixed_interval]: one iteration per
    successful [cap.read()], ending at the first failed read or at the
    [break] on [max_frames]. *)
Fixpoint sample_loop (video_fps : Q) (frame_interval : Z) (max_frames : option Z)
    (stream : list frame) (frames : list SampledFrame) (frame_number : Z)
    : result (list SampledFrame) :=
  match stream with
  | [] => Ok frames
  | fr :: rest =>
      r ← int_mod frame_number frame_interval;
      if (r =? 0)%Z then
        ts ← float_div (inject_Z frame_number) video_fps;
        let frames' :=
          frames ++ [{| frame_data := cvtColor fr; timestamp := ts;
                        frame_number := frame_number |}] in
        if reached max_frames frames' then Ok frames'
        else sample_loop video_fps frame_interval max_frames rest frames'
                         (frame_number + 1)
      else
        sample_loop video_fps frame_interval max_frames rest frames
                    (frame_number + 1)
  end.

(** [frame_interval = int(video_fps / self.fps)].  The quotient is the one
    the machine computes: the two rates are the doubles nearest to the
    rationals they are written as, and their quotient is rounded to a double
    before [int] truncates it.  The rounding is kept here because the
    truncation can turn it into another interval: [0.3 / 0.1] is
    [2.9999999999999996] and gives the interval 2, where the exact quotient
    of 3/10 and 1/10 is 3. *)
Definition frame_interval_of (self : FrameSampler) (video_fps : Q) : result Z :=
  q ← Binary64.truediv (Binary64.of_Q video_fps) (Binary64.of_Q (fps self));
  Binary64.int_of q.

(** [_sample_fixed_interval] *)
Definition _sample_fixed_interval (self : FrameSampler) (video_path : string)
    (cap : VideoCapture) (max_frames : option Z) : result (list SampledFrame) :=
  if negb (isOpened cap) then Raise (CouldNotOpenVideo video_path)
  else
    let video_fps := CAP_PROP_FPS cap in
    frame_interval ← frame_interval_of self video_fps;
    sample_loop video_fps frame_interval max_frames (reads cap) [] 0.

(** ** What the fixed-interval sampler returns *)

(** The frames of a stream with their indices, counted from [k]. *)
Definition indexed_from (k : nat) (stream : list frame) : list (nat * frame) :=
  imap (fun i fr => (k + i, fr)) stream.

(** The frames whose index is a multiple of the interval, in stream order. *)
Definition at_multiples (frame_interval : Z) (l : list (nat * frame))
    : list (nat * frame) :=
  filter (fun p => (Z.of_nat p.1 mod frame_interval = 0)%Z) l.

Definition sampled (video_fps : Q) (p : nat * frame) : SampledFrame :=
  {| frame_data := cvtColor p.2;
     timestamp := (inject_Z (Z.of_nat p.1) / video_fps)%Q;
     frame_number := Z.of_nat p.1 |}.

(** Stopping at [max_frames]: the first [m] frames, all of them for [None]. *)
Definition up_to {A} (max_frames : option Z) (l : list A) : list A :=
  match max_frames with
  | None => l
  | Some m => take (Z.to_nat m) l
  end.

(** ** Properties *)

Lemma indexed_from_cons k fr rest :
  indexed_from k (fr :: rest) = (k, fr) :: indexed_from (S k) rest.
Proof.
  unfold indexed_from. simpl. f_equal; [f_equal; lia|].
  apply imap_ext. intros i x _. simpl. f_equal. lia.
Qed.

Lemma up_to_short (max_frames : option Z) (l : list SampledFrame) :
  (forall m, max_frames = Some m -> (Z.of_nat (length l) <= m)%Z) ->
  up_to max_frames l = l.
Proof.
  destruct max_frames as [m|]; simpl; [|done].
  intros H. apply take_ge. specialize (H m eq_refl). lia.
Qed.

Lemma up_to_full (max_frames : option Z) (l l' : list SampledFrame) :
  reached max_frames l = true ->
  (forall m, max_frames = Some m -> (Z.of_nat (length l) <= m)%Z) ->
  up_to max_frames (l ++ l') = l.
Proof.
  destruct max_frames as [m|]; simpl; [|done].
  intros Hr H. specialize (H m eq_refl).
  apply andb_true_iff in Hr as [_ Hr]. apply Z.leb_le in Hr.
  rewrite take_app_le by lia. apply take_ge. lia.
Qed.

(** A positive interval means the decoder reported a non-zero rate. *)
Lemma positive_interval_fps_nonzero (self : FrameSampler) (video_fps : Q) (k : Z) :
  frame_interval_of self video_fps = Ok k -> (0 < k)%Z -> Qeq_bool video_fps 0 = false.
Proof.
  intros Hk Hpos. destruct (Qeq_bool video_fps 0) eqn:E; [|done].
  apply Qeq_bool_iff in E. exfalso. unfold frame_interval_of in Hk.
  destruct (Binary64.truediv _ _) as [x|e] eqn:Hdiv; [|done]. simpl in Hk.
  pose proof (Binary64.quotient_of_zero _ _ _ _ E Hdiv Hk). lia.
Qed.

(** [int] of a double that gives a positive integer gives the integer part:
    the double lies between it and the next integer. *)
Lemma positive_interval_is_integer_part (q : Q) (k : Z) :
  Binary64.int_of (Binary64.Finite q) = Ok k -> (0 < k)%Z ->
  (inject_Z k <= q)%Q /\ (q < inject_Z k + 1)%Q.
Proof.
  simpl. intros [= <-] Hpos. destruct q as [n d]. simpl in *.
  assert (Hn : (0 <= n)%Z).
  { destruct (Z_lt_le_dec n 0) as [Hneg|]; [|done].
    pose proof (Z.quot_opp_l n (Zpos d) ltac:(lia)) as Hopp.
    pose proof (Z.quot_pos (- n) (Zpos d) ltac:(lia) ltac:(lia)). lia. }
  rewrite Z.quot_div_nonneg in * by lia.
  pose proof (Z.div_mod n (Zpos d) ltac:(lia)) as Hdm.
  pose proof (Z.mod_pos_bound n (Zpos d) ltac:(lia)) as Hr.
  unfold Qle, Qlt. simpl. split; nia.
Qed.

(** The loop, started at frame [k] with [frames] collected so far, returns
    them followed by the later frames at multiples of the interval, cut at
    [max_frames]. *)
Lemma sample_loop_spec video_fps frame_interval max_frames stream frames k :
  (0 < frame_interval)%Z ->
  Qeq_bool video_fps 0 = false ->
  (forall m, max_frames = Some m ->
             (0 < m)%Z /\ (Z.of_nat (length frames) < m)%Z) ->
  sample_loop video_fps frame_interval max_frames stream frames (Z.of_nat k)
  = Ok (up_to max_frames
          (frames ++ map (sampled video_fps)
                         (at_multiples frame_interval (indexed_from k stream)))).
Proof.
  intros Hiv Hfps. revert frames k.
  induction stream as [|fr rest IH]; intros frames k Hmax.
  - simpl. rewrite app_nil_r. rewrite up_to_short; [done|].
    intros m Hm. destruct (Hmax m Hm). lia.
  - rewrite indexed_from_cons. unfold at_multiples. rewrite filter_cons.
    fold (at_multiples frame_interval (indexed_from (S k) rest)).
    simpl. unfold int_mod.
    rewrite (proj2 (Z.eqb_neq frame_interval 0)) by lia.
    step_ok.
    replace (Z.of_nat k + 1)%Z with (Z.of_nat (S k)) by lia.
    destruct (Z.of_nat k mod frame_interval =? 0)%Z eqn:Hmod.
    + apply Z.eqb_eq in Hmod. rewrite decide_True by done.
      unfold float_div. rewrite Hfps.
      step_ok.
      change {| frame_data := cvtColor fr;
                timestamp := (inject_Z (Z.of_nat k) / video_fps)%Q;
                frame_number := Z.of_nat k |}
        with (sampled video_fps (k, fr)).
      simpl map.
      assert (Hsnoc : forall (x : SampledFrame) l,
                 frames ++ x :: l = (frames ++ [x]) ++ l)
        by (intros; by rewrite <- app_assoc).
      rewrite (Hsnoc _ (map _ _)). clear Hsnoc.
      destruct (reached max_frames (frames ++ [sampled video_fps (k, fr)])) eqn:Hr.
      * rewrite up_to_full; [done|done|].
        intros m Hm. destruct (Hmax m Hm). rewrite length_app. simpl. lia.
      * apply IH. intros m Hm. destruct (Hmax m Hm) as [Hm0 Hlt].
        split; [done|]. subst max_frames. simpl in Hr.
        rewrite (proj2 (Z.eqb_neq m 0)) in Hr by lia. simpl in Hr.
        apply Z.leb_gt in Hr. done.
    + apply Z.eqb_neq in Hmod. rewrite decide_False by done.
      by apply IH.
Qed.

Lemma up_to_map {A B} (f : A -> B) max_frames (l : list A) :
  up_to max_frames (map f l) = map f (up_to max_frames l).
Proof. destruct max_frames; simpl; [|done]. by rewrite <- fmap_take. Qed.

(** The selected indices are at least the starting index and increase. *)
Lemma at_multiples_sorted frame_interval k stream :
  Forall (fun p => k <= p.1) (at_multiples frame_interval (indexed_from k stream))
  /\ StronglySorted (fun p q => p.1 < q.1)
       (at_multiples frame_interval (indexed_from k stream)).
Proof.
  revert k. induction stream as [|fr rest IH]; intros k.
  - split; constructor.
  - rewrite indexed_from_cons. unfold at_multiples. rewrite filter_cons.
    fold (at_multiples frame_interval (indexed_from (S k) rest)).
    destruct (IH (S k)) as [Hge Hsorted].
    assert (Hge' : Forall (fun p : nat * frame => k < p.1)
                     (at_multiples frame_interval (indexed_from (S k) rest))).
    { eapply Forall_impl; [exact Hge|]. simpl. intros; lia. }
    case_decide.
    + split.
      * constructor; [simpl; lia|].
        eapply Forall_impl; [exact Hge'|]. simpl. intros; lia.
      * constructor; [done|]. exact Hge'.
    + split; [|done].
      eapply Forall_impl; [exact Hge'|]. simpl. intros; lia.
Qed.

(** Rates that are doubles, as the decoder's and the sampler's are, compare
    as the rationals they hold. *)
Lemma doubles_compare_exactly (video_fps target_fps : Q) :
  Binary64.of_Q video_fps = Binary64.Finite video_fps ->
  Binary64.of_Q target_fps = Binary64.Finite target_fps ->
  (0 <= video_fps)%Q -> (video_fps < target_fps)%Q ->
  Binary64.leb (Binary64.Finite 0) (Binary64.of_Q video_fps) = true
  /\ Binary64.ltb (Binary64.of_Q video_fps) (Binary64.of_Q target_fps) = true.
Proof.
  intros -> -> Hnn Hlt. simpl. split.
  - by apply Qle_bool_iff.
  - apply negb_true_iff. destruct (Qle_bool target_fps video_fps) eqn:Hle; [|done].
    apply Qle_bool_iff in Hle. by apply Qlt_not_le in Hlt.
Qed.

(** A rate below the target, or none at all, gives the interval 0. *)
Lemma frame_interval_zero (self : FrameSampler) (video_fps : Q) :
  Binary64.leb (Binary64.Finite 0) (Binary64.of_Q video_fps) = true ->
  Binary64.ltb (Binary64.of_Q video_fps) (Binary64.of_Q (fps self)) = true ->
  frame_interval_of self video_fps = Ok 0%Z.
Proof.
  intros Hnn Hlt. unfold frame_interval_of.
  destruct (Binary64.truncated_quotient_zero _ _ Hnn Hlt) as [-> Hint].
  step_ok. exact Hint.
Qed.

(** C5 (as the code has it).  With [frame_interval = int(video_fps / fps)],
    the quotient of the two doubles cut to its integer part, positive, and
    [max_frames] either absent or positive, the fixed-interval sampler
    returns exactly the frames whose index is a multiple of
    [frame_interval], in ascending index order, cut after [max_frames] of
    them; every returned frame has a frame number that is a multiple of the
    interval and the timestamp [frame_number / video_fps]. *)
Theorem fixed_interval_sampling (self : FrameSampler) (video_path : string)
    (cap : VideoCapture) (max_frames : option Z) (frame_interval : Z) :
  isOpened cap = true ->
  frame_interval_of self (CAP_PROP_FPS cap) = Ok frame_interval ->
  (0 < frame_interval)%Z ->
  (forall m, max_frames = Some m -> (0 < m)%Z) ->
  let video_fps := CAP_PROP_FPS cap in
  let chosen := up_to max_frames (at_multiples frame_interval (indexed_from 0 (reads cap))) in
  (exists quotient,
     Binary64.truediv (Binary64.of_Q video_fps) (Binary64.of_Q (fps self))
     = Ok (Binary64.Finite quotient)
     /\ (inject_Z frame_interval <= quotient)%Q
     /\ (quotient < inject_Z frame_interval + 1)%Q)
  /\ _sample_fixed_interval self video_path cap max_frames
     = Ok (map (sampled video_fps) chosen)
  /\ StronglySorted Z.lt (map (fun p => Z.of_nat p.1) chosen)
  /\ Forall (fun sf => (frame_number sf mod frame_interval = 0)%Z
                       /\ timestamp sf = (inject_Z (frame_number sf) / video_fps)%Q)
       (map (sampled video_fps) chosen).
Proof.
  intros Hopen Hinterval Hiv Hmax video_fps chosen.
  split; [|split; [|split]].
  - unfold frame_interval_of in Hinterval. fold video_fps in Hinterval.
    destruct (Binary64.truediv _ _) as [[quotient| |]|e]; try done.
    exists quotient. split; [done|].
    by apply positive_interval_is_integer_part.
  - unfold _sample_fixed_interval. rewrite Hopen, Hinterval. simpl negb. cbv iota.
    fold video_fps. step_ok.
    pose proof (sample_loop_spec video_fps frame_interval max_frames (reads cap) [] 0)
      as Hloop.
    subst chosen. rewrite <- up_to_map. apply Hloop.
    + done.
    + by apply (positive_interval_fps_nonzero self video_fps frame_interval).
    + intros m Hm. specialize (Hmax m Hm). simpl. lia.
  - destruct (at_multiples_sorted frame_interval 0 (reads cap)) as [_ Hs].
    assert (Hs' : StronglySorted (fun p q : nat * frame => p.1 < q.1) chosen).
    { subst chosen. destruct max_frames as [m|]; simpl; [|done].
      rewrite <- (take_drop (Z.to_nat m)) in Hs.
      by apply StronglySorted_app_1_l in Hs. }
    clear -Hs'. induction Hs' as [|p l Hl IH Hall]; simpl; constructor; [done|].
    apply Forall_fmap. eapply Forall_impl; [exact Hall|]. simpl. intros; lia.
  - apply Forall_fmap. apply Forall_forall. intros [i fr] Hin. simpl.
    split; [|done].
    assert (Hin' : (i, fr) ∈ at_multiples frame_interval (indexed_from 0 (reads cap))).
    { subst chosen. destruct max_frames as [m|]; simpl in Hin; [|done].
      apply elem_of_take in Hin as (j & Hj & _).
      apply list_elem_of_lookup. by exists j. }
    unfold at_multiples in Hin'. apply list_elem_of_filter in Hin' as [Hm _]. done.
Qed.

(** C9.  When the decoder reports a frame rate below the sampler's target
    rate (0 included), the frame interval is 0, and as soon as one frame is
    read, [frame_number % frame_interval] raises [ZeroDivisionError]: the
    sampler raises instead of returning frames.  The two rates are compared
    as the program holds them, as doubles. *)
Theorem fixed_interval_division_by_zero (self : FrameSampler) (video_path : string)
    (cap : VideoCapture) (max_frames : option Z) :
  isOpened cap = true ->
  Binary64.leb (Binary64.Finite 0) (Binary64.of_Q (CAP_PROP_FPS cap)) = true ->
  Binary64.ltb (Binary64.of_Q (CAP_PROP_FPS cap)) (Binary64.of_Q (fps self)) = true ->
  frame_interval_of self (CAP_PROP_FPS cap) = Ok 0%Z
  /\ (reads cap <> [] ->
      _sample_fixed_interval self video_path cap max_frames = Raise ZeroDivisionError).
Proof.
  intros Hopen Hnn Hlt.
  pose proof (frame_interval_zero self _ Hnn Hlt) as Hzero.
  split; [done|]. intros Hreads.
  unfold _sample_fixed_interval. rewrite Hopen, Hzero. simpl.
  destruct (reads cap); [done|]. reflexivity.
Qed.

End WithFrames.

Arguments frame_data {frame} _.
Arguments timestamp {frame} _.
Arguments frame_number {frame} _.
Arguments mkSampledFrame {frame} _ _ _.
Arguments mkCapture {frame} _ _ _ _.
Arguments isOpened {frame} _.
Arguments CAP_PROP_FPS {frame} _.
Arguments reads {frame} _.
Arguments _sample_fixed_interval {frame} _ _ _ _ _.
Arguments sample_loop {frame} _ _ _ _ _ _ _.
Arguments indexed_from {frame} _ _.
Arguments at_multiples {frame} _ _.
Arguments sampled {frame} _ _ _.
Arguments reached {frame} _ _.

(** ** [sample_video] and the scene-detection strategy *)

Section WithVideoFiles.

Variable frame : Type.
Variable cvtColor : frame -> frame.

(** The module flag [SCENEDETECT_AVAILABLE]; [Path.exists]; what
    [cv2.VideoCapture(video_path)] opens; [cap.set(CAP_PROP_POS_FRAMES, n)]
    followed by [cap.read()], [None] when the read fails; and the
    PySceneDetect run of [_detect_scenes], which may raise. *)
Variable SCENEDETECT_AVAILABLE : bool.
Variable path_exists : string -> bool.
Variable open_capture : string -> VideoCapture frame.
Variable seek_read : VideoCapture frame -> Z -> option frame.
Variable detect : FrameSampler -> string -> result (list (Z * Z)).

(** [FrameSampler.__init__] *)
Definition new_sampler (method_ : string) (fps_ scene_threshold_ : Q)
    (min_scene_length_ : Z) : FrameSampler :=
  {| method :=
       if String.eqb method_ "scene_detect" && negb SCENEDETECT_AVAILABLE
       then "fixed_interval" else method_;
     fps := fps_;
     scene_threshold := scene_threshold_;
     min_scene_length := min_scene_length_ |}.

(** [_detect_scenes]: no scene without PySceneDetect, and none when the
    detection raises. *)
Definition _detect_scenes (self : FrameSampler) (video_path : string) : list (Z * Z) :=
  if negb SCENEDETECT_AVAILABLE then []
  else
    match detect self video_path with
    | Ok scenes => scenes
    | Raise _ => []
    end.

(** The loop of [_sample_scene_detect] over the scene list. *)
Fixpoint scene_loop (video_fps : Q) (cap : VideoCapture frame) (max_frames : option Z)
    (scene_list : list (Z * Z)) (frames : list (SampledFrame frame))
    : result (list (SampledFrame frame)) :=
  match scene_list with
  | [] => Ok frames
  | (start_frame, _) :: rest =>
      if reached max_frames frames then Ok frames
      else
        match seek_read cap start_frame with
        | Some fr =>
            ts ← float_div (inject_Z start_frame) video_fps;
            scene_loop video_fps cap max_frames rest
              (frames ++ [{| frame_data := cvtColor fr; timestamp := ts;
                             frame_number := start_frame |}])
        | None => scene_loop video_fps cap max_frames rest frames
        end
  end.

(** [_sample_scene_detect] *)
Definition _sample_scene_detect (self : FrameSampler) (video_path : string)
    (max_frames : option Z) : result (list (SampledFrame frame)) :=
  match _detect_scenes self video_path with
  | [] =>
      _sample_fixed_interval cvtColor self video_path (open_capture video_path)
                             max_frames
  | (_ :: _) as scene_list =>
      let cap := open_capture video_path in
      scene_loop (CAP_PROP_FPS cap) cap max_frames scene_list []
  end.

(** [sample_video] *)
Definition sample_video (self : FrameSampler) (video_path : string)
    (max_frames : option Z) : result (list (SampledFrame frame)) :=
  if negb (path_exists video_path) then Raise (VideoNotFound video_path)
  else if String.eqb (method self) "scene_detect"
  then _sample_scene_detect self video_path max_frames
  else _sample_fixed_interval cvtColor self video_path (open_capture video_path)
                              max_frames.

(** The frame [_sample_scene_detect] keeps for a scene, if its first frame
    can be read. *)
Definition scene_frame (video_fps : Q) (cap : VideoCapture frame) (scene : Z * Z)
    : option (SampledFrame frame) :=
  (fun fr => {| frame_data := cvtColor fr;
                timestamp := (inject_Z scene.1 / video_fps)%Q;
                frame_number := scene.1 |}) <$> seek_read cap scene.1.

(** *** Properties *)

(** X7.  Without PySceneDetect, when its run raises, when it finds no scene, or
    when the sampler is not set to scene detection, [sample_video] is the
    fixed-interval sampler on an existing path; on a missing path it raises
    [FileNotFoundError] before any strategy is tried. *)
Theorem sample_video_falls_back_to_fixed_interval (self : FrameSampler)
    (video_path : string) (max_frames : option Z) :
  (SCENEDETECT_AVAILABLE = false -> _detect_scenes self video_path = [])
  /\ (is_ok (detect self video_path) = false -> _detect_scenes self video_path = [])
  /\ (path_exists video_path = false ->
      sample_video self video_path max_frames = Raise (VideoNotFound video_path))
  /\ (path_exists video_path = true ->
      method self <> "scene_detect" \/ _detect_scenes self video_path = [] ->
      sample_video self video_path max_frames
      = _sample_fixed_interval cvtColor self video_path (open_capture video_path)
                               max_frames).
Proof.
  unfold sample_video, _sample_scene_detect, _detect_scenes.
  split; [by intros ->|]. split.
  { intros Hd. destruct SCENEDETECT_AVAILABLE; [|done].
    by destruct (detect self video_path). }
  split; [by intros ->|].
  intros -> [Hm|Hs]; simpl.
  - by rewrite (proj2 (String.eqb_neq _ _) Hm).
  - rewrite Hs. by destruct (String.eqb _ _).
Qed.

(** A sampler asked for scene detection while PySceneDetect is missing is
    built as a fixed-interval sampler. *)
Lemma new_sampler_downgrades method_ fps_ thr msl :
  SCENEDETECT_AVAILABLE = false ->
  method (new_sampler method_ fps_ thr msl) <> "scene_detect".
Proof.
  intros Hna. unfold new_sampler. simpl. rewrite Hna. simpl. rewrite andb_true_r.
  destruct (String.eqb method_ "scene_detect") eqn:E; [done|].
  by apply String.eqb_neq.
Qed.

Lemma scene_loop_spec video_fps cap max_frames scene_list frames :
  Qeq_bool video_fps 0 = false ->
  (forall m, max_frames = Some m ->
             (0 < m)%Z /\ (Z.of_nat (length frames) <= m)%Z) ->
  scene_loop video_fps cap max_frames scene_list frames
  = Ok (up_to max_frames (frames ++ omap (scene_frame video_fps cap) scene_list)).
Proof.
  intros Hfps. revert frames.
  induction scene_list as [|[start_frame end_frame] rest IH]; intros frames Hmax.
  - simpl. rewrite app_nil_r. rewrite up_to_short; [done|].
    intros m Hm. by destruct (Hmax m Hm).
  - simpl. destruct (reached max_frames frames) eqn:Hr.
    + rewrite up_to_full; [done|done|]. intros m Hm. by destruct (Hmax m Hm).
    + assert (Hlt : forall m, max_frames = Some m ->
                      (0 < m)%Z /\ (Z.of_nat (length frames) < m)%Z).
      { intros m Hm. destruct (Hmax m Hm) as [Hm0 _]. split; [done|].
        subst max_frames. simpl in Hr.
        rewrite (proj2 (Z.eqb_neq m 0)) in Hr by lia. simpl in Hr.
        by apply Z.leb_gt in Hr. }
      unfold scene_frame at 1. simpl.
      destruct (seek_read cap start_frame) as [fr|]; simpl.
      * unfold float_div. rewrite Hfps. step_ok.
        rewrite IH.
        -- by rewrite <- app_assoc.
        -- intros m Hm. destruct (Hlt m Hm). rewrite length_app. simpl. lia.
      * apply IH. intros m Hm. destruct (Hlt m Hm). lia.
Qed.

(** X8.  With scenes detected, a non-zero frame rate and [max_frames] absent or
    positive, the scene-detection sampler returns one frame per scene whose
    first frame can be read, numbered by the scene's start and stamped
    [start / video_fps], in scene order, and stops after [max_frames] of
    them. *)
Theorem scene_detect_sampling (self : FrameSampler) (video_path : string)
    (max_frames : option Z) :
  _detect_scenes self video_path <> [] ->
  Qeq_bool (CAP_PROP_FPS (open_capture video_path)) 0 = false ->
  (forall m, max_frames = Some m -> (0 < m)%Z) ->
  let cap := open_capture video_path in
  let kept := up_to max_frames
                (omap (scene_frame (CAP_PROP_FPS cap) cap)
                      (_detect_scenes self video_path)) in
  _sample_scene_detect self video_path max_frames = Ok kept
  /\ map frame_number kept `sublist_of` map fst (_detect_scenes self video_path)
  /\ (forall m, max_frames = Some m -> (Z.of_nat (length kept) <= m)%Z).
Proof.
  intros Hscenes Hfps Hmax cap kept. split; [|split].
  - unfold _sample_scene_detect.
    destruct (_detect_scenes self video_path) as [|s scenes] eqn:Hs; [done|].
    fold cap. rewrite scene_loop_spec; [done|done|].
    intros m Hm. specialize (Hmax m Hm). simpl. lia.
  - subst kept. set (scenes := _detect_scenes self video_path).
    set (fps_ := CAP_PROP_FPS cap). clearbody scenes.
    transitivity (map frame_number (omap (scene_frame fps_ cap) scenes)).
    { apply (fmap_sublist frame_number). destruct max_frames as [m|]; simpl; [|done].
      apply sublist_take. }
    clear. induction scenes as [|[st en] scenes IH]; simpl; [constructor|].
    unfold scene_frame at 1. simpl.
    destruct (seek_read cap st); simpl; [by apply sublist_skip|by apply sublist_cons].
  - intros m Hm. subst kept. rewrite Hm. simpl. rewrite length_take.
    specialize (Hmax m Hm). lia.
Qed.

(** *** [max_frames] at its edges, and how many frames come back *)

Lemma sample_loop_zero_limit video_fps frame_interval stream frames frame_number_ :
  sample_loop cvtColor video_fps frame_interval (Some 0%Z) stream frames frame_number_
  = sample_loop cvtColor video_fps frame_interval None stream frames frame_number_.
Proof.
  revert frames frame_number_.
  induction stream as [|fr rest IH]; intros frames k; simpl; [done|].
  destruct (int_mod k frame_interval) as [r|e]; simpl; [|done].
  destruct (r =? 0)%Z; [|apply IH].
  destruct (float_div (inject_Z k) video_fps) as [ts|e]; simpl; [|done].
  apply IH.
Qed.

Lemma scene_loop_zero_limit video_fps cap scene_list frames :
  scene_loop video_fps cap (Some 0%Z) scene_list frames
  = scene_loop video_fps cap None scene_list frames.
Proof.
  revert frames.
  induction scene_list as [|[st en] rest IH]; intros frames; simpl; [done|].
  destruct (seek_read cap st); [|apply IH].
  destruct (float_div (inject_Z st) video_fps) as [ts|e]; simpl; [|done].
  apply IH.
Qed.

(** X9.  [max_frames = 0] is read as "no limit", not as "no frame": with either
    strategy [sample_video] returns what it returns for [max_frames = None]. *)
Theorem max_frames_zero_is_no_limit (self : FrameSampler) (video_path : string) :
  sample_video self video_path (Some 0%Z) = sample_video self video_path None.
Proof.
  unfold sample_video, _sample_scene_detect, _sample_fixed_interval.
  destruct (path_exists video_path); cbn [negb]; [|done].
  assert (Hfixed :
    (if negb (isOpened (open_capture video_path))
     then Raise (CouldNotOpenVideo video_path)
     else frame_interval_of self (CAP_PROP_FPS (open_capture video_path)) ≫=
          (fun frame_interval =>
             sample_loop cvtColor (CAP_PROP_FPS (open_capture video_path))
                         frame_interval (Some 0%Z) (reads (open_capture video_path)) [] 0))
    = (if negb (isOpened (open_capture video_path))
       then Raise (CouldNotOpenVideo video_path)
       else frame_interval_of self (CAP_PROP_FPS (open_capture video_path)) ≫=
            (fun frame_interval =>
               sample_loop cvtColor (CAP_PROP_FPS (open_capture video_path))
                           frame_interval None (reads (open_capture video_path)) [] 0))).
  { destruct (negb _); [done|].
    destruct (frame_interval_of _ _) as [iv|e]; simpl; [|done].
    apply sample_loop_zero_limit. }
  destruct (String.eqb _ _); [|exact Hfixed].
  destruct (_detect_scenes self video_path); [exact Hfixed|].
  apply scene_loop_zero_limit.
Qed.

(** Rounding a quotient up, one element more. *)
Lemma ceil_div_succ (n s : Z) :
  (0 <= n)%Z -> (0 < s)%Z ->
  ((n + 1 + s - 1) / s = (n + s - 1) / s + (if (n mod s =? 0)%Z then 1 else 0))%Z.
Proof.
  intros Hn Hs.
  pose proof (Z.div_mod n s ltac:(lia)) as Hdm.
  pose proof (Z.mod_pos_bound n s Hs) as Hr.
  destruct (n mod s =? 0)%Z eqn:E.
  - apply Z.eqb_eq in E.
    replace ((n + s - 1) / s)%Z with (n / s)%Z
      by (apply Z.div_unique with (r := (s - 1)%Z); lia).
    symmetry. apply Z.div_unique with (r := 0%Z); lia.
  - apply Z.eqb_neq in E.
    replace ((n + s - 1) / s)%Z with (n / s + 1)%Z
      by (apply Z.div_unique with (r := (n mod s - 1)%Z); lia).
    symmetry. apply Z.div_unique with (r := (n mod s)%Z); lia.
Qed.

(** Among the first [n] indices, [ceil(n / s)] are multiples of [s]. *)
Lemma at_multiples_count (frame_interval : Z) (stream : list frame) :
  (0 < frame_interval)%Z ->
  Z.of_nat (length (at_multiples frame_interval (indexed_from 0 stream)))
  = ((Z.of_nat (length stream) + frame_interval - 1) / frame_interval)%Z.
Proof.
  intros Hiv. induction stream as [|fr stream IH] using rev_ind.
  - simpl. symmetry. apply Z.div_small. lia.
  - unfold indexed_from, at_multiples in *. rewrite imap_app, filter_app, !length_app.
    simpl in IH |- *. rewrite Nat2Z.inj_add, IH, Nat.add_0_r.
    replace (Z.of_nat (length stream + 1) + frame_interval - 1)%Z
      with (Z.of_nat (length stream) + 1 + frame_interval - 1)%Z by lia.
    rewrite ceil_div_succ by lia. f_equal.
    rewrite filter_cons, filter_nil. simpl fst.
    case_decide as Hm.
    + by rewrite (proj2 (Z.eqb_eq _ _) Hm).
    + by rewrite (proj2 (Z.eqb_neq _ _) Hm).
Qed.

(** X10.  How many frames the fixed-interval sampler returns: with a positive
    interval, one for every started run of [frame_interval] decoded frames,
    that is [ceil(n / frame_interval)] for [n] decoded frames, and no more
    than a positive [max_frames]. *)
Theorem fixed_interval_frame_count (self : FrameSampler) (video_path : string)
    (cap : VideoCapture frame) (max_frames : option Z) (frame_interval : Z) :
  isOpened cap = true ->
  frame_interval_of self (CAP_PROP_FPS cap) = Ok frame_interval ->
  (0 < frame_interval)%Z ->
  (forall m, max_frames = Some m -> (0 < m)%Z) ->
  let available :=
    ((Z.of_nat (length (reads cap)) + frame_interval - 1) / frame_interval)%Z in
  exists frames,
    _sample_fixed_interval cvtColor self video_path cap max_frames = Ok frames
    /\ Z.of_nat (length frames)
       = match max_frames with
         | None => available
         | Some m => Z.min m available
         end.
Proof.
  intros Hopen Hinterval Hiv Hmax available.
  assert (Hvfps : Qeq_bool (CAP_PROP_FPS cap) 0 = false)
    by apply (positive_interval_fps_nonzero _ _ _ Hinterval Hiv).
  eexists. split.
  - unfold _sample_fixed_interval.
    rewrite Hopen, Hinterval. simpl negb. cbv iota. step_ok.
    apply (sample_loop_spec frame cvtColor _ _ max_frames (reads cap) [] 0 Hiv Hvfps).
    intros m Hm. specialize (Hmax m Hm). simpl. lia.
  - simpl app.
    pose proof (at_multiples_count frame_interval (reads cap) Hiv) as Hcount.
    fold available in Hcount.
    destruct max_frames as [m|]; simpl.
    + rewrite length_take, length_map. specialize (Hmax m eq_refl). lia.
    + by rewrite length_map.
Qed.

End WithVideoFiles.

End FrameSampler.

(* ===================================================================== *)
(** * NumPy arrays, as far as the code uses them *)
(* ===================================================================== *)

Module Np.

Section WithScalar.

Variable T : Type.

(** A 1-D array of shape [(d,)] or a 2-D array of shape [(n, d)]; the
    width [d] of a 2-D array is kept apart from its rows, since an array
    with no row still has one. *)
Inductive ndarray : Type :=
| Arr1 (v : list T)
| Arr2 (ncols : nat) (rows : list (list T)).

(** [len(a)], that is [a.shape[0]]. *)
Definition len (a : ndarray) : nat :=
  match a with
  | Arr1 v => length v
  | Arr2 _ rows => length rows
  end.

(** [a.shape[1] if len(a.shape) == 2 else a.shape[0]] *)
Definition width (a : ndarray) : nat :=
  match a with
  | Arr1 v => length v
  | Arr2 ncols _ => ncols
  end.

(** [a.reshape(1, -1)] for [a.ndim == 1], else [a] itself. *)
Definition as_2d (a : ndarray) : ndarray :=
  match a with
  | Arr1 v => Arr2 (length v) [v]
  | Arr2 _ _ => a
  end.

(** The rows [np.vstack] stacks for one argument. *)
Definition rows_of (a : ndarray) : list (list T) :=
  match a with
  | Arr1 v => [v]
  | Arr2 _ rows => rows
  end.

(** [np.vstack(arrays)]: no array raises, arrays of different widths raise,
    otherwise the rows follow each other in order. *)
Definition vstack (arrays : list ndarray) : result ndarray :=
  match arrays with
  | [] => Raise VstackEmpty
  | a :: rest =>
      if forallb (fun b => width b =? width a) rest
      then Ok (Arr2 (width a) (concat (map rows_of arrays)))
      else Raise VstackShape
  end.

(** [a[i]]: row [i] of a 2-D array as a 1-D array, entry [i] of a 1-D
    array (a scalar, which [np.vstack] takes for a row of one entry);
    [IndexError] out of range. *)
Definition row (a : ndarray) (i : nat) : result ndarray :=
  match a with
  | Arr2 _ rows =>
      match rows !! i with
      | Some r => Ok (Arr1 r)
      | None => Raise (External "IndexError")
      end
  | Arr1 v =>
      match v !! i with
      | Some x => Ok (Arr1 [x])
      | None => Raise (External "IndexError")
      end
  end.

End WithScalar.

Arguments Arr1 {T} v.
Arguments Arr2 {T} ncols rows.
Arguments len {T} a.
Arguments width {T} a.
Arguments as_2d {T} a.
Arguments rows_of {T} a.
Arguments vstack {T} arrays.
Arguments row {T} a i.

End Np.

(* ===================================================================== *)
(** * src/database.py *)
(* ===================================================================== *)

Module Database.

Import Np.

(** A metadata value, and a metadata dictionary. *)
Inductive mval : Type :=
| MStr (s : string)
| MInt (z : Z)
| MFloat (q : Q).

Definition metadata : Type := list (string * mval).

(** [d.get(key, default)] *)
Fixpoint dict_get (d : metadata) (key : string) (default : mval) : mval :=
  match d with
  | [] => default
  | (k, v) :: d' => if String.eqb k key then v else dict_get d' key default
  end.

Record SearchResult : Type := mkSearchResult {
  file_id : string;
  file_path : mval;
  similarity_score : Q;
  result_metadata : metadata
}.

(** One neighbour of a ChromaDB query: the entries at one index of
    [results['ids'][0]], [results['metadatas'][0]] and
    [results['distances'][0]]. *)
Record hit : Type := mkHit {
  hit_id : string;
  hit_metadata : metadata;
  hit_distance : Q
}.

(** The [SearchResult] built in the loop of [search]: the distance becomes
    the similarity [1.0 - distance]. *)
Definition result_of_hit (h : hit) : SearchResult :=
  {| file_id := hit_id h;
     file_path := dict_get (hit_metadata h) "file_path" (MStr "");
     similarity_score := (1 - hit_distance h)%Q;
     result_metadata := hit_metadata h |}.

Section WithCollection.

Variable T : Type.

(** What [collection.get(ids=[file_id])] returns. *)
Record get_result : Type := mkGetResult {
  g_ids : list string;
  g_embeddings : option (list (list T));
  g_metadatas : option (list metadata)
}.

(** The ChromaDB collection, an external collaborator: its state and its
    [add], [query] and [get].  [add] may raise, and says what the
    collection is afterwards in either case.  [get] is the call
    [collection.get(ids=[file_id])] of [get_by_id], which names no
    [include]. *)
Variable collection : Type.
Variable collection_add :
  collection -> list string -> ndarray T -> list metadata -> result unit * collection.
Variable collection_query :
  collection -> ndarray T -> Z -> option metadata -> result (list hit).
Variable collection_get : collection -> string -> result get_result.

Record VectorDatabase : Type := mkDatabase {
  embedding_dim : option nat;
  coll : collection
}.

(** [len(ids) != len(embeddings) != len(metadatas)]: Python chains the
    comparison as [a != b and b != c]. *)
Definition length_guard (ids : list string) (embeddings : ndarray T)
    (metadatas : list metadata) : bool :=
  negb (length ids =? len embeddings) && negb (len embeddings =? length metadatas).

(** [add_embeddings]: the outcome of the call and the database object
    after it. *)
Definition add_embeddings (self : VectorDatabase) (ids : list string)
    (embeddings : ndarray T) (metadatas : list metadata)
    : result unit * VectorDatabase :=
  if length_guard ids embeddings metadatas then (Raise LengthMismatch, self)
  else
    let dim :=
      match embedding_dim self with
      | None => width embeddings
      | Some d => d
      end in
    let self1 := {| embedding_dim := Some dim; coll := coll self |} in
    let expected_dim := width embeddings in
    if negb (expected_dim =? dim) then
      (Raise (DimensionMismatch dim expected_dim), self1)
    else
      let '(r, c) := collection_add (coll self1) ids embeddings metadatas in
      (r, {| embedding_dim := Some dim; coll := c |}).

(** [search] *)
Definition search (self : VectorDatabase) (query_embedding : ndarray T)
    (top_k : Z) (filter_metadata : option metadata) : result (list SearchResult) :=
  let query := as_2d query_embedding in
  let where_ :=
    match filter_metadata with
    | Some ((_ :: _) as m) => Some m
    | _ => None
    end in
  hits ← collection_query (coll self) query top_k where_;
  Ok (map result_of_hit hits).

(** The dictionary [get_by_id] returns. *)
Record file_data : Type := mkFileData {
  fd_id : string;
  fd_embedding : option (list T);
  fd_metadata : metadata
}.

(** [get_by_id]: any exception is printed and gives [None]. *)
Definition get_by_id (self : VectorDatabase) (fid : string) : option file_data :=
  match collection_get (coll self) fid with
  | Raise _ => None
  | Ok res =>
      match g_ids res with
      | [] => None
      | id0 :: _ =>
          Some {| fd_id := id0;
                  fd_embedding :=
                    match g_embeddings res with
                    | Some (e :: _) => Some e
                    | _ => None
                    end;
                  fd_metadata :=
                    match g_metadatas res with
                    | Some (m :: _) => m
                    | _ => []
                    end |}
      end
  end.

(** ** Properties of [add_embeddings] *)

(** One [add_embeddings] call, and a sequence of them on the same object. *)
Definition call : Type := list string * ndarray T * list metadata.

Definition add_call (self : VectorDatabase) (c : call) : result unit * VectorDatabase :=
  add_embeddings self c.1.1 c.1.2 c.2.

Definition after_calls (self : VectorDatabase) (calls : list call) : VectorDatabase :=
  foldl (fun db c => (add_call db c).2) self calls.

(** The guard raises exactly when both neighbouring comparisons differ. *)
Lemma length_guard_true ids embeddings metadatas :
  length_guard ids embeddings metadatas = true
  <-> length ids <> len embeddings /\ len embeddings <> length metadatas.
Proof.
  unfold length_guard. rewrite andb_true_iff, !negb_true_iff, !Nat.eqb_neq. done.
Qed.

Lemma add_embeddings_keeps_dim self ids embeddings metadatas d :
  embedding_dim self = Some d ->
  embedding_dim (add_embeddings self ids embeddings metadatas).2 = Some d.
Proof.
  intros Hd. unfold add_embeddings. rewrite Hd.
  destruct (length_guard _ _ _); simpl; [done|].
  destruct (negb _); simpl; [done|].
  by destruct (collection_add _ _ _ _).
Qed.

Lemma after_calls_keeps_dim self calls d :
  embedding_dim self = Some d -> embedding_dim (after_calls self calls) = Some d.
Proof.
  revert self. induction calls as [|c calls IH]; intros self Hd; simpl; [done|].
  apply IH. unfold add_call. by apply add_embeddings_keeps_dim.
Qed.

(** A width other than the locked one is refused, nothing is written. *)
Lemma add_embeddings_mismatch self ids embeddings metadatas d :
  embedding_dim self = Some d ->
  width embeddings <> d ->
  exists e,
    add_embeddings self ids embeddings metadatas = (Raise e, self)
    /\ (length_guard ids embeddings metadatas = false ->
        e = DimensionMismatch d (width embeddings)).
Proof.
  intros Hd Hw. unfold add_embeddings. rewrite Hd.
  destruct (length_guard _ _ _); [by eexists|].
  rewrite (proj2 (Nat.eqb_neq _ _) Hw). simpl.
  eexists. split; [|done]. f_equal. destruct self. simpl in *. by subst.
Qed.

(** C2.  On a store whose dimension is unset, the first [add_embeddings]
    call (one that gets past the length check) sets the dimension to the
    width of its vectors; after any further calls the dimension is still
    that width; and every later call whose vectors have another width
    raises, with the dimension-mismatch error once past the length check,
    and leaves the store object exactly as it was: its collection is not
    written and its dimension is not changed. *)
Theorem dimension_lock (self : VectorDatabase) (ids : list string)
    (embeddings : ndarray T) (metadatas : list metadata) :
  embedding_dim self = None ->
  length_guard ids embeddings metadatas = false ->
  embedding_dim (add_embeddings self ids embeddings metadatas).2
    = Some (width embeddings)
  /\ forall (later : list call) ids' (embeddings' : ndarray T) metadatas',
       let db := after_calls (add_embeddings self ids embeddings metadatas).2 later in
       embedding_dim db = Some (width embeddings)
       /\ (width embeddings' <> width embeddings ->
           exists e,
             add_embeddings db ids' embeddings' metadatas' = (Raise e, db)
             /\ (length_guard ids' embeddings' metadatas' = false ->
                 e = DimensionMismatch (width embeddings) (width embeddings'))).
Proof.
  intros Hnone Hguard.
  assert (Hfirst : embedding_dim (add_embeddings self ids embeddings metadatas).2
                   = Some (width embeddings)).
  { unfold add_embeddings. rewrite Hguard, Hnone, Nat.eqb_refl. simpl.
    by destruct (collection_add _ _ _ _). }
  split; [done|]. intros later ids' embeddings' metadatas' db.
  assert (Hdb : embedding_dim db = Some (width embeddings))
    by (by apply after_calls_keeps_dim).
  split; [done|]. intros Hw. by apply add_embeddings_mismatch.
Qed.

(** The length check on its own lets a mismatch through when the second
    comparison of the chain is an equality: with one id, two vectors and two
    metadata dictionaries, [1 != 2 and 2 != 2] is false, and the three lists
    are handed to the collection's [add]. *)
Lemma length_guard_misses_short_ids (c : collection) (d : nat) (id : string)
    (v1 v2 : list T) (m1 m2 : metadata) :
  length_guard [id] (Arr2 d [v1; v2]) [m1; m2] = false
  /\ add_embeddings (mkDatabase (Some d) c) [id] (Arr2 d [v1; v2]) [m1; m2]
     = ((collection_add c [id] (Arr2 d [v1; v2]) [m1; m2]).1,
        mkDatabase (Some d) (collection_add c [id] (Arr2 d [v1; v2]) [m1; m2]).2).
Proof.
  split; [done|].
  unfold add_embeddings. simpl. rewrite Nat.eqb_refl. simpl.
  by destruct (collection_add _ _ _ _).
Qed.

(** What ChromaDB's [add] does with ids, embeddings and metadatas of
    different lengths: it validates them before it writes, raises a
    [ValueError] and leaves the collection as it was.  The embeddings are
    counted as ChromaDB counts [embeddings.tolist()]: one per row, and one
    for the flat list of a 1-D array. *)
Definition add_checks_lengths : Prop :=
  forall c ids (embeddings : ndarray T) metadatas,
    ~ (length ids = length (rows_of embeddings)
       /\ length (rows_of embeddings) = length metadatas) ->
    exists e, collection_add c ids embeddings metadatas = (Raise e, c).

(** C3.  With a collection that validates lengths as ChromaDB's does, every
    call of [add_embeddings] in which two of the three lengths differ raises
    and leaves the collection as it was: nothing is written.  The length
    check of [add_embeddings] raises when [len(ids) != len(embeddings)] and
    [len(embeddings) != len(metadatas)]; the mismatches it lets through,
    [len(embeddings) == len(metadatas)] with another number of ids among
    them, are refused by the dimension check or else by the collection. *)
Theorem unequal_lengths_write_nothing (self : VectorDatabase) (ids : list string)
    (embeddings : ndarray T) (metadatas : list metadata) :
  add_checks_lengths ->
  ~ (length ids = len embeddings /\ len embeddings = length metadatas) ->
  exists e,
    (add_embeddings self ids embeddings metadatas).1 = Raise e
    /\ coll (add_embeddings self ids embeddings metadatas).2 = coll self
    /\ (length_guard ids embeddings metadatas = true -> e = LengthMismatch)
    /\ (length_guard ids embeddings metadatas = false ->
        (forall d, embedding_dim self = Some d -> width embeddings = d) ->
        (collection_add (coll self) ids embeddings metadatas).1 = Raise e).
Proof.
  intros Hadd Hlen. unfold add_embeddings.
  destruct (length_guard ids embeddings metadatas) eqn:Hguard.
  { exists LengthMismatch. by repeat split. }
  set (dim := match embedding_dim self with Some d => d | None => width embeddings end).
  destruct (negb (width embeddings =? dim)) eqn:Hdim.
  { eexists. repeat split; [done|]. intros _ Hw. exfalso.
    apply negb_true_iff, Nat.eqb_neq in Hdim. apply Hdim. unfold dim.
    destruct (embedding_dim self) as [d|]; [by apply Hw|done]. }
  destruct (Hadd (coll self) ids embeddings metadatas) as [e He].
  { intros [H1 H2]. apply Hlen.
    unfold length_guard in Hguard. apply andb_false_iff in Hguard.
    rewrite !negb_false_iff, !Nat.eqb_eq in Hguard.
    destruct embeddings as [v|w rows]; simpl in *; [|done].
    destruct Hguard as [Hg|Hg]; split; congruence. }
  simpl. rewrite He. simpl. exists e. by repeat split.
Qed.

End WithCollection.

Arguments mkGetResult {T} _ _ _.
Arguments mkDatabase {collection} _ _.
Arguments embedding_dim {collection} _.
Arguments coll {collection} _.
Arguments length_guard {T} _ _ _.
Arguments add_embeddings {T collection} _ _ _ _ _.
Arguments search {T collection} _ _ _ _ _.
Arguments get_by_id {T collection} _ _ _.
Arguments mkFileData {T} _ _ _.
Arguments fd_embedding {T} _.
Arguments g_ids {T} _.
Arguments g_embeddings {T} _.
Arguments g_metadatas {T} _.

(** ** [search] results, [reset] and [get_stats] *)

(** [filter_metadata if filter_metadata else None]: an empty dictionary is
    no filter. *)
Definition where_clause (filter_metadata : option metadata) : option metadata :=
  match filter_metadata with
  | Some ((_ :: _) as m) => Some m
  | _ => None
  end.

(** What [get_stats] returns, without the collection's name and
    directory; [st_embedding_dim = None] stands for ['auto']. *)
Record stats : Type := mkStats {
  st_count : nat;
  st_embedding_dim : option nat
}.

Section WithAdmin.

Variable T : Type.
Variable collection : Type.
Variable collection_add :
  collection -> list string -> ndarray T -> list metadata -> result unit * collection.
Variable collection_query :
  collection -> ndarray T -> Z -> option metadata -> result (list hit).

(** [client.delete_collection] followed by [_get_or_create_collection];
    [collection.count()]; and the embeddings that
    [collection.get(limit=1, include=['embeddings'])] returns. *)
Variable recreate : collection -> result collection.
Variable collection_count : collection -> result nat.
Variable collection_peek : collection -> result (list (list T)).

(** [reset]: the collection is replaced, [self.embedding_dim] is not
    touched. *)
Definition reset (self : VectorDatabase collection) : result unit * VectorDatabase collection :=
  match recreate (coll self) with
  | Ok c => (Ok tt, mkDatabase (embedding_dim self) c)
  | Raise e => (Raise e, self)
  end.

(** [count] *)
Definition count (self : VectorDatabase collection) : result nat :=
  collection_count (coll self).

(** The dimension [get_stats] reports: the locked one, else the length of
    the first stored embedding when the collection is not empty, else none;
    any exception on the way is printed and gives none. *)
Definition detected_dim (self : VectorDatabase collection) : option nat :=
  match embedding_dim self with
  | Some d => Some d
  | None =>
      match count self with
      | Ok (S _) =>
          match collection_peek (coll self) with
          | Ok (embedding :: _) => Some (length embedding)
          | _ => None
          end
      | _ => None
      end
  end.

(** [get_stats] *)
Definition get_stats (self : VectorDatabase collection) : result stats :=
  c ← count self;
  Ok {| st_count := c; st_embedding_dim := detected_dim self |}.

(** *** Properties *)

(** X11.  [search] asks the collection once, with the query as one row, [top_k]
    and the filter (none for an empty dictionary), and returns one result per
    hit, in the collection's order, with the hit's id and the score
    [1 - distance]: hits that come by increasing distance give results by
    decreasing score, and a distance between 0 and 2 a score between -1
    and 1. *)
Theorem search_keeps_ranking (self : VectorDatabase collection)
    (query_embedding : ndarray T) (top_k : Z) (filter_metadata : option metadata) :
  search collection_query self query_embedding top_k filter_metadata
  = map result_of_hit
      <$> collection_query (coll self) (as_2d query_embedding) top_k
                           (where_clause filter_metadata)
  /\ forall hits : list hit,
       map file_id (map result_of_hit hits) = map hit_id hits
       /\ (StronglySorted Qle (map hit_distance hits) ->
           StronglySorted (flip Qle) (map similarity_score (map result_of_hit hits)))
       /\ Forall (fun h => (0 <= hit_distance h)%Q /\ (hit_distance h <= 2)%Q ->
                           (-1 <= similarity_score (result_of_hit h))%Q
                           /\ (similarity_score (result_of_hit h) <= 1)%Q) hits.
Proof.
  split.
  { unfold search, where_clause. by destruct (collection_query _ _ _ _). }
  intros hits. split; [|split].
  - rewrite <- list_fmap_compose. by apply list_fmap_ext.
  - rewrite <- list_fmap_compose.
    intros Hsorted. induction hits as [|h hits IH]; simpl; [constructor|].
    simpl in Hsorted. apply StronglySorted_inv in Hsorted as [Hs Hall].
    constructor; [by apply IH|].
    apply Forall_fmap. apply (proj1 (Forall_fmap _ _ _)) in Hall.
    eapply Forall_impl; [exact Hall|]. intros h' Hle. simpl in *.
    unfold flip, Qminus. apply Qplus_le_r. by apply Qopp_le_compat.
  - apply Forall_forall. intros h _ [H0 H2]. simpl. unfold Qle in *. simpl in *.
    split; lia.
Qed.

(** X12.  [reset] does not unlock the dimension: whether it succeeds or raises,
    the store keeps the dimension it had, and a later write of another
    width into the emptied collection is still refused. *)
Theorem reset_keeps_dimension_lock (self : VectorDatabase collection) :
  embedding_dim (reset self).2 = embedding_dim self
  /\ forall d ids (embeddings : ndarray T) metadatas,
       embedding_dim self = Some d ->
       width embeddings <> d ->
       length_guard ids embeddings metadatas = false ->
       add_embeddings collection_add (reset self).2 ids embeddings metadatas
       = (Raise (DimensionMismatch d (width embeddings)), (reset self).2).
Proof.
  assert (Hdim : embedding_dim (reset self).2 = embedding_dim self).
  { unfold reset. by destruct (recreate (coll self)). }
  split; [done|]. intros d ids embeddings metadatas Hd Hw Hguard.
  destruct (add_embeddings_mismatch T collection collection_add (reset self).2
              ids embeddings metadatas d) as (e & Heq & He).
  - by rewrite Hdim.
  - done.
  - by rewrite Heq, (He Hguard).
Qed.

(** X13.  [get_stats] reports the locked dimension whenever there is one; on an
    unlocked store it reports the length of the first stored embedding when
    the collection has a record and hands one out, and ['auto'] when the
    collection is empty or the look-up fails.  It raises only if [count]
    does. *)
Theorem get_stats_dimension (self : VectorDatabase collection) :
  get_stats self = (fun c => mkStats c (detected_dim self)) <$> count self
  /\ (forall d, embedding_dim self = Some d -> detected_dim self = Some d)
  /\ (embedding_dim self = None ->
      (count self = Ok 0 -> detected_dim self = None)
      /\ (is_ok (collection_peek (coll self)) = false -> detected_dim self = None)
      /\ (forall n embedding rest,
            count self = Ok (S n) ->
            collection_peek (coll self) = Ok (embedding :: rest) ->
            detected_dim self = Some (length embedding))).
Proof.
  unfold get_stats, detected_dim.
  split; [by destruct (count self)|].
  split; [by intros d ->|]. intros ->.
  split; [by intros ->|]. split.
  - intros Hpeek. destruct (count self) as [[|n]|]; [done| |done].
    by destruct (collection_peek (coll self)) as [[|? ?]|].
  - by intros n embedding rest -> ->.
Qed.

End WithAdmin.

Arguments reset {collection} _ _.
Arguments count {collection} _ _.
Arguments detected_dim {T collection} _ _ _.
Arguments get_stats {T collection} _ _ _.

End Database.

(* ===================================================================== *)
(** * src/embedder.py *)
(* ===================================================================== *)

Module Embedder.

Import Np.

(** ** L2 normalisation, over the reals *)

Definition sum_squares (v : list R) : R := fold_right (fun x s => (x * x + s)%R) 0%R v.

(** [v.norm(dim=-1)] *)
Definition l2norm (v : list R) : R := sqrt (sum_squares v).

(** [v / v.norm(dim=-1, keepdim=True)], for one row. *)
Definition normalize_row (v : list R) : list R := map (fun x => (x / l2norm v)%R) v.

(** [np.zeros((n, d), dtype=np.float32)] *)
Definition zeros (n d : nat) : ndarray R := Arr2 d (repeat (repeat 0%R d) n).

(** [full[indices] = embeddings]: row [indices[k]] becomes [embeddings[k]].
    The two have one entry per loaded image; were their counts to differ,
    NumPy would raise or broadcast, and the model raises. *)
Fixpoint assign_rows (full : list (list R)) (indices : list nat)
    (embeddings : list (list R)) : result (list (list R)) :=
  match indices, embeddings with
  | [], [] => Ok full
  | i :: indices', e :: embeddings' => assign_rows (<[i := e]> full) indices' embeddings'
  | _, _ => Raise (External "shape mismatch")
  end.

Section WithModel.

(** A decoded image; [Image.open(path).convert('RGB')], [None] when it
    raises; the CLIP processor and [model.get_image_features] together, one
    feature row per image; [model.config.projection_dim]. *)
Variable image : Type.
Variable load_image : string -> option image.
Variable get_image_features : list image -> list (list R).
Variable embedding_dim : nat.

(** The loading loop of [_encode_image_batch]: the images that load and
    their positions, counted from [idx]. *)
Fixpoint load_all (image_paths : list string) (idx : nat) : list image * list nat :=
  match image_paths with
  | [] => ([], [])
  | p :: rest =>
      let '(images, valid_indices) := load_all rest (S idx) in
      match load_image p with
      | Some img => (img :: images, idx :: valid_indices)
      | None => (images, valid_indices)
      end
  end.

(** [_encode_image_batch].  The array of normalised features has the
    model's [projection_dim] columns, which is [self.embedding_dim]. *)
Definition _encode_image_batch (image_paths : list string) : result (ndarray R) :=
  let '(images, valid_indices) := load_all image_paths 0 in
  match images with
  | [] => Ok (zeros (length image_paths) embedding_dim)
  | _ :: _ =>
      let embeddings := map normalize_row (get_image_features images) in
      if length valid_indices <? length image_paths then
        rows ← assign_rows (repeat (repeat 0%R embedding_dim) (length image_paths))
                            valid_indices embeddings;
        Ok (Arr2 embedding_dim rows)
      else Ok (Arr2 embedding_dim embeddings)
  end.

(** [encode_images]: one [_encode_image_batch] per start of
    [range(0, len(image_paths), batch_size)], then [np.vstack]. *)
Definition encode_images (image_paths : list string) (batch_size : Z)
    : result (ndarray R) :=
  starts ← range0 (length image_paths) batch_size;
  embeddings ← mapM (fun i => _encode_image_batch
                                 (slice i (Z.to_nat batch_size) image_paths)) starts;
  vstack embeddings.

(** ** Properties *)

Lemma sum_squares_nonneg v : (0 <= sum_squares v)%R.
Proof.
  induction v as [|x v IH]; simpl; [lra|].
  pose proof (Rle_0_sqr x) as Hx. unfold Rsqr in Hx. lra.
Qed.

Lemma sum_squares_scale (c : R) v :
  c <> 0%R ->
  sum_squares (map (fun x => (x / c)%R) v) = (sum_squares v / (c * c))%R.
Proof.
  intros Hc. unfold sum_squares. induction v as [|x v IH]; cbn [map fold_right].
  - field. done.
  - rewrite IH. field. done.
Qed.

Lemma length_normalize_row v : length (normalize_row v) = length v.
Proof. unfold normalize_row. apply length_map. Qed.

(** A row with a non-zero norm has norm 1 once divided by it. *)
Lemma normalize_row_unit v : l2norm v <> 0%R -> l2norm (normalize_row v) = 1%R.
Proof.
  intros Hn. unfold normalize_row. unfold l2norm at 1.
  rewrite sum_squares_scale by done.
  unfold l2norm. rewrite sqrt_sqrt by apply sum_squares_nonneg.
  assert (Hs : sum_squares v <> 0%R).
  { intros Hz. apply Hn. unfold l2norm. rewrite Hz. apply sqrt_0. }
  replace (sum_squares v / sum_squares v)%R with 1%R by (field; done).
  apply sqrt_1.
Qed.

(** ** What [encode_images] returns, slot by slot *)

(** The slots of a batch, read off its paths in order: a path whose image
    loads takes the next row of [embeddings], a path whose image does not
    load the zero row. *)
Fixpoint fill (image_paths : list string) (embeddings : list (list R))
    : list (list R) :=
  match image_paths with
  | [] => []
  | p :: rest =>
      match load_image p with
      | None => repeat 0%R embedding_dim :: fill rest embeddings
      | Some _ =>
          match embeddings with
          | e :: embeddings' => e :: fill rest embeddings'
          | [] => []
          end
      end
  end.

(** The images of a batch that load, in the order of their paths: what the
    provider is called with. *)
Definition loaded (image_paths : list string) : list image :=
  omap load_image image_paths.

(** The rows of a batch: the provider's rows for the loaded images, each
    divided by its norm, in the slots of their paths. *)
Definition batch_rows (image_paths : list string) : list (list R) :=
  fill image_paths (map normalize_row (get_image_features (loaded image_paths))).

(** [image_paths[i:i + s]] for [i] in [range(0, len(image_paths), s)]. *)
Definition batches (s : nat) (image_paths : list string) : list (list string) :=
  map (fun i => slice i s image_paths)
      (map (fun k => k * s) (seq 0 ((length image_paths + s - 1) / s))).

Definition unit_row (r : list R) : Prop :=
  length r = embedding_dim /\ l2norm r = 1%R.

Lemma load_all_spec image_paths idx :
  length (load_all image_paths idx).1 = length (load_all image_paths idx).2
  /\ length (load_all image_paths idx).2 <= length image_paths
  /\ ((load_all image_paths idx).1 = [] ->
      Forall (fun p => load_image p = None) image_paths)
  /\ (length (load_all image_paths idx).2 = length image_paths ->
      Forall (fun p => is_Some (load_image p)) image_paths).
Proof.
  revert idx. induction image_paths as [|p rest IH]; intros idx; simpl.
  - repeat split; auto.
  - destruct (IH (S idx)) as (Hlen & Hle & Hnone & Hall).
    destruct (load_all rest (S idx)) as [images valid_indices]. simpl in *.
    destruct (load_image p) as [img|] eqn:Hp; simpl.
    + repeat split; [lia|lia|done|].
      intros Hl. constructor; [by rewrite Hp|]. apply Hall. lia.
    + repeat split; [done|lia| |intros; lia].
      intros Himgs. constructor; [done|]. by apply Hnone.
Qed.

(** The loading loop collects the images that load. *)
Lemma load_all_loaded image_paths idx :
  (load_all image_paths idx).1 = loaded image_paths.
Proof.
  revert idx. induction image_paths as [|p rest IH]; intros idx; simpl; [done|].
  specialize (IH (S idx)). destruct (load_all rest (S idx)) as [images valid_indices].
  simpl in IH. unfold loaded in *. simpl.
  destruct (load_image p); simpl; by rewrite IH.
Qed.

Lemma fill_none image_paths embeddings :
  Forall (fun p => load_image p = None) image_paths ->
  fill image_paths embeddings = repeat (repeat 0%R embedding_dim) (length image_paths).
Proof.
  induction 1 as [|p ps Hp _ IH]; simpl; [done|]. by rewrite Hp, IH.
Qed.

Lemma fill_all_loaded image_paths embeddings :
  Forall (fun p => is_Some (load_image p)) image_paths ->
  length embeddings = length image_paths ->
  fill image_paths embeddings = embeddings.
Proof.
  intros Hall. revert embeddings.
  induction Hall as [|p ps [img Hp] _ IH]; intros [|e es] Hlen; simpl in *;
    try done.
  rewrite Hp. f_equal. apply IH. lia.
Qed.

Lemma loaded_cons p image_paths :
  loaded (p :: image_paths)
  = match load_image p with
    | Some img => img :: loaded image_paths
    | None => loaded image_paths
    end.
Proof. unfold loaded. simpl. by destruct (load_image p). Qed.

Lemma fill_length image_paths embeddings :
  length embeddings = length (loaded image_paths) ->
  length (fill image_paths embeddings) = length image_paths.
Proof.
  revert embeddings.
  induction image_paths as [|p ps IH]; intros embeddings Hlen; [done|].
  rewrite loaded_cons in Hlen. cbn [fill].
  destruct (load_image p).
  - destruct embeddings as [|e es]; cbn [length] in *; [done|]. f_equal. apply IH. lia.
  - cbn [length]. f_equal. by apply IH.
Qed.

(** The slot of the path at position [j]: the zero row when its image does
    not load, else the row of [embeddings] that has as many rows before it
    as images load before position [j]. *)
Lemma fill_lookup image_paths embeddings j p :
  length embeddings = length (loaded image_paths) ->
  image_paths !! j = Some p ->
  fill image_paths embeddings !! j
  = match load_image p with
    | None => Some (repeat 0%R embedding_dim)
    | Some _ => embeddings !! length (loaded (take j image_paths))
    end.
Proof.
  revert embeddings j.
  induction image_paths as [|q ps IH]; intros embeddings j Hlen Hj; [done|].
  rewrite loaded_cons in Hlen.
  destruct j as [|j]; cbn [fill take lookup list_lookup] in *.
  - injection Hj as ->. destruct (load_image p); [|done].
    by destruct embeddings.
  - rewrite loaded_cons. destruct (load_image q); cbn [length lookup list_lookup] in *.
    + destruct embeddings as [|e es]; cbn [length lookup list_lookup] in *; [done|].
      apply IH; [lia|done].
    + by apply IH.
Qed.

(** That row is the one the provider computed for the image of [p]: the
    image is at the same rank among the loaded images. *)
Lemma loaded_lookup image_paths j p img :
  image_paths !! j = Some p ->
  load_image p = Some img ->
  loaded image_paths !! length (loaded (take j image_paths)) = Some img.
Proof.
  revert j.
  induction image_paths as [|q ps IH]; intros j Hj Hp; [done|].
  destruct j as [|j]; cbn [take lookup list_lookup] in *.
  - injection Hj as ->. rewrite loaded_cons. by rewrite Hp.
  - rewrite !loaded_cons. destruct (load_image q); cbn [length lookup list_lookup];
      by apply IH.
Qed.

(** Filling the zero rows at the valid indices is [fill]. *)
Lemma assign_rows_fill image_paths idx (pre : list (list R)) embeddings :
  length embeddings = length (loaded image_paths) ->
  length pre = idx ->
  assign_rows (pre ++ repeat (repeat 0%R embedding_dim) (length image_paths))
              (load_all image_paths idx).2 embeddings
  = Ok (pre ++ fill image_paths embeddings).
Proof.
  revert idx pre embeddings.
  induction image_paths as [|p rest IH]; intros idx pre embeddings Hlen Hpre.
  - simpl in *. by destruct embeddings.
  - rewrite loaded_cons in Hlen. cbn [load_all fill length repeat].
    specialize (IH (S idx)).
    destruct (load_all rest (S idx)) as [images valid_indices] eqn:Hload.
    cbn [snd] in IH.
    destruct (load_image p) as [img|] eqn:Hp; cbn [snd assign_rows].
    + destruct embeddings as [|e embeddings]; [done|].
      rewrite insert_app_r_alt by lia.
      replace (idx - length pre) with 0 by lia.
      cbn [insert list_insert]. rewrite cons_middle, app_assoc.
      rewrite (IH (pre ++ [e]) embeddings).
      * by rewrite <- app_assoc.
      * cbn [length] in Hlen. lia.
      * rewrite length_app. simpl. lia.
    + rewrite cons_middle, app_assoc.
      rewrite (IH (pre ++ [repeat 0%R embedding_dim]) embeddings).
      * by rewrite <- app_assoc.
      * done.
      * rewrite length_app. simpl. lia.
Qed.

(** Cutting a list into consecutive slices of [s] and joining them gives
    the list back. *)
Lemma concat_slices {A} (l : list A) (s c : nat) :
  0 < s -> length l <= c * s ->
  concat (map (fun i => slice i s l) (map (fun k => k * s) (seq 0 c))) = l.
Proof.
  intros Hs. revert l. induction c as [|c IH]; intros l Hlen.
  - simpl in *. destruct l; [done|simpl in Hlen; lia].
  - simpl seq. rewrite <- fmap_S_seq. simpl.
    unfold slice at 1. rewrite drop_0.
    transitivity (take s l ++ drop s l); [|apply take_drop]. f_equal.
    etransitivity; [|apply (IH (drop s l)); rewrite length_drop; lia].
    f_equal. rewrite <- !list_fmap_compose.
    apply list_fmap_ext. intros _ k _. simpl. unfold slice.
    rewrite drop_drop. reflexivity.
Qed.

Lemma batches_cover (n s : nat) : 0 < s -> n <= (n + s - 1) / s * s.
Proof.
  intros Hs. pose proof (Nat.div_mod (n + s - 1) s) as Hdm.
  pose proof (Nat.mod_upper_bound (n + s - 1) s). nia.
Qed.

Lemma concat_batches (s : nat) (image_paths : list string) :
  0 < s -> concat (batches s image_paths) = image_paths.
Proof. intros Hs. apply concat_slices; [done|by apply batches_cover]. Qed.

(** The first batch is the first [s] paths, the others are the batches of
    the rest. *)
Lemma batches_cons (s : nat) (image_paths : list string) :
  0 < s -> image_paths <> [] ->
  batches s image_paths = take s image_paths :: batches s (drop s image_paths).
Proof.
  intros Hs Hne. unfold batches.
  assert (Hn : 0 < length image_paths) by (destruct image_paths; [done|simpl; lia]).
  assert (Hc : (length image_paths + s - 1) / s
               = S ((length (drop s image_paths) + s - 1) / s)).
  { rewrite length_drop.
    replace (length image_paths + s - 1) with ((length image_paths - 1) + 1 * s) by lia.
    rewrite Nat.div_add by lia. rewrite Nat.add_1_r. f_equal.
    destruct (decide (s <= length image_paths)) as [Hle|Hgt].
    - f_equal. lia.
    - rewrite !Nat.div_small by lia. done. }
  rewrite Hc. simpl seq. rewrite <- fmap_S_seq. simpl.
  unfold slice at 1. rewrite drop_0. f_equal.
  rewrite <- !list_fmap_compose.
  apply list_fmap_ext. intros _ k _. simpl. unfold slice.
  rewrite drop_drop. reflexivity.
Qed.

(** Row [i] of the joined batches is row [i mod s] of batch [i / s]. *)
Lemma lookup_concat_batches {X} (f : list string -> list X) (s : nat) :
  0 < s ->
  (forall b, length (f b) = length b) ->
  forall (n : nat) (image_paths : list string) (i : nat),
    length image_paths <= n ->
    i < length image_paths ->
    concat (map f (batches s image_paths)) !! i
    = f (slice (i / s * s) s image_paths) !! (i mod s).
Proof.
  intros Hs Hf. induction n as [|n IH]; intros image_paths i Hn Hi; [lia|].
  rewrite batches_cons by (try done; intros ->; simpl in Hi; lia).
  simpl. destruct (decide (i < s)) as [Hlt|Hge].
  - rewrite lookup_app_l by (rewrite Hf, length_take; lia).
    rewrite Nat.div_small, Nat.mod_small by done. simpl.
    unfold slice. by rewrite drop_0.
  - rewrite lookup_app_r by (rewrite Hf, length_take; lia).
    rewrite Hf, length_take, Nat.min_l by lia.
    rewrite IH by (rewrite length_drop; lia).
    replace i with ((i - s) + 1 * s) at 3 4 by lia.
    rewrite Nat.div_add, Nat.Div0.mod_add by lia.
    unfold slice. rewrite drop_drop.
    by replace (((i - s) / s + 1) * s) with (s + (i - s) / s * s) by lia.
Qed.

Lemma vstack_rows (d : nat) (rowss : list (list (list R))) :
  rowss <> [] ->
  vstack (map (Arr2 d) rowss) = Ok (Arr2 d (concat rowss)).
Proof.
  destruct rowss as [|rows rowss]; [done|]. intros _. simpl.
  assert (Hw : forallb (fun b : ndarray R => width b =? d) (map (Arr2 d) rowss) = true).
  { induction rowss as [|r rs IHrs]; simpl; [done|]. by rewrite Nat.eqb_refl. }
  rewrite Hw. do 3 f_equal.
  induction rowss as [|r rs IHrs]; simpl; [done|].
  f_equal. apply IHrs. simpl in Hw. by rewrite Nat.eqb_refl in Hw.
Qed.

Section WithProviderContract.

(** The Embedding Provider's contract: one feature row per image, of the
    embedding dimension; and no feature row is the zero vector. *)
Hypothesis features_length :
  forall images, length (get_image_features images) = length images.
Hypothesis features_shape :
  forall images,
    Forall (fun r => length r = embedding_dim /\ l2norm r <> 0%R)
           (get_image_features images).

Lemma normalized_features_unit images :
  Forall unit_row (map normalize_row (get_image_features images)).
Proof.
  apply Forall_fmap. eapply Forall_impl; [apply features_shape|].
  intros r [Hlen Hnorm]. split; simpl.
  - by rewrite length_normalize_row.
  - by apply normalize_row_unit.
Qed.

Lemma batch_rows_length image_paths :
  length (batch_rows image_paths) = length image_paths.
Proof.
  unfold batch_rows. apply fill_length. by rewrite length_map, features_length.
Qed.

(** A batch gives the rows of [batch_rows]. *)
Lemma encode_image_batch_rows image_paths :
  _encode_image_batch image_paths = Ok (Arr2 embedding_dim (batch_rows image_paths)).
Proof.
  unfold _encode_image_batch, batch_rows.
  pose proof (load_all_spec image_paths 0) as (Hlen & Hle & Hnone & Hall).
  pose proof (load_all_loaded image_paths 0) as Himages.
  pose proof (assign_rows_fill image_paths 0 []) as Hassign.
  destruct (load_all image_paths 0) as [images valid_indices]. simpl in *.
  subst images.
  destruct (loaded image_paths) as [|img images] eqn:Hloaded.
  - unfold zeros. by rewrite fill_none by auto.
  - set (embeddings := map normalize_row (get_image_features (img :: images))).
    assert (Hemb : length embeddings = length (img :: images)).
    { unfold embeddings. by rewrite length_map, features_length. }
    destruct (length valid_indices <? length image_paths) eqn:Hfailed.
    + rewrite (Hassign embeddings Hemb eq_refl). done.
    + apply Nat.ltb_ge in Hfailed.
      rewrite fill_all_loaded; [done| |].
      * apply Hall. lia.
      * rewrite Hemb, Hlen. lia.
Qed.

Lemma encode_batches_rows (bs : list (list string)) :
  mapM _encode_image_batch bs = Ok (map (Arr2 embedding_dim) (map batch_rows bs)).
Proof.
  induction bs as [|b bs IH]; simpl; [done|].
  rewrite encode_image_batch_rows. simpl. by rewrite IH.
Qed.

(** C4.  For a non-empty list of paths and a positive batch size,
    [encode_images] returns a two-dimensional array with one row per path,
    in the order of the paths.  At the index of a path whose image fails to
    load the row is the all-zero vector of the embedding dimension.  At the
    index [i] of a path whose image loads, the row is the feature row the
    provider returned for that very image, divided by its norm: the image
    is the [k]-th of the images the provider was given for the batch
    [i / batch_size], [k] being the number of images that load before it in
    the batch, and the row is the [k]-th of the provider's answer; it has
    the embedding dimension and L2 norm 1.  (Floats are read as reals, and
    the provider keeps its contract, stated above.) *)
Theorem encode_images_aligned (image_paths : list string) (batch_size : Z) :
  image_paths <> [] ->
  (0 < batch_size)%Z ->
  let s := Z.to_nat batch_size in
  let rows := concat (map batch_rows (batches s image_paths)) in
  encode_images image_paths batch_size = Ok (Arr2 embedding_dim rows)
  /\ length rows = length image_paths
  /\ (forall i p,
        image_paths !! i = Some p -> load_image p = None ->
        rows !! i = Some (repeat 0%R embedding_dim))
  /\ (forall i p img,
        image_paths !! i = Some p -> load_image p = Some img ->
        let batch := slice (i / s * s) s image_paths in
        let k := length (loaded (take (i mod s) batch)) in
        exists features,
          loaded batch !! k = Some img
          /\ get_image_features (loaded batch) !! k = Some features
          /\ rows !! i = Some (normalize_row features)
          /\ length (normalize_row features) = embedding_dim
          /\ l2norm (normalize_row features) = 1%R).
Proof.
  intros Hne Hbs s rows.
  assert (Hs : 0 < s) by (unfold s; lia).
  assert (Hrow : forall i p,
    image_paths !! i = Some p ->
    slice (i / s * s) s image_paths !! (i mod s) = Some p
    /\ rows !! i = batch_rows (slice (i / s * s) s image_paths) !! (i mod s)).
  { intros i p Hp. split.
    - unfold slice. rewrite lookup_take.
      rewrite decide_True by (apply Nat.mod_upper_bound; lia).
      rewrite lookup_drop. rewrite <- Hp. f_equal.
      pose proof (Nat.div_mod i s ltac:(lia)). lia.
    - apply (lookup_concat_batches batch_rows s Hs batch_rows_length
                                   (length image_paths)); [done|].
      by apply lookup_lt_Some in Hp. }
  split; [|split; [|split]].
  - unfold encode_images, range0.
    rewrite (proj2 (Z.eqb_neq _ _)) by lia. rewrite (proj2 (Z.ltb_ge _ _)) by lia.
    fold s. step_ok.
    set (starts := map (fun k => k * s) (seq 0 ((length image_paths + s - 1) / s))).
    assert (Hmap : mapM (fun i => _encode_image_batch (slice i s image_paths)) starts
                 = mapM _encode_image_batch (map (fun i => slice i s image_paths) starts)).
    { clear. induction starts as [|i starts IH]; simpl; [done|]. by rewrite IH. }
    rewrite Hmap. subst starts. fold (batches s image_paths).
    rewrite encode_batches_rows. step_ok.
    apply vstack_rows. by rewrite batches_cons.
  - unfold rows. rewrite <- (concat_batches s image_paths Hs) at 2.
    generalize (batches s image_paths). intros bs.
    induction bs as [|b bs IH]; simpl; [done|].
    by rewrite !length_app, batch_rows_length, IH.
  - intros i p Hp Hload. destruct (Hrow i p Hp) as [Hslot ->].
    unfold batch_rows. rewrite (fill_lookup _ _ _ p); [by rewrite Hload| |done].
    by rewrite length_map, features_length.
  - intros i p img Hp Hload batch k. destruct (Hrow i p Hp) as [Hslot Hrows].
    fold batch in Hslot, Hrows.
    pose proof (loaded_lookup batch (i mod s) p img Hslot Hload) as Himg.
    fold k in Himg.
    destruct (lookup_lt_is_Some_2 (get_image_features (loaded batch)) k)
      as [features Hfeatures].
    { rewrite features_length. by apply lookup_lt_Some in Himg. }
    exists features. split; [done|]. split; [done|].
    assert (Hunit : unit_row (normalize_row features)).
    { pose proof (normalized_features_unit (loaded batch)) as Hall.
      rewrite Forall_lookup in Hall. apply (Hall k).
      by rewrite list_lookup_fmap, Hfeatures. }
    split; [|exact Hunit].
    rewrite Hrows. unfold batch_rows.
    rewrite (fill_lookup _ _ _ p); [|by rewrite length_map, features_length|done].
    rewrite Hload. fold k. by rewrite list_lookup_fmap, Hfeatures.
Qed.

End WithProviderContract.

(** A batch size of zero or less makes [encode_images] raise, whatever the
    paths: [range] refuses a zero step, and a negative step gives no batch
    for [np.vstack]. *)
Lemma encode_images_nonpositive_batch_raises (image_paths : list string)
    (batch_size : Z) :
  (batch_size <= 0)%Z ->
  encode_images image_paths batch_size
  = Raise (if (batch_size =? 0)%Z then RangeStepZero else VstackEmpty).
Proof.
  intros Hbs. unfold encode_images, range0.
  destruct (batch_size =? 0)%Z eqn:Hz; [done|].
  apply Z.eqb_neq in Hz. by rewrite (proj2 (Z.ltb_lt _ _)) by lia.
Qed.

(** C10.  On the empty list of paths [encode_images] raises, whatever the
    batch size: for a non-zero batch size the range is empty, no batch is
    encoded, and [np.vstack] is applied to an empty sequence of arrays (a
    zero batch size is already refused by [range]). *)
Theorem encode_images_empty_raises (batch_size : Z) :
  exists e,
    encode_images [] batch_size = Raise e
    /\ (batch_size <> 0%Z -> e = VstackEmpty).
Proof.
  unfold encode_images, range0. simpl length.
  destruct (batch_size =? 0)%Z eqn:Hz.
  - apply Z.eqb_eq in Hz. exists RangeStepZero. split; [done|]. done.
  - destruct (batch_size <? 0)%Z eqn:Hneg.
    + exists VstackEmpty. split; done.
    + apply Z.eqb_neq in Hz. apply Z.ltb_ge in Hneg.
      exists VstackEmpty. split; [|done].
      replace ((0 + Z.to_nat batch_size - 1) / Z.to_nat batch_size) with 0.
      * done.
      * symmetry. apply Nat.div_small. lia.
Qed.

(** ** When no image loads *)

Lemma load_all_none image_paths idx :
  Forall (fun p => load_image p = None) image_paths ->
  load_all image_paths idx = ([], []).
Proof.
  intros Hnone. revert idx.
  induction Hnone as [|p ps Hp _ IH]; intros idx; simpl; [done|].
  by rewrite IH, Hp.
Qed.

Lemma repeat_as_map {A B} (z : B) (l : list A) :
  repeat z (length l) = map (fun _ => z) l.
Proof. induction l as [|x l IH]; simpl; [done|]. by rewrite IH. Qed.

Lemma encode_image_batch_all_fail image_paths :
  Forall (fun p => load_image p = None) image_paths ->
  _encode_image_batch image_paths
  = Ok (Arr2 embedding_dim (map (fun _ => repeat 0%R embedding_dim) image_paths)).
Proof.
  intros Hnone. unfold _encode_image_batch.
  rewrite (load_all_none image_paths 0 Hnone). unfold zeros.
  by rewrite repeat_as_map.
Qed.

(** X14.  If none of the images loads, [encode_images] returns the all-zero array
    with one row per path, and the model has no part in it: the equation
    holds for any [get_image_features]. *)
Theorem encode_images_all_unreadable (image_paths : list string) (batch_size : Z) :
  image_paths <> [] ->
  (0 < batch_size)%Z ->
  Forall (fun p => load_image p = None) image_paths ->
  encode_images image_paths batch_size = Ok (zeros (length image_paths) embedding_dim).
Proof.
  intros Hne Hbs Hnone. unfold encode_images, range0.
  rewrite (proj2 (Z.eqb_neq _ _)) by lia. rewrite (proj2 (Z.ltb_ge _ _)) by lia.
  set (s := Z.to_nat batch_size). assert (Hs : 0 < s) by (unfold s; lia).
  step_ok.
  set (starts := map (fun k => k * s) (seq 0 ((length image_paths + s - 1) / s))).
  set (z := repeat 0%R embedding_dim).
  assert (Hm : mapM (fun i => _encode_image_batch (slice i s image_paths)) starts
             = Ok (map (Arr2 embedding_dim)
                       (map (fun i => map (fun _ => z) (slice i s image_paths)) starts))).
  { clear -Hnone. induction starts as [|i starts IH]; simpl; [done|].
    rewrite encode_image_batch_all_fail
      by (unfold slice; by apply Forall_take, Forall_drop).
    simpl. rewrite IH. done. }
  rewrite Hm. step_ok.
  assert (Hcover : concat (map (fun i => slice i s image_paths) starts) = image_paths)
    by (apply concat_slices; [done|by apply batches_cover]).
  rewrite vstack_rows.
  - unfold zeros. do 2 f_equal. rewrite repeat_as_map. fold z.
    transitivity (map (fun _ : string => z)
                      (concat (map (fun i => slice i s image_paths) starts)));
      [|by rewrite Hcover].
    rewrite concat_map, map_map. done.
  - intros Hnil. apply map_eq_nil in Hnil. rewrite Hnil in Hcover. simpl in Hcover.
    by apply Hne.
Qed.

End WithModel.

(** ** [encode_text] *)

Section WithTextModel.

(** The CLIP processor and [model.get_text_features] on the one-element
    list [[query]]: a tensor of one row. *)
Variable get_text_features : string -> list (list R).
Variable embedding_dim : nat.

(** [encode_text] *)
Definition encode_text (query : string) : ndarray R :=
  Arr2 embedding_dim (map normalize_row (get_text_features query)).

(** X15.  When the model gives one feature row of the embedding dimension, not
    the zero vector, [encode_text] returns an array of one row, that row
    divided by its norm: it has the embedding dimension and L2 norm 1. *)
Theorem encode_text_unit (query : string) (features : list R) :
  get_text_features query = [features] ->
  length features = embedding_dim ->
  l2norm features <> 0%R ->
  encode_text query = Arr2 embedding_dim [normalize_row features]
  /\ len (encode_text query) = 1
  /\ length (normalize_row features) = embedding_dim
  /\ l2norm (normalize_row features) = 1%R.
Proof.
  intros Hq Hlen Hnorm. unfold encode_text. rewrite Hq. simpl.
  repeat split; [by rewrite length_normalize_row|by apply normalize_row_unit].
Qed.

End WithTextModel.

End Embedder.

(* ===================================================================== *)
(** * src/search.py *)
(* ===================================================================== *)

Module Search.

Import Np Database.

Section WithEngine.

Variable T : Type.
Variable collection : Type.
Variable collection_query :
  collection -> ndarray T -> Z -> option metadata -> result (list hit).
Variable collection_get : collection -> string -> result (get_result T).

(** [self.embedder.encode_text(query)] *)
Variable encode_text : string -> result (ndarray T).

(** The engine object; its embedder is [encode_text]. *)
Record SemanticSearch : Type := mkSearch {
  database : VectorDatabase collection
}.

(** [{'file_type': file_type}] when [file_type] is a non-empty string. *)
Definition type_filter (file_type : option string) : option metadata :=
  match file_type with
  | Some ((String _ _) as ft) => Some [("file_type", MStr ft)]
  | _ => None
  end.

(** [search_text] *)
Definition search_text (self : SemanticSearch) (query : string) (top_k : Z)
    (file_type : option string) (min_score : Q) : result (list SearchResult) :=
  query_embedding ← encode_text query;
  results ← search collection_query (database self) query_embedding top_k
                   (type_filter file_type);
  Ok (if Qlt_le_dec 0 min_score
      then List.filter (fun r => Qle_bool min_score (similarity_score r)) results
      else results).

(** [get_similar_files] *)
Definition get_similar_files (self : SemanticSearch) (fid : string) (top_k : Z)
    : result (list SearchResult) :=
  match get_by_id collection_get (database self) fid with
  | None => Raise (FileNotInDatabase fid)
  | Some data =>
      match fd_embedding data with
      | None | Some [] => Raise (FileNotInDatabase fid)
      | Some ((_ :: _) as stored) =>
          let embedding := Arr1 stored in
          results ← search collection_query (database self) embedding (top_k + 1) None;
          Ok (slice_to top_k
                (List.filter (fun r => negb (String.eqb (file_id r) fid)) results))
      end
  end.

(** ** Properties *)

(** [search] hands the query vector, as one row, and [top_k] to the
    collection, and turns every hit into a result, in order. *)
Lemma search_queries_collection (db : VectorDatabase collection) (v : list T)
    (top_k : Z) :
  search collection_query db (Arr1 v) top_k None
  = map result_of_hit <$> collection_query (coll db) (Arr2 (length v) [v]) top_k None.
Proof.
  unfold search. simpl. by destruct (collection_query _ _ _ _).
Qed.

(** C6 (as the code has it).  For a positive [min_score] every result of
    [search_text] has a similarity score of at least [min_score]; for a
    [min_score] of 0 or less no threshold is applied and the results of the
    store's query are returned as they are. *)
Theorem search_text_threshold (self : SemanticSearch) (query : string) (top_k : Z)
    (file_type : option string) (min_score : Q) :
  ((0 < min_score)%Q ->
   forall results,
     search_text self query top_k file_type min_score = Ok results ->
     Forall (fun r => (min_score <= similarity_score r)%Q) results)
  /\ ((min_score <= 0)%Q ->
      search_text self query top_k file_type min_score
      = (encode_text query ≫= fun query_embedding =>
           search collection_query (database self) query_embedding top_k
                  (type_filter file_type))).
Proof.
  unfold search_text. split.
  - intros Hpos results.
    destruct (encode_text query) as [q|e]; simpl; [|done].
    destruct (search _ _ _ _ _) as [rs|e]; simpl; [|done].
    destruct (Qlt_le_dec 0 min_score) as [_|Hle].
    + intros [= <-]. apply Forall_forall. intros r Hr.
      apply list_elem_of_In, filter_In in Hr as [_ Hr]. by apply Qle_bool_iff.
    + exfalso. by apply (Qlt_not_le 0 min_score).
  - intros Hle.
    destruct (encode_text query) as [q|e]; simpl; [|done].
    destruct (search _ _ _ _ _) as [rs|e]; simpl; [|done].
    destruct (Qlt_le_dec 0 min_score) as [Hpos|_]; [|done].
    exfalso. by apply (Qlt_not_le 0 min_score).
Qed.

(** What [get_similar_files] does once it holds the item's vector: for a
    non-negative [top_k] it queries the store with that vector for
    [top_k + 1] neighbours, and the list it returns never contains the
    item's own id and has at most [top_k] entries.  The premise asks the
    store's [get] for the vector; see [similar_files_never_finds_vector]
    for what ChromaDB's [get] answers. *)
Lemma similar_files_exclude_query (self : SemanticSearch) (fid : string)
    (top_k : Z) (data : file_data T) (x : T) (stored : list T) :
  (0 <= top_k)%Z ->
  get_by_id collection_get (database self) fid = Some data ->
  fd_embedding data = Some (x :: stored) ->
  get_similar_files self fid top_k
  = (fun hits =>
       slice_to top_k
         (List.filter (fun r => negb (String.eqb (file_id r) fid))
                      (map result_of_hit hits)))
    <$> collection_query (coll (database self))
          (Arr2 (length (x :: stored)) [x :: stored]) (top_k + 1) None
  /\ forall results,
       get_similar_files self fid top_k = Ok results ->
       (fid ∉ map file_id results) /\ (Z.of_nat (length results) <= top_k)%Z.
Proof.
  intros Hk Hget Hemb.
  assert (Heq : get_similar_files self fid top_k
    = (fun hits =>
         slice_to top_k
           (List.filter (fun r => negb (String.eqb (file_id r) fid))
                        (map result_of_hit hits)))
      <$> collection_query (coll (database self))
            (Arr2 (length (x :: stored)) [x :: stored]) (top_k + 1) None).
  { unfold get_similar_files. rewrite Hget, Hemb.
    rewrite search_queries_collection.
    by destruct (collection_query _ _ _ _). }
  split; [done|]. intros results. rewrite Heq.
  destruct (collection_query _ _ _ _) as [hits|e]; simpl; [|done].
  intros [= <-]. unfold slice_to.
  rewrite (proj2 (Z.leb_le 0 top_k)) by done. split.
  - intros Hin. apply list_elem_of_fmap in Hin as (r & Hfid & Hr).
    apply elem_of_take in Hr as (i & Hi & _).
    apply list_elem_of_lookup_2, list_elem_of_In, filter_In in Hi as [_ Hne].
    apply negb_true_iff, String.eqb_neq in Hne. by subst.
  - rewrite length_take. lia.
Qed.

(** What ChromaDB's [get] answers when it is called as [get_by_id] calls
    it, with ids and no [include]: the ids, metadatas and documents of the
    records found, and [None] for their embeddings, which it hands out only
    for [include=['embeddings']]. *)
Definition get_omits_embeddings : Prop :=
  forall c fid res, collection_get c fid = Ok res -> g_embeddings res = None.

(** C7, what the code does.  With a store whose [get] answers as ChromaDB's
    does, [get_by_id] never returns an embedding, and [get_similar_files]
    raises "File not found in database" for every id, the ids of indexed
    items included, whatever [top_k] is: it never comes to query the store,
    to drop the item's id or to cut the list. *)
Theorem similar_files_never_finds_vector (self : SemanticSearch) (fid : string)
    (top_k : Z) :
  get_omits_embeddings ->
  (forall data,
     get_by_id collection_get (database self) fid = Some data ->
     fd_embedding data = None)
  /\ get_similar_files self fid top_k = Raise (FileNotInDatabase fid).
Proof.
  intros Hget.
  assert (Hnone : forall data,
    get_by_id collection_get (database self) fid = Some data ->
    fd_embedding data = None).
  { unfold get_by_id. intros data.
    destruct (collection_get _ _) as [res|e] eqn:Hres; [|done].
    rewrite (Hget _ _ _ Hres). destruct (g_ids res); [done|]. by intros [= <-]. }
  split; [done|]. unfold get_similar_files.
  destruct (get_by_id _ _ _) as [data|] eqn:Hdata; [|done].
  by rewrite (Hnone data eq_refl).
Qed.

(** X16.  When the store has no usable vector for the id, [get_similar_files]
    raises "File not found in database" and never queries: that is so when
    the id is unknown, when the record comes without embeddings or with an
    empty one, and also when the store's [get] itself raises, whose error
    [get_by_id] swallows. *)
Theorem similar_files_needs_stored_vector (self : SemanticSearch) (fid : string)
    (top_k : Z) :
  match collection_get (coll (database self)) fid with
  | Raise _ => True
  | Ok res =>
      g_ids res = [] \/ g_embeddings res = None \/ g_embeddings res = Some []
      \/ exists rest, g_embeddings res = Some ([] :: rest)
  end ->
  get_similar_files self fid top_k = Raise (FileNotInDatabase fid).
Proof.
  unfold get_similar_files, get_by_id.
  destruct (collection_get _ _) as [res|e]; [|done].
  intros [Hids|[He|[He|[rest He]]]].
  - by rewrite Hids.
  - destruct (g_ids res); [done|]. by rewrite He.
  - destruct (g_ids res); [done|]. by rewrite He.
  - destruct (g_ids res); [done|]. by rewrite He.
Qed.

End WithEngine.

Arguments mkSearch {collection} _.
Arguments database {collection} _.

(** ** [search_image] *)

Section WithImageQuery.

Variable collection : Type.
Variable collection_query :
  collection -> ndarray R -> Z -> option metadata -> result (list hit).
Variable image : Type.
Variable load_image : string -> option image.
Variable get_image_features : list image -> list (list R).
Variable embedding_dim : nat.

(** [search_image]; the embedder's [encode_images] runs with its default
    batch size, 32. *)
Definition search_image (self : SemanticSearch collection) (image_path : string)
    (top_k : Z) (file_type : option string) (min_score : Q)
    : result (list SearchResult) :=
  image_embedding ←
    Embedder.encode_images image load_image get_image_features embedding_dim
                           [image_path] 32;
  results ← search collection_query (database self) image_embedding top_k
                   (type_filter file_type);
  Ok (if Qlt_le_dec 0 min_score
      then List.filter (fun r => Qle_bool min_score (similarity_score r)) results
      else results).

(** X17.  A reference image that cannot be loaded does not make [search_image]
    raise: the store is queried with the all-zero vector in its place, and
    whatever the store returns for it is thresholded and handed back. *)
Theorem search_image_unreadable_queries_zero (self : SemanticSearch collection)
    (image_path : string) (top_k : Z) (file_type : option string) (min_score : Q) :
  load_image image_path = None ->
  search_image self image_path top_k file_type min_score
  = (fun results =>
       if Qlt_le_dec 0 min_score
       then List.filter (fun r => Qle_bool min_score (similarity_score r)) results
       else results)
    <$> search collection_query (database self)
               (Arr2 embedding_dim [repeat 0%R embedding_dim]) top_k
               (type_filter file_type).
Proof.
  intros Hload. unfold search_image.
  assert (Hzero :
    Embedder.encode_images image load_image get_image_features embedding_dim
                           [image_path] 32
    = Ok (Arr2 embedding_dim [repeat 0%R embedding_dim])).
  { unfold Embedder.encode_images, Embedder._encode_image_batch. simpl.
    by rewrite Hload. }
  rewrite Hzero. step_ok. by destruct (search _ _ _ _ _).
Qed.

End WithImageQuery.

End Search.

(* ===================================================================== *)
(** * src/app.py and web_app/server.py: which model to load *)
(* ===================================================================== *)

Module FrontEnds.

Definition BASE_MODEL : string := "openai/clip-vit-base-patch32".
Definition LARGE_MODEL : string := "openai/clip-vit-large-patch14".

(** The choice in [ChronosApp._search_worker] and [ChronosApp._index_worker],
    from [db_stats.get('embedding_dim', 'auto')]; [None] is ['auto']. *)
Definition app_model (db_embedding_dim : option nat) : string :=
  match db_embedding_dim with
  | Some d =>
      if d =? 512 then BASE_MODEL
      else if d =? 768 then LARGE_MODEL
      else BASE_MODEL
  | None => BASE_MODEL
  end.

(** The choice in the server's [search] and [index_worker]. *)
Definition server_model (dim : option nat) : string :=
  match dim with
  | Some d => if d =? 512 then BASE_MODEL else LARGE_MODEL
  | None => LARGE_MODEL
  end.

(** X18.  The desktop application and the web server load the same model exactly
    when the store reports a dimension of 512 or 768.  On a store that
    reports none (['auto'], a fresh database) the application loads the base
    model and the server the large one. *)
Theorem front_ends_agree_on_model (dim : option nat) :
  (app_model dim = server_model dim <-> dim = Some 512 \/ dim = Some 768)
  /\ app_model None = BASE_MODEL
  /\ server_model None = LARGE_MODEL.
Proof.
  split; [|done]. destruct dim as [d|]; simpl.
  - destruct (d =? 512) eqn:E512.
    + apply Nat.eqb_eq in E512. subst. split; [by left|done].
    + destruct (d =? 768) eqn:E768.
      * apply Nat.eqb_eq in E768. subst. split; [by right|done].
      * apply Nat.eqb_neq in E512, E768. split; [done|].
        intros [[= ->]|[= ->]]; done.
  - split; [done|]. by intros [|].
Qed.

End FrontEnds.

(* ===================================================================== *)
(** * index.py *)
(* ===================================================================== *)

Module Indexer.

Import Np Scanner Database.

(** [str(n)] for an [int]. *)
Definition str_of_Z (z : Z) : string := NilEmpty.string_of_int (Z.to_int z).

Section WithPipeline.

(** The collaborators of the pipeline: SHA-256 and [str.lower()]; the
    collection's [add]; the frame sampler's [sample_video(path, max_frames)];
    writing the sampled frames to a fresh temporary directory, which gives
    their paths; the embedder's [encode_images(paths, batch_size)]; and what
    becomes of the write of [.chronos_ignore]. *)
Variable sha256 : list byte -> string.
Variable lower : string -> string.
Variable T : Type.
Variable collection : Type.
Variable collection_add :
  collection -> list string -> ndarray T -> list metadata -> result unit * collection.
Variable frame : Type.
Variable sample_video :
  string -> option Z -> result (list (FrameSampler.SampledFrame frame)).
Variable save_frames : list (FrameSampler.SampledFrame frame) -> result (list string).
Variable encode_images : list string -> Z -> result (ndarray T).
Variable save_outcome : write_outcome.

Record ChronosIndexer : Type := mkIndexer {
  batch_size : Z;
  scanner : MediaScanner;
  database : VectorDatabase collection
}.

Definition with_database (self : ChronosIndexer) (db : VectorDatabase collection)
    : ChronosIndexer :=
  {| batch_size := batch_size self; scanner := scanner self; database := db |}.

Definition with_scanner (self : ChronosIndexer) (sc : MediaScanner) : ChronosIndexer :=
  {| batch_size := batch_size self; scanner := sc; database := database self |}.

Definition image_metadata (img : MediaFile) : metadata :=
  [("file_path", MStr (path img)); ("file_type", MStr (file_type img));
   ("size_bytes", MInt (Z.of_nat (size_bytes img)));
   ("modified_time", MFloat (modified_time img))].

Definition frame_metadata (video : MediaFile) (fr : FrameSampler.SampledFrame frame)
    : metadata :=
  [("file_path", MStr (path video)); ("file_type", MStr (file_type video));
   ("size_bytes", MInt (Z.of_nat (size_bytes video)));
   ("modified_time", MFloat (modified_time video));
   ("timestamp", MFloat (FrameSampler.timestamp fr));
   ("frame_number", MInt (FrameSampler.frame_number fr))].

(** [_index_images] *)
Definition _index_images (self : ChronosIndexer) (images : list MediaFile)
    : result unit * ChronosIndexer :=
  let image_paths := map path images in
  match encode_images image_paths (batch_size self) with
  | Raise e => (Raise e, self)
  | Ok embeddings =>
      let ids := map file_hash images in
      let metadatas := map image_metadata images in
      let '(r, db) := add_embeddings collection_add (database self) ids embeddings metadatas in
      (r, with_database self db)
  end.

(** The three lists [_index_videos] fills. *)
Record collected : Type := mkCollected {
  all_embeddings : list (ndarray T);
  all_ids : list string;
  all_metadatas : list metadata
}.

(** The loop [for i, frame in enumerate(frames)] that appends an id, a
    metadata dictionary and [frame_embeddings[i]] per frame.  An
    [IndexError] of [frame_embeddings[i]] ends it, by way of the enclosing
    [except], with the id and the dictionary of that frame already
    appended. *)
Fixpoint collect_frames (video : MediaFile)
    (frames : list (FrameSampler.SampledFrame frame)) (frame_embeddings : ndarray T)
    (i : nat) (acc : collected) : collected :=
  match frames with
  | [] => acc
  | fr :: rest =>
      let frame_id :=
        file_hash video +:+ "_f" +:+ str_of_Z (FrameSampler.frame_number fr) in
      let ids := all_ids acc ++ [frame_id] in
      let metadatas := all_metadatas acc ++ [frame_metadata video fr] in
      match row frame_embeddings i with
      | Raise _ => mkCollected (all_embeddings acc) ids metadatas
      | Ok e =>
          collect_frames video rest frame_embeddings (S i)
            (mkCollected (all_embeddings acc ++ [e]) ids metadatas)
      end
  end.

(** One iteration of [for video in videos]: the body of the [try], with
    [except Exception: ... continue] around it.  The removal of the
    temporary files comes after the appends and touches none of the three
    lists, whether it raises or not. *)
Definition collect_video (batch : Z) (max_frames_per_video : Z) (video : MediaFile)
    (acc : collected) : collected :=
  match sample_video (path video) (Some max_frames_per_video) with
  | Raise _ => acc
  | Ok [] => acc
  | Ok ((_ :: _) as frames) =>
      match save_frames frames with
      | Raise _ => acc
      | Ok temp_paths =>
          match encode_images temp_paths batch with
          | Raise _ => acc
          | Ok frame_embeddings => collect_frames video frames frame_embeddings 0 acc
          end
      end
  end.

(** [_index_videos] *)
Definition _index_videos (self : ChronosIndexer) (videos : list MediaFile)
    (max_frames_per_video : Z) : result unit * ChronosIndexer :=
  let acc :=
    foldl (fun acc video => collect_video (batch_size self) max_frames_per_video video acc)
          (mkCollected [] [] []) videos in
  match all_embeddings acc with
  | [] => (Ok tt, self)
  | _ :: _ =>
      match vstack (all_embeddings acc) with
      | Raise e => (Raise e, self)
      | Ok embeddings_array =>
          let '(r, db) :=
            add_embeddings collection_add (database self) (all_ids acc)
                           embeddings_array (all_metadatas acc) in
          (r, with_database self db)
      end
  end.

Definition is_type (t : string) (f : MediaFile) : bool := String.eqb (file_type f) t.

(** [index_directory]: the outcome and the indexer object after the run.
    The statistics printed and the model offload that follow the commit
    change neither the scanner nor the database and are left out. *)
Definition index_directory (self : ChronosIndexer) (rd : root_dir)
    (incremental : bool) (max_frames_per_video : Z) : result unit * ChronosIndexer :=
  let '(is_valid, message) := validate_path (scanner self) rd in
  if negb is_valid then (Raise (InvalidPath message), self)
  else
    match scan_directory sha256 lower (scanner self) rd incremental with
    | Raise e => (Raise e, self)
    | Ok [] => (Ok tt, self)
    | Ok ((_ :: _) as media_files) =>
        let images := List.filter (is_type "image") media_files in
        let videos := List.filter (is_type "video") media_files in
        let '(r1, self1) :=
          match images with
          | [] => (Ok tt, self)
          | _ :: _ => _index_images self images
          end in
        match r1 with
        | Raise e => (Raise e, self1)
        | Ok _ =>
            let '(r2, self2) :=
              match videos with
              | [] => (Ok tt, self1)
              | _ :: _ => _index_videos self1 videos max_frames_per_video
              end in
            match r2 with
            | Raise e => (Raise e, self2)
            | Ok _ =>
                (Ok tt,
                 with_scanner self2
                   (update_ignore_file save_outcome (scanner self2) media_files))
            end
        end
    end.

(** ** What a run does to the fingerprint set *)

Lemma index_images_scanner self images :
  scanner (_index_images self images).2 = scanner self.
Proof.
  unfold _index_images. destruct (encode_images _ _); [|done].
  by destruct (add_embeddings _ _ _ _ _).
Qed.

Lemma index_videos_scanner self videos max_frames_per_video :
  scanner (_index_videos self videos max_frames_per_video).2 = scanner self.
Proof.
  unfold _index_videos. destruct (all_embeddings _); [done|].
  destruct (vstack _); [|done]. by destruct (add_embeddings _ _ _ _ _).
Qed.

(** X19.  A run that raises, be it in validation, in the scan, in the embedder
    or in a write to the store, leaves the scanner, and so the fingerprint
    set, as it was: nothing is committed. *)
Lemma index_directory_raise_no_commit self rd incremental max_frames_per_video e :
  (index_directory self rd incremental max_frames_per_video).1 = Raise e ->
  scanner (index_directory self rd incremental max_frames_per_video).2 = scanner self.
Proof.
  unfold index_directory.
  destruct (validate_path _ _) as [is_valid message].
  destruct is_valid; simpl; [|done].
  destruct (scan_directory _ _ _ _) as [[|mf mfs]|]; [done| |done].
  set (images := List.filter _ (mf :: mfs)). set (videos := List.filter _ (mf :: mfs)).
  assert (H1 : scanner (match images with
                        | [] => (Ok tt, self)
                        | _ :: _ => _index_images self images
                        end).2 = scanner self).
  { destruct images; [done|]. apply index_images_scanner. }
  destruct (match images with [] => _ | _ => _ end) as [r1 self1].
  simpl in H1. destruct r1; [|by intros _].
  assert (H2 : scanner (match videos with
                        | [] => (Ok tt, self1)
                        | _ :: _ => _index_videos self1 videos max_frames_per_video
                        end).2 = scanner self1).
  { destruct videos; [done|]. apply index_videos_scanner. }
  destruct (match videos with [] => _ | _ => _ end) as [r2 self2].
  simpl in H2. destruct r2; [done|]. intros _. simpl. congruence.
Qed.

(** X20.  A run that ends normally commits once, and commits the fingerprint of
    every scanned media file, whatever became of the file during the run. *)
Lemma index_directory_commits_all self rd incremental max_frames_per_video media_files :
  scan_directory sha256 lower (scanner self) rd incremental = Ok media_files ->
  media_files <> [] ->
  (index_directory self rd incremental max_frames_per_video).1 = Ok tt ->
  indexed_files (scanner (index_directory self rd incremental max_frames_per_video).2)
  = indexed_files (scanner self) ∪ list_to_set (map file_hash media_files).
Proof.
  intros Hscan Hne. unfold index_directory.
  assert (Hvalid : (validate_path (scanner self) rd).1 = true).
  { unfold scan_directory in Hscan.
    destruct (validate_path _ _) as [[] ?]; simpl in *; done. }
  destruct (validate_path _ _) as [is_valid message]. simpl in Hvalid. subst is_valid.
  simpl. rewrite Hscan. destruct media_files as [|mf mfs]; [done|].
  set (images := List.filter _ (mf :: mfs)). set (videos := List.filter _ (mf :: mfs)).
  assert (H1 : scanner (match images with
                        | [] => (Ok tt, self)
                        | _ :: _ => _index_images self images
                        end).2 = scanner self).
  { destruct images; [done|]. apply index_images_scanner. }
  destruct (match images with [] => _ | _ => _ end) as [r1 self1].
  simpl in H1. destruct r1; [|done].
  assert (H2 : scanner (match videos with
                        | [] => (Ok tt, self1)
                        | _ :: _ => _index_videos self1 videos max_frames_per_video
                        end).2 = scanner self1).
  { destruct videos; [done|]. apply index_videos_scanner. }
  destruct (match videos with [] => _ | _ => _ end) as [r2 self2].
  simpl in H2. destruct r2; [|done]. intros _. simpl.
  rewrite H2, H1. done.
Qed.

(** ** What [_index_videos] collects *)

(** The id of a frame record: [f"{video.file_hash}_f{frame.frame_number}"]. *)
Definition frame_id (video : MediaFile) (fr : FrameSampler.SampledFrame frame) : string :=
  file_hash video +:+ "_f" +:+ str_of_Z (FrameSampler.frame_number fr).

(** The frames of a video that reach the lists: those sampled, provided
    they could be saved and encoded; none otherwise. *)
Definition usable_frames (batch : Z) (max_frames_per_video : Z) (video : MediaFile)
    : list (FrameSampler.SampledFrame frame) :=
  match sample_video (path video) (Some max_frames_per_video) with
  | Raise _ => []
  | Ok frames =>
      match save_frames frames with
      | Raise _ => []
      | Ok temp_paths =>
          match encode_images temp_paths batch with
          | Raise _ => []
          | Ok _ => frames
          end
      end
  end.

(** The videos as the loop of [_index_videos] folds over them. *)
Definition collect_videos (batch : Z) (max_frames_per_video : Z)
    (videos : list MediaFile) (acc : collected) : collected :=
  foldl (fun acc video => collect_video batch max_frames_per_video video acc) acc videos.

Lemma collect_video_unusable batch max_frames_per_video video acc :
  usable_frames batch max_frames_per_video video = [] ->
  collect_video batch max_frames_per_video video acc = acc.
Proof.
  unfold usable_frames, collect_video.
  destruct (sample_video _ _) as [[|fr frames]|]; [done| |done].
  destruct (save_frames _) as [temp_paths|]; [|done].
  destruct (encode_images _ _); done.
Qed.

(** [_index_videos] is the fold of [collect_video], then one write. *)
Lemma index_videos_collects self videos max_frames_per_video :
  _index_videos self videos max_frames_per_video
  = let acc := collect_videos (batch_size self) max_frames_per_video videos
                              (mkCollected [] [] []) in
    match all_embeddings acc with
    | [] => (Ok tt, self)
    | _ :: _ =>
        match vstack (all_embeddings acc) with
        | Raise e => (Raise e, self)
        | Ok embeddings_array =>
            let '(r, db) :=
              add_embeddings collection_add (database self) (all_ids acc)
                             embeddings_array (all_metadatas acc) in
            (r, with_database self db)
        end
    end.
Proof. reflexivity. Qed.

(** X21.  A video that cannot be sampled, gives no frame, or whose frames cannot
    be saved or encoded is passed over: [_index_videos] does exactly what it
    does without that video, for the videos before it and after it alike. *)
Theorem failed_video_is_skipped (self : ChronosIndexer) (before after : list MediaFile)
    (video : MediaFile) (max_frames_per_video : Z) :
  usable_frames (batch_size self) max_frames_per_video video = [] ->
  _index_videos self (before ++ video :: after) max_frames_per_video
  = _index_videos self (before ++ after) max_frames_per_video.
Proof.
  intros Hbad. unfold _index_videos. rewrite !foldl_app. simpl.
  by rewrite (collect_video_unusable _ _ _ _ Hbad).
Qed.

(** An array of one row, as [frame_embeddings[i]] is. *)
Definition one_row (a : ndarray T) : Prop := length (rows_of a) = 1.

Lemma row_in_range (a : ndarray T) (i : nat) :
  i < len a -> exists r, row a i = Ok (Arr1 r).
Proof.
  intros Hi. destruct a as [v|w rows]; simpl in *.
  - destruct (lookup_lt_is_Some_2 v i Hi) as [x Hx]. rewrite Hx. by eexists.
  - destruct (lookup_lt_is_Some_2 rows i Hi) as [r Hr]. rewrite Hr. by eexists.
Qed.

Lemma collect_frames_aligned video frames frame_embeddings i acc :
  i + length frames <= len frame_embeddings ->
  all_ids (collect_frames video frames frame_embeddings i acc)
    = all_ids acc ++ map (frame_id video) frames
  /\ all_metadatas (collect_frames video frames frame_embeddings i acc)
     = all_metadatas acc ++ map (frame_metadata video) frames
  /\ length (all_embeddings (collect_frames video frames frame_embeddings i acc))
     = length (all_embeddings acc) + length frames
  /\ (Forall one_row (all_embeddings acc) ->
      Forall one_row (all_embeddings (collect_frames video frames frame_embeddings i acc))).
Proof.
  revert i acc. induction frames as [|fr frames IH]; intros i acc Hlen; simpl.
  - rewrite !app_nil_r. repeat split; [lia|done].
  - simpl in Hlen. destruct (row_in_range frame_embeddings i) as [r Hr]; [lia|].
    rewrite Hr.
    destruct (IH (S i)
      (mkCollected (all_embeddings acc ++ [Arr1 r])
         (all_ids acc ++
            [file_hash video +:+ "_f" +:+ str_of_Z (FrameSampler.frame_number fr)])
         (all_metadatas acc ++ [frame_metadata video fr])))
      as (Hids & Hmetas & Hembs & Hrows); [lia|].
    simpl in *. rewrite Hids, Hmetas, Hembs, <- !app_assoc, length_app. simpl.
    repeat split; [lia|]. intros Hone. apply Hrows.
    apply Forall_app. split; [done|]. by repeat constructor.
Qed.

Section WithContracts.

(** What the pipeline relies on: as many temporary paths as frames, and as
    many embedding rows as paths. *)
Hypothesis save_frames_length :
  forall frames temp_paths,
    save_frames frames = Ok temp_paths -> length temp_paths = length frames.
Hypothesis encode_images_length :
  forall paths batch embeddings,
    encode_images paths batch = Ok embeddings -> len embeddings = length paths.

Lemma collect_video_aligned batch max_frames_per_video video acc :
  let acc' := collect_video batch max_frames_per_video video acc in
  let frames := usable_frames batch max_frames_per_video video in
  all_ids acc' = all_ids acc ++ map (frame_id video) frames
  /\ all_metadatas acc' = all_metadatas acc ++ map (frame_metadata video) frames
  /\ length (all_embeddings acc') = length (all_embeddings acc) + length frames
  /\ (Forall one_row (all_embeddings acc) -> Forall one_row (all_embeddings acc')).
Proof.
  unfold collect_video, usable_frames. simpl.
  destruct (sample_video _ _) as [[|fr frames]|]; simpl;
    try (rewrite !app_nil_r; repeat split; [lia|done]).
  - destruct (save_frames []); [destruct (encode_images _ _)|]; simpl;
      rewrite !app_nil_r; repeat split; try lia; done.
  - destruct (save_frames (fr :: frames)) as [temp_paths|] eqn:Hsave; simpl;
      [|rewrite !app_nil_r; repeat split; [lia|done]].
    destruct (encode_images temp_paths batch) as [frame_embeddings|] eqn:Henc; simpl;
      [|rewrite !app_nil_r; repeat split; [lia|done]].
    apply (collect_frames_aligned video (fr :: frames) frame_embeddings 0 acc).
    rewrite (encode_images_length _ _ _ Henc), (save_frames_length _ _ Hsave). simpl. lia.
Qed.

Lemma collect_videos_aligned batch max_frames_per_video videos acc :
  let acc' := collect_videos batch max_frames_per_video videos acc in
  all_ids acc'
    = all_ids acc
      ++ flat_map (fun v => map (frame_id v) (usable_frames batch max_frames_per_video v))
                  videos
  /\ all_metadatas acc'
     = all_metadatas acc
       ++ flat_map (fun v => map (frame_metadata v)
                                 (usable_frames batch max_frames_per_video v)) videos
  /\ length (all_embeddings acc')
     = length (all_embeddings acc)
       + length (flat_map (fun v => map (frame_id v)
                                        (usable_frames batch max_frames_per_video v))
                          videos)
  /\ (Forall one_row (all_embeddings acc) -> Forall one_row (all_embeddings acc')).
Proof.
  revert acc. induction videos as [|v videos IH]; intros acc; simpl.
  - rewrite !app_nil_r. repeat split; [lia|done].
  - destruct (collect_video_aligned batch max_frames_per_video v acc)
      as (Hids & Hmetas & Hembs & Hrows).
    destruct (IH (collect_video batch max_frames_per_video v acc))
      as (Hids' & Hmetas' & Hembs' & Hrows').
    simpl in *. unfold collect_videos in *.
    rewrite Hids', Hmetas', Hids, Hmetas, Hembs', Hembs, <- !app_assoc.
    repeat split; [|auto].
    rewrite length_app, length_map. lia.
Qed.

Lemma vstack_one_rows (arrays : list (ndarray T)) (stacked : ndarray T) :
  Forall one_row arrays -> vstack arrays = Ok stacked -> len stacked = length arrays.
Proof.
  intros Hone.
  assert (Hrows : length (concat (map rows_of arrays)) = length arrays).
  { clear -Hone. induction Hone as [|b bs Hb _ IH]; [done|].
    simpl. rewrite length_app, IH. unfold one_row in Hb. by rewrite Hb. }
  unfold vstack. destruct arrays as [|a rest]; [done|].
  destruct (forallb _ rest); [|done]. by intros [= <-].
Qed.

(** X22.  The three lists [_index_videos] hands to [add_embeddings] are aligned:
    over all videos in order, one id [<hash>_f<frame number>] and one
    metadata dictionary per usable frame, and as many embedding rows; the
    stacked array has that many rows, so the length check of
    [add_embeddings] never fires on them. *)
Theorem video_records_are_aligned (batch max_frames_per_video : Z)
    (videos : list MediaFile) :
  let acc := collect_videos batch max_frames_per_video videos (mkCollected [] [] []) in
  all_ids acc
    = flat_map (fun v => map (frame_id v) (usable_frames batch max_frames_per_video v))
               videos
  /\ all_metadatas acc
     = flat_map (fun v => map (frame_metadata v)
                              (usable_frames batch max_frames_per_video v)) videos
  /\ length (all_embeddings acc) = length (all_ids acc)
  /\ forall embeddings_array,
       vstack (all_embeddings acc) = Ok embeddings_array ->
       len embeddings_array = length (all_ids acc)
       /\ length_guard (all_ids acc) embeddings_array (all_metadatas acc) = false.
Proof.
  intros acc.
  destruct (collect_videos_aligned batch max_frames_per_video videos
              (mkCollected [] [] [])) as (Hids & Hmetas & Hembs & Hrows).
  fold acc in Hids, Hmetas, Hembs, Hrows. simpl in *.
  assert (Hlen : length (all_embeddings acc) = length (all_ids acc))
    by (by rewrite Hembs, Hids).
  split; [done|]. split; [done|]. split; [done|].
  intros arr Hstack.
  assert (Harr : len arr = length (all_ids acc)).
  { rewrite <- Hlen. apply vstack_one_rows; [|done]. apply Hrows. constructor. }
  split; [done|]. unfold length_guard. by rewrite Harr, Nat.eqb_refl.
Qed.

End WithContracts.

(** ** Running again *)

(** X23.  After a run that ended normally, an incremental run over the same
    directory finds nothing to do: it ends normally and leaves the indexer,
    its store and its fingerprint set alike, exactly as the first run left
    them. *)
Theorem incremental_rerun_is_noop (self self' : ChronosIndexer) (rd : root_dir)
    (incremental : bool) (max_frames_per_video max_frames_per_video' : Z) :
  index_directory self rd incremental max_frames_per_video = (Ok tt, self') ->
  index_directory self' rd true max_frames_per_video' = (Ok tt, self').
Proof.
  unfold index_directory, scan_directory.
  destruct (validate_path (scanner self) rd) as [is_valid message] eqn:Hval.
  destruct is_valid; simpl; [|done].
  set (entries := walk (root_path (scanner self)) (rd_tree rd)).
  rewrite (scan_files_spec sha256 lower (scanner self) incremental entries).
  destruct (first_missing lower (scanner self) entries) eqn:Hstat; [done|].
  destruct (discovered sha256 lower (scanner self) incremental entries)
    as [|mf mfs] eqn:Hscan.
  - intros [= <-]. rewrite Hval. simpl. fold entries.
    rewrite scan_files_spec, Hstat.
    assert (Hnone : discovered sha256 lower (scanner self) true entries = []).
    { destruct incremental; [done|]. by rewrite discovered_incremental, Hscan. }
    by rewrite Hnone.
  - set (images := List.filter _ (mf :: mfs)). set (videos := List.filter _ (mf :: mfs)).
    assert (H1 : scanner (match images with
                          | [] => (Ok tt, self)
                          | _ :: _ => _index_images self images
                          end).2 = scanner self).
    { destruct images; [done|]. apply index_images_scanner. }
    destruct (match images with [] => _ | _ => _ end) as [r1 self1].
    simpl in H1. destruct r1; [|done].
    assert (H2 : scanner (match videos with
                          | [] => (Ok tt, self1)
                          | _ :: _ => _index_videos self1 videos max_frames_per_video
                          end).2 = scanner self1).
    { destruct videos; [done|]. apply index_videos_scanner. }
    destruct (match videos with [] => _ | _ => _ end) as [r2 self2].
    simpl in H2. destruct r2; [|done]. intros [= <-]. simpl.
    rewrite H2, H1.
    replace (validate_path (update_ignore_file save_outcome (scanner self) (mf :: mfs)) rd)
      with (validate_path (scanner self) rd) by reflexivity.
    rewrite Hval. simpl. fold entries.
    rewrite scan_files_spec, first_missing_update, Hstat.
    rewrite discovered_all_indexed; [done|].
    intros p f Hin Hext. rewrite indexed_files_update, <- Hscan.
    by apply discovered_hashes_covered.
Qed.

End WithPipeline.

Arguments mkIndexer {collection} _ _ _.
Arguments batch_size {collection} _.
Arguments scanner {collection} _.
Arguments database {collection} _.
Arguments all_embeddings {T} _.
Arguments all_ids {T} _.
Arguments all_metadatas {T} _.

End Indexer.

(* ===================================================================== *)
(** * Concrete runs *)
(* ===================================================================== *)

Module Examples.

Import Np.

(** A stand-in for SHA-256 on the small fixtures below: the bytes
    themselves, read as a string. *)
Definition toy_digest (data : list byte) : string := string_of_list_byte data.

(** [str.lower()] on the UTF-8 text of the fixtures below.  The ASCII
    capitals are folded, and so is KELVIN SIGN (U+212A, the bytes E2 84 AA),
    the one character outside ASCII whose lower case is made of ASCII
    letters; any other character is left as it is, as [str.lower()] leaves
    every other character of the names used here. *)
Definition lower_ascii (c : ascii) : ascii :=
  let n := nat_of_ascii c in
  if (65 <=? n)%nat && (n <=? 90)%nat then ascii_of_nat (n + 32) else c.

Fixpoint lower_utf8 (s : string) : string :=
  match s with
  | EmptyString => EmptyString
  | String "226" (String "132" (String "170" s')) => String "k" (lower_utf8 s')
  | String c s' => String (lower_ascii c) (lower_utf8 s')
  end.

(** ** Scanner: the directory of [tests/test_scanner.py] *)

Section ScannerRuns.

Import Scanner.

Definition sample_file (name content : string) : file :=
  File name (list_byte_of_string content) Readable 0.

Definition temp_media_dir : tree :=
  Node [sample_file "video1.mp4" "fake video content 1";
        sample_file "video2.mov" "fake video content 2";
        sample_file "image1.jpg" "fake image content 1";
        sample_file "image2.png" "fake image content 2";
        sample_file "document.txt" "not a media file"]
       [("subfolder",
         Node [sample_file "video3.mkv" "fake video content 3";
               sample_file "image3.webp" "fake image content 3"] [])].

Definition new_video : file := sample_file "new_video.mp4" "new video content".

(** The same directory after [new_video.mp4] was written into its root. *)
Definition temp_media_dir_grown : tree :=
  Node [sample_file "video1.mp4" "fake video content 1";
        sample_file "video2.mov" "fake video content 2";
        sample_file "image1.jpg" "fake image content 1";
        sample_file "image2.png" "fake image content 2";
        sample_file "document.txt" "not a media file";
        new_video]
       [("subfolder",
         Node [sample_file "video3.mkv" "fake video content 3";
               sample_file "image3.webp" "fake image content 3"] [])].

Definition temp_root : root_dir := RootDir true true true true temp_media_dir.
Definition temp_scanner : MediaScanner := new_scanner lower_utf8 "/tmp/media" None.

Definition first_scan : list MediaFile :=
  discovered toy_digest lower_utf8 temp_scanner false (walk "/tmp/media" temp_media_dir).

(** [test_scan_discovers_media_files]: six media files, three of each type. *)
Example scan_discovers_media_files :
  scan_directory toy_digest lower_utf8 temp_scanner temp_root false = Ok first_scan
  /\ length first_scan = 6
  /\ map file_type first_scan = ["video"; "video"; "image"; "image"; "video"; "image"].
Proof. vm_compute. done. Qed.

(** [test_incremental_scanning_new_files], through the theorem: after the
    first scan is committed and [new_video.mp4] is added, the incremental
    scan returns that one file. *)
Lemma incremental_rescan_finds_new_video :
  scan_directory toy_digest lower_utf8 (update_ignore_file Written temp_scanner first_scan)
    (RootDir true true true true temp_media_dir_grown) true
  = Ok [media_file_of toy_digest lower_utf8 temp_scanner "/tmp/media/new_video.mp4" new_video].
Proof.
  destruct (incremental_scan_is_fingerprint_dedup toy_digest lower_utf8
              temp_scanner temp_root) as (_ & _ & _ & _ & _ & Hone_new).
  apply (Hone_new false Written first_scan temp_media_dir_grown
           (take 5 (walk "/tmp/media" temp_media_dir))
           (drop 5 (walk "/tmp/media" temp_media_dir))).
  - reflexivity.
  - reflexivity.
  - reflexivity.
  - reflexivity.
  - reflexivity.
  - refine (bool_decide_unpack _ _). vm_compute. exact I.
Defined.

End ScannerRuns.

(** ** Frame sampler *)

Section SamplerRuns.

Import FrameSampler.

(** Frames are stood for by their position in the stream; the colour
    conversion is the identity on them. *)
Definition same_frame (fr : nat) : nat := fr.

(** A two-second NTSC clip, 29.97 frames per second, and the default
    sampler at one frame per second. *)
Definition ntsc_clip : VideoCapture nat := mkCapture true (2997 # 100) 60 (seq 0 60).
Definition one_fps : FrameSampler := mkSampler "fixed_interval" 1 27 15.

(** C5, the claim as stated fails: at 29.97 frames per second the code's
    interval is [int(29.97) = 29] where [round(29.97)] is 30, and the
    sampler returns frames 0, 29 and 58; frame 29 is not a multiple of 30,
    and frame 30 is not returned. *)
Lemma fixed_interval_truncates :
  frame_interval_of one_fps (CAP_PROP_FPS ntsc_clip) = Ok 29%Z
  /\ py_round (CAP_PROP_FPS ntsc_clip / fps one_fps) = 30%Z
  /\ frame_interval_of one_fps (CAP_PROP_FPS ntsc_clip)
     <> Ok (py_round (CAP_PROP_FPS ntsc_clip / fps one_fps))
  /\ map frame_number <$> _sample_fixed_interval same_frame one_fps "clip.mp4"
                            ntsc_clip (Some 30%Z)
     = Ok [0; 29; 58]%Z.
Proof. vm_compute. repeat split; discriminate. Qed.

Lemma fixed_interval_sampling_ntsc :
  _sample_fixed_interval same_frame one_fps "clip.mp4" ntsc_clip (Some 2%Z)
  = Ok [mkSampledFrame 0 (0 / (2997 # 100)) 0%Z;
        mkSampledFrame 29 (29 / (2997 # 100)) 29%Z].
Proof.
  destruct (fixed_interval_sampling nat same_frame one_fps "clip.mp4" ntsc_clip
              (Some 2%Z) 29%Z) as (_ & Hrun & _).
  - reflexivity.
  - vm_compute. reflexivity.
  - reflexivity.
  - intros m [= <-]. reflexivity.
  - exact Hrun.
Defined.

(** [Binary64.div] against the division of the Standard Library's
    specification of IEEE 754 floats, [SpecFloat.SFdiv] at 53 bits: the same
    doubles for 0.3 / 0.1, 1.2 / 0.4, 30.0 / 0.1, 29.97 / 1.0, 1.0 / 3.0,
    for quotients that fall among the subnormal numbers or to zero, and for
    one beyond the largest double. *)
Definition of_spec_float (x : SpecFloat.spec_float) : Binary64.float :=
  match x with
  | SpecFloat.S754_zero _ => Binary64.Finite 0
  | SpecFloat.S754_infinity negative => Binary64.Infinity negative
  | SpecFloat.S754_nan => Binary64.NaN
  | SpecFloat.S754_finite negative m e =>
      Binary64.Finite
        (Qred (inject_Z (if negative then Zneg m else Zpos m) * Binary64.pow2 e))
  end.

Definition sample_quotients : list (SpecFloat.spec_float * SpecFloat.spec_float) :=
  [
   (SpecFloat.S754_finite false 5404319552844595 (-54), SpecFloat.S754_finite false 7205759403792794 (-56));
   (SpecFloat.S754_finite false 5404319552844595 (-52), SpecFloat.S754_finite false 7205759403792794 (-54));
   (SpecFloat.S754_finite false 8444249301319680 (-48), SpecFloat.S754_finite false 7205759403792794 (-56));
   (SpecFloat.S754_finite false 8435805052018360 (-48), SpecFloat.S754_finite false 4503599627370496 (-52));
   (SpecFloat.S754_finite false 4503599627370496 (-52), SpecFloat.S754_finite false 6755399441055744 (-51));
   (SpecFloat.S754_finite false 1 (-1074), SpecFloat.S754_finite false 6755399441055744 (-51));
   (SpecFloat.S754_finite false 6032057205060441 (-1049), SpecFloat.S754_finite false 6724873095247260 (944));
   (SpecFloat.S754_finite false 6724873095247260 (944), SpecFloat.S754_finite false 6032057205060441 (-1049));
   (SpecFloat.S754_finite false 4503599627370496 (-53), SpecFloat.S754_finite false 4503599627370496 (-52));
   (SpecFloat.S754_finite false 6748644041614688 (-48), SpecFloat.S754_finite false 4503599627370496 (-53))
  ].

Definition same_float (x y : Binary64.float) : bool :=
  match x, y with
  | Binary64.Finite a, Binary64.Finite b =>
      (Qnum a =? Qnum b)%Z && (Qden a =? Qden b)%positive
  | Binary64.Infinity s, Binary64.Infinity t => Bool.eqb s t
  | Binary64.NaN, Binary64.NaN => true
  | _, _ => false
  end.

Example division_agrees_with_SpecFloat :
  forallb (fun xy =>
             same_float (Binary64.div (of_spec_float xy.1) (of_spec_float xy.2))
                        (of_spec_float (SpecFloat.SFdiv 53 1024 xy.1 xy.2)))
          sample_quotients
  = true.
Proof. vm_compute. reflexivity. Qed.

(** The quotient is the machine's: [0.3 / 0.1] and [1.2 / 0.4] are the
    double [2.9999999999999996], which [int] cuts to 2, and [30.0 / 0.1] is
    the double 300, although the double written [0.1] lies above 1/10.  A
    clip reported at 0.3 frames per second and sampled at 0.1 gives the
    frames 0, 2 and 4. *)
Definition tenth_fps : FrameSampler := mkSampler "fixed_interval" (1 # 10) 27 15.

Example double_quotient_is_truncated :
  frame_interval_of tenth_fps (3 # 10) = Ok 2%Z
  /\ frame_interval_of (mkSampler "fixed_interval" (4 # 10) 27 15) (12 # 10) = Ok 2%Z
  /\ frame_interval_of tenth_fps 30 = Ok 300%Z
  /\ map frame_number <$> _sample_fixed_interval same_frame tenth_fps "slow.mp4"
                            (mkCapture true (3 # 10) 6 (seq 0 6)) None
     = Ok [0; 2; 4]%Z.
Proof. vm_compute. repeat split. Qed.

(** A clip the decoder reports at half a frame per second. *)
Definition slow_clip : VideoCapture nat := mkCapture true (1 # 2) 3 [0; 1; 2].

Lemma slow_clip_division_by_zero :
  frame_interval_of one_fps (CAP_PROP_FPS slow_clip) = Ok 0%Z
  /\ _sample_fixed_interval same_frame one_fps "slow.mp4" slow_clip (Some 30%Z)
     = Raise ZeroDivisionError.
Proof.
  destruct (fixed_interval_division_by_zero nat same_frame one_fps "slow.mp4"
              slow_clip (Some 30%Z)) as [Hinterval Hraise].
  - reflexivity.
  - vm_compute. reflexivity.
  - vm_compute. reflexivity.
  - split; [exact Hinterval|]. apply Hraise. discriminate.
Defined.

End SamplerRuns.

(** ** A list-backed collection *)

(** A stand-in for the ChromaDB collection: the records in insertion order.
    Its [add] refuses ids, embeddings and metadatas of different lengths as
    ChromaDB does, and otherwise stores them side by side; its [get] answers
    as ChromaDB does when no [include] is given, without embeddings; its
    [query] ranks nothing and returns the first [n_results] records at the
    distances a table gives. *)
Definition records : Type := list (string * list Z * Database.metadata).

Fixpoint zip3 (ids : list string) (rows : list (list Z))
    (metadatas : list Database.metadata) : records :=
  match ids, rows, metadatas with
  | i :: ids', r :: rows', m :: metadatas' => (i, r, m) :: zip3 ids' rows' metadatas'
  | _, _, _ => []
  end.

Definition records_add (c : records) (ids : list string) (embeddings : ndarray Z)
    (metadatas : list Database.metadata) : result unit * records :=
  if (length ids =? length (rows_of embeddings))
     && (length (rows_of embeddings) =? length metadatas)
  then (Ok tt, c ++ zip3 ids (rows_of embeddings) metadatas)
  else (Raise (External "ValueError: Unequal lengths for fields"), c).

Definition records_get (c : records) (fid : string) : result (Database.get_result Z) :=
  match List.filter (fun rec => String.eqb rec.1.1 fid) c with
  | [] => Ok (Database.mkGetResult [] None (Some []))
  | (i, v, m) :: _ => Ok (Database.mkGetResult [i] None (Some [m]))
  end.

Lemma records_add_checks_lengths : Database.add_checks_lengths Z records records_add.
Proof.
  intros c ids embeddings metadatas Hlen. unfold records_add.
  destruct (length ids =? length (rows_of embeddings)) eqn:H1; simpl.
  - destruct (length (rows_of embeddings) =? length metadatas) eqn:H2; [|by eexists].
    apply Nat.eqb_eq in H1, H2. by destruct Hlen.
  - by eexists.
Qed.

Lemma records_get_omits_embeddings : Search.get_omits_embeddings Z records records_get.
Proof.
  intros c fid res. unfold records_get.
  destruct (List.filter _ c) as [|[[i v] m] rest]; by intros [= <-].
Qed.

Definition records_query (distance : string -> Q) (c : records) (query : ndarray Z)
    (n_results : Z) (where_ : option Database.metadata) : result (list Database.hit) :=
  Ok (map (fun rec => Database.mkHit rec.1.1 rec.2 (distance rec.1.1))
          (take (Z.to_nat n_results) c)).

Section DatabaseRuns.

Import Database.

Definition empty_store : VectorDatabase records := mkDatabase None [].

Definition clip_vector (d : nat) : ndarray Z := Arr2 d [repeat 0%Z d].

(** The first write, 512 wide, fixes the dimension; a write 768 wide is then
    refused and the store stays as the first write left it. *)
Lemma dimension_lock_512_768 :
  let locked := (add_embeddings records_add empty_store ["a"] (clip_vector 512) [[]]).2 in
  embedding_dim locked = Some 512
  /\ add_embeddings records_add locked ["b"] (clip_vector 768) [[]]
     = (Raise (DimensionMismatch 512 768), locked).
Proof.
  destruct (dimension_lock Z records records_add empty_store ["a"] (clip_vector 512)
              [[]] eq_refl eq_refl) as [Hdim Hlater].
  split; [exact Hdim|].
  destruct (Hlater [] ["b"] (clip_vector 768) [[]]) as [_ Hrefused].
  destruct Hrefused as (e & Heq & He); [discriminate|].
  rewrite (He eq_refl) in Heq. exact Heq.
Defined.

(** One id, two vectors and two metadata dictionaries: the length check of
    [add_embeddings] lets them through, the collection refuses them, and
    the store is as before. *)
Lemma short_ids_are_refused :
  length_guard ["a"] (Arr2 2 [[1; 0]; [0; 1]]%Z) [[]; []] = false
  /\ exists e,
       add_embeddings records_add (mkDatabase (Some 2) []) ["a"]
                      (Arr2 2 [[1; 0]; [0; 1]]%Z) [[]; []]
       = (Raise e, mkDatabase (Some 2) []).
Proof.
  split; [reflexivity|].
  destruct (unequal_lengths_write_nothing Z records records_add
              (mkDatabase (Some 2) []) ["a"] (Arr2 2 [[1; 0]; [0; 1]]%Z) [[]; []])
    as (e & Hraise & Hcoll & _).
  - exact records_add_checks_lengths.
  - simpl. intros [Hlen _]. discriminate Hlen.
  - exists e. revert Hraise Hcoll.
    destruct (add_embeddings _ _ _ _ _) as [r [dim c]] eqn:Hrun. simpl.
    intros -> ->. f_equal. f_equal.
    apply (f_equal (fun x => embedding_dim x.2)) in Hrun. simpl in Hrun.
    by rewrite <- Hrun.
Defined.

End DatabaseRuns.

(** ** Embedder *)

Section EmbedderRuns.

Import Embedder.

(** Every path loads, to the same image, but ["broken.jpg"]; the features
    of an image are the one-dimensional vector (1). *)
Definition load_toy (p : string) : option unit :=
  if String.eqb p "broken.jpg" then None else Some tt.

Definition features_toy (images : list unit) : list (list R) :=
  map (fun _ => [1%R]) images.

(** A loader that stands for an image by its path, and a provider whose
    feature row tells the images apart: (1, 1) for [a.jpg], (2, 1) for
    [b.jpg], (3, 1) for [d.jpg] and (4, 1) for any other. *)
Definition load_named (p : string) : option string :=
  if String.eqb p "broken.jpg" then None else Some p.

Definition features_of (img : string) : list R :=
  [if String.eqb img "a.jpg" then 1%R
   else if String.eqb img "b.jpg" then 2%R
   else if String.eqb img "d.jpg" then 3%R
   else 4%R; 1%R].

Definition features_named (images : list string) : list (list R) :=
  map features_of images.

Definition five_paths : list string :=
  ["a.jpg"; "b.jpg"; "broken.jpg"; "d.jpg"; "e.jpg"].

(** Five paths, the third unreadable, in batches of two: five rows, the
    third of them the zero vector, the fourth the normalised features of
    [d.jpg], which the provider returned first for the second batch. *)
Lemma encode_five_paths_third_unreadable :
  exists rows,
    encode_images string load_named features_named 2 five_paths 2 = Ok (Arr2 2 rows)
    /\ length rows = 5
    /\ rows !! 2 = Some [0%R; 0%R]
    /\ rows !! 3 = Some (normalize_row (features_of "d.jpg")).
Proof.
  pose proof (encode_images_aligned string load_named features_named 2) as Haligned.
  specialize (Haligned (fun images => length_map features_of images)).
  assert (Hshape : forall images,
    Forall (fun r => length r = 2 /\ l2norm r <> 0%R) (features_named images)).
  { intros images. apply Forall_fmap, Forall_forall. intros img _. simpl.
    split; [reflexivity|]. unfold l2norm, features_of, sum_squares. simpl.
    intros Hzero. apply sqrt_eq_0 in Hzero.
    - destruct (String.eqb img "a.jpg"), (String.eqb img "b.jpg"),
        (String.eqb img "d.jpg"); lra.
    - destruct (String.eqb img "a.jpg"), (String.eqb img "b.jpg"),
        (String.eqb img "d.jpg"); lra. }
  specialize (Haligned Hshape five_paths 2%Z ltac:(discriminate) ltac:(reflexivity)).
  cbv zeta in Haligned. destruct Haligned as (Heq & Hlen & Hzero & Hfeatures).
  eexists. split; [exact Heq|]. split; [exact Hlen|]. split.
  - exact (Hzero 2 "broken.jpg" eq_refl eq_refl).
  - destruct (Hfeatures 3 "d.jpg" "d.jpg" eq_refl eq_refl)
      as (features & _ & Hfound & Hrow & _).
    injection Hfound as <-. exact Hrow.
Defined.

End EmbedderRuns.

(** ** Search *)

Section SearchRuns.

Import Database Search.

Definition encode_text_toy (query : string) : result (ndarray Z) := Ok (Arr1 [1; 0]%Z).

(** Two indexed images; the second lies at cosine distance 3/2 from every
    query, the first at distance 0. *)
Definition two_images : records :=
  [("h1", [1; 0]%Z, [("file_path", MStr "/m/near.jpg")]);
   ("h2", [-1; 0]%Z, [("file_path", MStr "/m/far.jpg")])].

Definition distance_toy (fid : string) : Q := if String.eqb fid "h2" then 3 # 2 else 0.

Definition engine : SemanticSearch records := mkSearch (mkDatabase (Some 2) two_images).

(** C6, the claim as stated fails: with [min_score = 0] the result at
    distance 3/2, whose score is -1/2, is returned. *)
Lemma search_text_zero_threshold_unfiltered :
  search_text Z records (records_query distance_toy) encode_text_toy engine
              "sunset" 10 None 0
  = Ok [mkSearchResult "h1" (MStr "/m/near.jpg") (1 # 1) [("file_path", MStr "/m/near.jpg")];
        mkSearchResult "h2" (MStr "/m/far.jpg") (-1 # 2) [("file_path", MStr "/m/far.jpg")]]
  /\ ~ (forall results,
          search_text Z records (records_query distance_toy) encode_text_toy engine
                      "sunset" 10 None 0 = Ok results ->
          Forall (fun r => (0 <= similarity_score r)%Q) results).
Proof.
  split; [vm_compute; reflexivity|].
  intros Hall. specialize (Hall _ eq_refl).
  apply Forall_cons_1 in Hall as [_ Hall]. apply Forall_cons_1 in Hall as [Hneg _].
  revert Hneg. vm_compute. intros Hneg. by apply Hneg.
Qed.

(** With a positive threshold the same query keeps the first result only. *)
Example search_text_positive_threshold :
  map file_id <$> search_text Z records (records_query distance_toy) encode_text_toy
                    engine "sunset" 10 None (1 # 5)
  = Ok ["h1"].
Proof. vm_compute. reflexivity. Qed.

(** ["h1"] is an indexed item, stored with its vector, and a query by that
    vector would have neighbours to return; [get_similar_files] says it is
    not in the database. *)
Lemma similar_files_of_indexed_item :
  "h1" ∈ map (fun rec => rec.1.1) (coll (database engine))
  /\ get_similar_files Z records (records_query distance_toy) records_get engine "h1" 1
     = Raise (FileNotInDatabase "h1").
Proof.
  split; [apply list_elem_of_here|].
  apply (similar_files_never_finds_vector Z records (records_query distance_toy)
           records_get engine "h1" 1).
  exact records_get_omits_embeddings.
Defined.

End SearchRuns.

(** ** Indexing run *)

Section IndexerRuns.

Import Scanner Database Indexer.

(** A directory with one image and two videos: [broken.mp4] cannot be
    decoded, and no frame comes out of [empty.mp4]. *)
Definition media_root : root_dir :=
  RootDir true true true true
    (Node [sample_file "photo.jpg" "photo bytes";
           sample_file "broken.mp4" "broken bytes";
           sample_file "empty.mp4" "empty bytes"] []).

Definition sample_video_toy (video_path : string) (max_frames : option Z)
    : result (list (FrameSampler.SampledFrame nat)) :=
  if String.eqb video_path "/m/broken.mp4" then Raise (CouldNotOpenVideo video_path)
  else Ok [].

Definition save_frames_toy (frames : list (FrameSampler.SampledFrame nat))
    : result (list string) :=
  Ok (imap (fun i _ => "/tmp/x/frame_" +:+ str_of_Z (Z.of_nat i) +:+ ".jpg") frames).

Definition encode_images_toy (paths : list string) (batch : Z) : result (ndarray Z) :=
  Ok (Arr2 2 (map (fun _ => [1; 0]%Z) paths)).

Definition fresh_indexer : ChronosIndexer records :=
  mkIndexer 32 (new_scanner lower_utf8 "/m" None) (mkDatabase (Some 2) []).

Definition run_once : result unit * ChronosIndexer records :=
  index_directory toy_digest lower_utf8 Z records records_add nat sample_video_toy
    save_frames_toy encode_images_toy Written fresh_indexer media_root true 30.

(** C1, what the code does.  The run ends normally; the store holds the
    photo's record alone; and the fingerprints of both videos, the one that
    failed to decode and the one that gave no frame, are in the fingerprint
    set after the run, which the ignore file records with three entries. *)
Theorem failed_videos_are_committed :
  run_once.1 = Ok tt
  /\ map (fun rec => rec.1.1) (coll (database run_once.2)) = ["photo bytes"]
  /\ "broken bytes" ∈ indexed_files (scanner run_once.2)
  /\ "empty bytes" ∈ indexed_files (scanner run_once.2)
  /\ (total_files <$> ignore_file (scanner run_once.2)) = Some 3.
Proof.
  split; [reflexivity|]. split; [reflexivity|].
  split; [refine (bool_decide_unpack _ _); vm_compute; exact I|].
  split; [refine (bool_decide_unpack _ _); vm_compute; exact I|].
  reflexivity.
Qed.

(** Had the write of the photo's record raised, nothing would have been
    committed. *)
Definition records_add_failing (c : records) (ids : list string)
    (embeddings : ndarray Z) (metadatas : list metadata) : result unit * records :=
  (Raise (External "store write failed"), c).

Example failed_write_commits_nothing :
  let run :=
    index_directory toy_digest lower_utf8 Z records records_add_failing nat sample_video_toy
      save_frames_toy encode_images_toy Written fresh_indexer media_root true 30 in
  run.1 = Raise (External "store write failed")
  /\ indexed_files (scanner run.2) = ∅.
Proof. split; reflexivity. Qed.

End IndexerRuns.

(** ** Further runs *)

Section MoreScannerRuns.

Import Scanner.

(** The first scan of the test directory returns media files of its walk. *)
Lemma first_scan_is_media_of_walk :
  map path first_scan
    `sublist_of` map fst (walk (root_path temp_scanner) (rd_tree temp_root))
  /\ Forall (fun mf => file_type mf = "video" \/ file_type mf = "image") first_scan.
Proof.
  destruct (scan_returns_media_files_of_walk toy_digest lower_utf8 temp_scanner temp_root false
              first_scan eq_refl) as [Hall Hsub].
  split; [exact Hsub|].
  eapply Forall_impl; [exact Hall|].
  intros mf (p & f & _ & _ & _ & _ & Htype). exact Htype.
Defined.

(** A media file inside [.cache] is not found, and pruning the hidden
    directory is what the scan amounts to. *)
Example hidden_directory_is_not_scanned :
  scan_directory toy_digest lower_utf8 temp_scanner
    (RootDir true true true true
       (Node [sample_file "a.jpg" "a"]
             [(".cache", Node [sample_file "thumb.jpg" "t"] [])])) false
  = Ok [media_file_of toy_digest lower_utf8 temp_scanner "/tmp/media/a.jpg" (sample_file "a.jpg" "a")]
  /\ without_hidden (Node [sample_file "a.jpg" "a"]
                          [(".cache", Node [sample_file "thumb.jpg" "t"] [])])
     = Node [sample_file "a.jpg" "a"] [].
Proof. split; reflexivity. Qed.

(** A name whose suffix is written with KELVIN SIGN, [clip.m\u212av]:
    [str.lower()] makes the suffix [.mkv], and the file is a video. *)
Definition kelvin_clip : file :=
  File ("clip.m" +:+ String "226" (String "132" (String "170" "v")))
       (list_byte_of_string "clip") Readable 0.

Example kelvin_sign_suffix_is_a_video :
  map file_type
    <$> scan_directory toy_digest lower_utf8 temp_scanner
          (RootDir true true true true (Node [kelvin_clip] [])) false
  = Ok ["video"].
Proof. vm_compute. reflexivity. Qed.

(** A dangling symbolic link with a media name ends the scan under a valid
    root; one with another name is passed over like any other file. *)
Example dangling_link_ends_the_scan :
  scan_directory toy_digest lower_utf8 temp_scanner
    (RootDir true true true true
       (Node [sample_file "a.jpg" "a"; File "gone.mp4" [] Missing 0;
              sample_file "b.jpg" "b"] [])) false
  = Raise (FileNotFound "/tmp/media/gone.mp4")
  /\ map path
       <$> scan_directory toy_digest lower_utf8 temp_scanner
             (RootDir true true true true
                (Node [sample_file "a.jpg" "a"; File "gone.txt" [] Missing 0;
                       sample_file "b.jpg" "b"] [])) false
     = Ok ["/tmp/media/a.jpg"; "/tmp/media/b.jpg"].
Proof. split; vm_compute; reflexivity. Qed.

(** [video1.mp4] of the committed first scan, moved into the subfolder under
    another name: the incremental scan leaves it out.  Were it a file that
    cannot be opened, its fingerprint would be that of its path and size,
    and the move would make it new. *)
Definition temp_media_dir_moved : tree :=
  Node [sample_file "video2.mov" "fake video content 2";
        sample_file "image1.jpg" "fake image content 1";
        sample_file "image2.png" "fake image content 2";
        sample_file "document.txt" "not a media file"]
       [("subfolder",
         Node [sample_file "renamed.mp4" "fake video content 1";
               sample_file "video3.mkv" "fake video content 3";
               sample_file "image3.webp" "fake image content 3"] [])].

Example renamed_copy_is_left_out :
  scan_directory toy_digest lower_utf8 (update_ignore_file Written temp_scanner first_scan)
    (RootDir true true true true temp_media_dir_moved) true
  = Ok []
  /\ _compute_file_hash toy_digest "/m/locked.mp4"
       (File "locked.mp4" (list_byte_of_string "secret") Unreadable 0)
     = "/m/locked.mp46".
Proof. split; vm_compute; reflexivity. Qed.

(** A commit whose write is cut short after [open]: the scanner that
    committed holds the six fingerprints, a scanner built afterwards on the
    same root holds none. *)
Example interrupted_write_loses_the_set :
  size (indexed_files (update_ignore_file Interrupted temp_scanner first_scan)) = 6
  /\ indexed_files
       (new_scanner lower_utf8 "/tmp/media"
          (ignore_file (update_ignore_file Interrupted temp_scanner first_scan)))
     = ∅.
Proof. split; [vm_compute|]; reflexivity. Qed.

(** Two recordings of a little over 10 MiB that differ in one byte in the
    middle. *)
Definition half_recording : list byte := repeat x00 (N.to_nat (5 * MiB)).
Definition take_one : file := File "take1.mp4" (half_recording ++ x01 :: half_recording) Readable 0.
Definition take_two : file := File "take2.mp4" (half_recording ++ x02 :: half_recording) Readable 0.

Lemma length_half_recording : length half_recording = N.to_nat (5 * MiB).
Proof. apply repeat_length. Qed.

Lemma two_takes_one_fingerprint :
  fbytes take_one <> fbytes take_two
  /\ _compute_file_hash toy_digest "/m/take1.mp4" take_one
     = _compute_file_hash toy_digest "/m/take2.mp4" take_two.
Proof.
  assert (Hlen : forall x,
    length (half_recording ++ x :: half_recording) = N.to_nat (10 * MiB + 1)).
  { intros x. rewrite length_app, length_cons, length_half_recording. unfold MiB. lia. }
  split.
  { unfold take_one, take_two, fbytes. intros Heq.
    apply app_inv_head in Heq. discriminate Heq. }
  apply large_file_fingerprint_ignores_middle.
  - reflexivity.
  - reflexivity.
  - unfold st_size, take_one, fbytes. rewrite Hlen. unfold MiB. lia.
  - unfold st_size, take_one, take_two, fbytes. by rewrite !Hlen.
  - unfold take_one, take_two, fbytes.
    rewrite !take_app_le; [done| |]; rewrite length_half_recording; unfold MiB; lia.
  - unfold st_size, take_one, take_two, fbytes. rewrite !Hlen.
    rewrite !drop_app_ge by (rewrite length_half_recording; unfold MiB; lia).
    rewrite length_half_recording.
    change (x01 :: half_recording) with ([x01] ++ half_recording).
    change (x02 :: half_recording) with ([x02] ++ half_recording).
    rewrite !drop_app_ge by (simpl length; unfold MiB; lia).
    reflexivity.
Defined.

(** A photo and a copy of it under another name, met in one scan. *)
Lemma photo_and_copy_are_both_returned :
  map path <$> scan_files toy_digest lower_utf8 temp_scanner true
                 [("/m/a.jpg", sample_file "a.jpg" "same bytes");
                  ("/m/copy.jpg", sample_file "copy.jpg" "same bytes")]
  = Ok ["/m/a.jpg"; "/m/copy.jpg"].
Proof.
  destruct (scan_returns_both_copies toy_digest lower_utf8 temp_scanner true [] [] []
              "/m/a.jpg" "/m/copy.jpg"
              (sample_file "a.jpg" "same bytes") (sample_file "copy.jpg" "same bytes"))
    as [Heq _].
  - reflexivity.
  - reflexivity.
  - reflexivity.
  - reflexivity.
  - reflexivity.
  - refine (bool_decide_unpack _ _). vm_compute. exact I.
  - simpl app in Heq. rewrite Heq. reflexivity.
Defined.

End MoreScannerRuns.

Section MoreSamplerRuns.

Import FrameSampler.

(** Ten seconds at 30 frames per second, sampled once per second with at
    most 30 frames: ten frames. *)
Definition ten_seconds : VideoCapture nat := mkCapture true 30 300 (seq 0 300).

Lemma ten_seconds_give_ten_frames :
  exists frames,
    _sample_fixed_interval same_frame one_fps "ten.mp4" ten_seconds (Some 30%Z)
    = Ok frames
    /\ length frames = 10.
Proof.
  destruct (fixed_interval_frame_count nat same_frame one_fps "ten.mp4" ten_seconds
              (Some 30%Z) 30%Z) as (frames & Heq & Hlen).
  - reflexivity.
  - vm_compute. reflexivity.
  - reflexivity.
  - intros m [= <-]. reflexivity.
  - exists frames. split; [exact Heq|].
    apply Nat2Z.inj. rewrite Hlen. reflexivity.
Defined.

(** A clip with scenes starting at frames 0, 40 and 90; the frame at 40
    cannot be read. *)
Definition scene_sampler : FrameSampler := mkSampler "scene_detect" 1 27 15.
Definition open_toy (video_path : string) : VideoCapture nat := mkCapture true 30 120 (seq 0 120).
Definition seek_read_toy (cap : VideoCapture nat) (n : Z) : option nat :=
  if (n =? 40)%Z then None else reads cap !! Z.to_nat n.
Definition detect_toy (self : FrameSampler) (video_path : string) : result (list (Z * Z)) :=
  Ok [(0, 40); (40, 90); (90, 120)]%Z.

Lemma scene_starts_are_sampled :
  map frame_number
    <$> _sample_scene_detect nat same_frame true open_toy seek_read_toy detect_toy
          scene_sampler "clip.mp4" (Some 5%Z)
  = Ok [0; 90]%Z.
Proof.
  destruct (scene_detect_sampling nat same_frame true open_toy seek_read_toy detect_toy
              scene_sampler "clip.mp4" (Some 5%Z)) as (Heq & _ & _).
  - discriminate.
  - reflexivity.
  - intros m [= <-]. reflexivity.
  - rewrite Heq. reflexivity.
Defined.

End MoreSamplerRuns.

Section MoreEmbedderRuns.

Import Embedder.

Lemma encode_only_broken_images :
  encode_images unit load_toy features_toy 1 ["broken.jpg"; "broken.jpg"; "broken.jpg"] 2
  = Ok (Arr2 1 [[0%R]; [0%R]; [0%R]]).
Proof.
  apply (encode_images_all_unreadable unit load_toy features_toy 1).
  - discriminate.
  - reflexivity.
  - repeat constructor.
Defined.

(** A text model whose features for any query are the vector (3, 4). *)
Definition text_features_toy (query : string) : list (list R) := [[3%R; 4%R]].

Lemma encode_text_three_four :
  len (encode_text text_features_toy 2 "a sunset") = 1
  /\ l2norm (normalize_row [3%R; 4%R]) = 1%R.
Proof.
  destruct (encode_text_unit text_features_toy 2 "a sunset" [3%R; 4%R])
    as (_ & Hlen & _ & Hunit).
  - reflexivity.
  - reflexivity.
  - unfold l2norm. simpl. replace (3 * 3 + (4 * 4 + 0))%R with (5 * 5)%R by lra.
    rewrite sqrt_square by lra. lra.
  - split; [exact Hlen|exact Hunit].
Defined.

End MoreEmbedderRuns.

Section MoreSearchRuns.

Import Database Search.

(** An id the collection does not hold. *)
Lemma similar_files_of_unknown_id :
  get_similar_files Z records (records_query distance_toy) records_get engine
                    "no such id" 5
  = Raise (FileNotInDatabase "no such id").
Proof.
  apply similar_files_needs_stored_vector. simpl. by left.
Defined.

(** A collection of real vectors that answers every query with one hit at
    cosine distance 1. *)
Definition query_one_hit (c : unit) (query : ndarray R) (n_results : Z)
    (where_ : option metadata) : result (list hit) :=
  Ok [mkHit "h1" [("file_path", MStr "/m/near.jpg")] 1].

Lemma search_by_broken_image :
  search_image unit query_one_hit unit load_toy features_toy 1
    (mkSearch (mkDatabase (Some 1) tt)) "broken.jpg" 5 None 0
  = Ok [mkSearchResult "h1" (MStr "/m/near.jpg") (1 - 1) [("file_path", MStr "/m/near.jpg")]].
Proof.
  rewrite (search_image_unreadable_queries_zero unit query_one_hit unit load_toy
             features_toy 1) by reflexivity.
  reflexivity.
Defined.

End MoreSearchRuns.

Section MoreIndexerRuns.

Import Scanner Database Indexer.

(** A sampler that decodes [clip.mp4] into two frames, fails on
    [broken.mp4] and finds no frame elsewhere. *)
Definition sample_video_clip (video_path : string) (max_frames : option Z)
    : result (list (FrameSampler.SampledFrame nat)) :=
  if String.eqb video_path "/m/clip.mp4"
  then Ok [FrameSampler.mkSampledFrame 0 0 0%Z; FrameSampler.mkSampledFrame 30 1 30%Z]
  else sample_video_toy video_path max_frames.

Definition clip_video : MediaFile :=
  media_file_of toy_digest lower_utf8 (new_scanner lower_utf8 "/m" None) "/m/clip.mp4"
                (sample_file "clip.mp4" "clip bytes").
Definition broken_video : MediaFile :=
  media_file_of toy_digest lower_utf8 (new_scanner lower_utf8 "/m" None) "/m/broken.mp4"
                (sample_file "broken.mp4" "broken bytes").

Lemma broken_video_changes_nothing :
  _index_videos Z records records_add nat sample_video_clip save_frames_toy
                encode_images_toy fresh_indexer [clip_video; broken_video] 30
  = _index_videos Z records records_add nat sample_video_clip save_frames_toy
                  encode_images_toy fresh_indexer [clip_video] 30.
Proof.
  apply (failed_video_is_skipped Z records records_add nat sample_video_clip
           save_frames_toy encode_images_toy fresh_indexer [clip_video] []
           broken_video 30).
  reflexivity.
Defined.

Lemma clip_frames_are_aligned :
  all_ids (collect_videos Z nat sample_video_clip save_frames_toy encode_images_toy
             32 30 [clip_video; broken_video] (mkCollected Z [] [] []))
  = ["clip bytes_f0"; "clip bytes_f30"].
Proof.
  destruct (video_records_are_aligned Z nat sample_video_clip save_frames_toy
              encode_images_toy) with
    (batch := 32%Z) (max_frames_per_video := 30%Z)
    (videos := [clip_video; broken_video]) as (Hids & _).
  - intros frames temp_paths [= <-]. apply length_imap.
  - intros paths batch embeddings [= <-]. simpl. apply length_map.
  - rewrite Hids. reflexivity.
Defined.

(** A second, incremental run after [run_once]. *)
Lemma second_run_is_noop :
  index_directory toy_digest lower_utf8 Z records records_add nat sample_video_toy
    save_frames_toy encode_images_toy Written run_once.2 media_root true 30
  = (Ok tt, run_once.2).
Proof.
  apply (incremental_rerun_is_noop toy_digest lower_utf8 Z records records_add nat
           sample_video_toy save_frames_toy encode_images_toy Written
           fresh_indexer run_once.2 media_root true 30 30).
  reflexivity.
Defined.

Lemma failed_write_keeps_scanner :
  scanner (index_directory toy_digest lower_utf8 Z records records_add_failing nat
             sample_video_toy save_frames_toy encode_images_toy Written
             fresh_indexer media_root true 30).2
  = scanner fresh_indexer.
Proof.
  apply (index_directory_raise_no_commit toy_digest lower_utf8 Z records records_add_failing nat
           sample_video_toy save_frames_toy encode_images_toy Written
           fresh_indexer media_root true 30 (External "store write failed")).
  reflexivity.
Defined.

Definition media_scan : list MediaFile :=
  discovered toy_digest lower_utf8 (new_scanner lower_utf8 "/m" None) true
             (walk "/m" (rd_tree media_root)).

Lemma run_once_commits_whole_scan :
  indexed_files (scanner run_once.2)
  = indexed_files (scanner fresh_indexer) ∪ list_to_set (map file_hash media_scan).
Proof.
  apply (index_directory_commits_all toy_digest lower_utf8 Z records records_add nat
           sample_video_toy save_frames_toy encode_images_toy Written
           fresh_indexer media_root true 30 media_scan).
  - reflexivity.
  - discriminate.
  - reflexivity.
Defined.

End MoreIndexerRuns.

End Examples.
